(** * The logistics engine: round-based dispatch of delivery units

    A shallow embedding of [ServiceInstance] (constructor, [Run] and
    [processDelivery]) and of the gRPC client wrapper
    [client.APILogisticsClient], followed by the properties of the round
    loop, of the per-unit delivery task, of the pacing ceiling and of the
    statistics counters.

    The world operator, the generated gRPC stub, [math/rand] and the clock
    are collaborators that live outside the two embedded files; they enter
    the model through the interfaces below. *)

From Stdlib Require Import ZArith Lia.
From stdpp Require Import base option list relations strings pretty.

Local Open Scope Z_scope.

(** ** Machine integers of Go *)

(** [int] is 64 bits wide; arithmetic on it wraps around. *)
Definition max_int : Z := 2 ^ 63 - 1.
Definition min_int : Z := - 2 ^ 63.

Definition wrap_int (z : Z) : Z := (z + 2 ^ 63) mod 2 ^ 64 - 2 ^ 63.

Definition int_add (a b : Z) : Z := wrap_int (a + b).
Definition int_mul (a b : Z) : Z := wrap_int (a * b).

(** The conversions [uint32(x)] and [int64(x)]. *)
Definition to_uint32 (z : Z) : Z := z mod 2 ^ 32.
Definition to_int64 (z : Z) : Z := wrap_int z.

(** ** math/rand *)

(** The package-level generator, as the stream of raw values it is going to
    hand out and a cursor into it.  [rand.Intn n] panics for [n <= 0] and
    otherwise yields a value of the half-open interval [0, n). *)
Record Rand := { raw : nat → Z; cursor : nat }.

Definition rand_Intn (g : Rand) (n : Z) : option (Z * Rand) :=
  if bool_decide (n ≤ 0) then None
  else Some (raw g (cursor g) mod n,
             {| raw := raw g; cursor := S (cursor g) |}).

(** ** Constants of the package *)

Definition appName : string := "Coop Logistics Engine".
Definition apiAddress : string := "127.0.0.1:50051".

Definition maxWarehouses : Z := 1 ≪ 8 - 1.
Definition maxCargoUnits : Z := 1 ≪ 10.

(** [time.Microsecond], in the nanoseconds of [time.Duration]. *)
Definition Microsecond : Z := 1000.

(** ** The pacing ceiling, [maxMoveWaitNumber] *)

(** [time.Duration(s.maxMoveWaitNumber) * time.Microsecond] *)
Definition moveWait (c : Z) : Z := int_mul (to_int64 c) Microsecond.

(** [s.maxMoveWaitNumber = rand.Intn(s.maxMoveWaitNumber+1) + 1] *)
Definition drawMoveWaitNumber (g : Rand) (c : Z) : option (Z * Rand) :=
  '(r, g') ← rand_Intn g (int_add c 1);
  Some (int_add r 1, g').

(** [if s.maxMoveWaitNumber >= 1 { s.maxMoveWaitNumber = s.maxMoveWaitNumber >> 1 }] *)
Definition halveMoveWaitNumber (c : Z) : Z :=
  if bool_decide (1 ≤ c) then c ≫ 1 else c.

(** The two statements in sequence: one pacing update. *)
Definition nextMoveWaitNumber (g : Rand) (c : Z) : option (Z * Rand) :=
  '(d, g') ← drawMoveWaitNumber g c;
  Some (halveMoveWaitNumber d, g').

(** ** Data model *)

(** Go's [error] values, identified with their message; [nil] is [None]. *)
Definition error : Type := string.

(** [%v] of an error value. *)
Definition fmt_error (e : option error) : string :=
  match e with Some m => m | None => "<nil>" end.

Module model.

Module Coordinate.
Record t := mk { X : Z; Y : Z }.

#[global] Instance eq_dec : EqDecision t.
Proof. solve_decision. Defined.
End Coordinate.

  (** The kind of entity looked up by coordinate; the engine only ever asks
      for warehouses. *)
Inductive EntityKind := Warehouses.

  (** A node of the world graph: a delivery unit or a warehouse.  The
      coordinate sits behind a pointer owned by the world operator and is
      read through [unitCoordinate] below; [Metadata] is the flag compared
      with [true] and set to [true] by the engine. *)
Module GraphNode.
Record t := mk { ID : Z; Name : string; Metadata : bool }.

Definition reach (n : t) : t :=
      {| ID := ID n; Name := Name n; Metadata := true |}.
End GraphNode.

  (** Modelled from the spec: [model.Operation] with its [AddA] and [AddB]
      methods is declared outside the embedded files.  "a named operation
      with two monotonically increasing counts: Attempts and Errors", each
      incremented by one, safely under concurrency; the counts are printed
      with [strconv.FormatUint]. *)
Module Operation.
Record t := mk { Name : string; A : N; B : N }.

Definition AddA (o : t) : t := {| Name := Name o; A := N.succ (A o); B := B o |}.
Definition AddB (o : t) : t := {| Name := Name o; A := A o; B := N.succ (B o) |}.
End Operation.

Module Statistics.
Record t := mk { ExecTime : Z; Operation : list Operation.t }.
End Statistics.

End model.
Import model.

(** The rows collected by [printer.ASCIITablePrinter]; rendering is left to
    the printer. *)
Module ASCIITablePrinter.
Record t := mk { header : list string; rows : list (list string) }.

Definition NewASCIITablePrinter : t := {| header := []; rows := [] |}.
Definition AddHeader (h : list string) (p : t) : t :=
    {| header := h; rows := rows p |}.
Definition AddRow (r : list string) (p : t) : t :=
    {| header := header p; rows := rows p ++ [r] |}.
End ASCIITablePrinter.

(** The protobuf messages of [api/v1] that the engine builds. *)
Module api.

Module Location.
Record t := mk { X : Z; Y : Z }.
End Location.

Module MoveUnitRequest.
Record t := mk { CargoUnitId : Z; Location : Location.t }.
End MoveUnitRequest.

Module WarehouseAnnouncement.
Record t := mk { CargoUnitId : Z; WarehouseId : Z; Message : string }.
End WarehouseAnnouncement.

Module UnitReachedWarehouseRequest.
Record t := mk { Location : Location.t;
                     Announcement : WarehouseAnnouncement.t }.
End UnitReachedWarehouseRequest.

End api.
Import api.

(** ** Collaborators *)

(** [operator.WorldOperator], through the calls the engine makes.  Every
    call may change the world.  [unitCoordinate w i] is the value behind the
    [Coordinate] pointer of the [i]-th node returned by [GetDeliveryUnit]. *)
Class WorldOperator (World : Type) := {
  Populate : World → Z → Z → World * option error;
  GetDeliveryUnit : World → list GraphNode.t;
  unitCoordinate : World → nat → Coordinate.t;
  MoveDeliveryUnitToNearestWarehouse : World → Z → World * Coordinate.t;
  FindEntityByCoordinate :
    World → Coordinate.t → EntityKind → World * option GraphNode.t;
}.

(** [api.CoopLogisticsEngineAPIClient] over a [grpc.ClientConn]: the
    generated stub and the dial that creates it.  The responses are dropped
    by the client wrapper, only the error is kept. *)
Class CoopLogisticsEngineAPIClient (Stub : Type) := {
  grpc_DialContext : string → error + Stub;
  stub_MoveUnit : Stub → MoveUnitRequest.t → Stub * option error;
  stub_UnitReachedWarehouse :
    Stub → UnitReachedWarehouseRequest.t → Stub * option error;
  conn_Close : Stub → option error;
}.


(** ** The gRPC client wrapper, [client.APILogisticsClient] *)

Module client.
Section Client.
Context {Stub : Type} `{!CoopLogisticsEngineAPIClient Stub}.

(** The fields [api] and [conn] are set together by [Connect] and are [nil]
    before; using a [nil] one panics, which is [None] below. *)
Record APILogisticsClient := { api : option Stub }.

Definition NewLogisticsClient : APILogisticsClient := {| api := None |}.

Definition Connect (lc : APILogisticsClient) (serverAddr : string)
  : APILogisticsClient * option error :=
  match grpc_DialContext serverAddr with
  | inl dialErr => (lc, Some dialErr)
  | inr conn => ({| api := Some conn |}, None)
  end.

Definition Disconnect (lc : APILogisticsClient) : option (option error) :=
  conn ← api lc;
  Some (conn_Close conn).

Definition MoveUnit (lc : APILogisticsClient) (req : MoveUnitRequest.t)
  : option (APILogisticsClient * option error) :=
  stub ← api lc;
  let '(stub', moveRespErr) := stub_MoveUnit stub req in
  match moveRespErr with
  | Some e => Some ({| api := Some stub' |}, Some e)
  | None => Some ({| api := Some stub' |}, None)
  end.

Definition UnitReachedWarehouse (lc : APILogisticsClient)
    (req : UnitReachedWarehouseRequest.t)
  : option (APILogisticsClient * option error) :=
  stub ← api lc;
  let '(stub', moveRespErr) := stub_UnitReachedWarehouse stub req in
  match moveRespErr with
  | Some e => Some ({| api := Some stub' |}, Some e)
  | None => Some ({| api := Some stub' |}, None)
  end.

End Client.
Arguments APILogisticsClient : clear implicits.
End client.

(** ** What the process does to the outside

    Sleeps, log lines, printed output and every call to a collaborator, in
    the order in which they happen.  The two RPC events carry the index (in
    the slice returned by [GetDeliveryUnit]) of the unit whose task sent
    them, and the error the call returned. *)
Inductive Event :=
| EvSleep (d : Z)
| EvLog (line : string)
| EvPopulate (warehouses units : Z)
| EvMoveToNearest (unitID : Z)
| EvFindEntity (c : Coordinate.t) (k : EntityKind)
| EvMoveUnit (unit : nat) (req : MoveUnitRequest.t) (err : option error)
| EvUnitReachedWarehouse (unit : nat) (req : UnitReachedWarehouseRequest.t)
    (err : option error)
| EvPrintExecTime (elapsed : Z)
| EvPrintTable (table : ASCIITablePrinter.t).

(** ** The service instance *)

Section Engine.
Context {Stub World : Type}.
Context `{!CoopLogisticsEngineAPIClient Stub} `{!WorldOperator World}.

(** The fields of [ServiceInstance] (the cancellation context is part of the
    stub's behaviour) together with the rest of the process state the engine
    works on: the nodes behind the pointers that [Run] got from
    [GetDeliveryUnit], the random generator, and what happened so far. *)
Record ServiceInstance := {
  logisticsClient : client.APILogisticsClient Stub;
  worldOperator : World;
  maxMoveWaitNumber : Z;
  reportTable : ASCIITablePrinter.t;
  statistics : Statistics.t;
  deliveryUnits : list GraphNode.t;
  rng : Rand;
  trace : list Event;
}.

Definition set_logisticsClient (lc : client.APILogisticsClient Stub)
    (s : ServiceInstance) : ServiceInstance :=
  {| logisticsClient := lc; worldOperator := worldOperator s;
     maxMoveWaitNumber := maxMoveWaitNumber s; reportTable := reportTable s;
     statistics := statistics s; deliveryUnits := deliveryUnits s;
     rng := rng s; trace := trace s |}.

Definition set_worldOperator (w : World) (s : ServiceInstance) : ServiceInstance :=
  {| logisticsClient := logisticsClient s; worldOperator := w;
     maxMoveWaitNumber := maxMoveWaitNumber s; reportTable := reportTable s;
     statistics := statistics s; deliveryUnits := deliveryUnits s;
     rng := rng s; trace := trace s |}.

Definition set_maxMoveWaitNumber (c : Z) (s : ServiceInstance) : ServiceInstance :=
  {| logisticsClient := logisticsClient s; worldOperator := worldOperator s;
     maxMoveWaitNumber := c; reportTable := reportTable s;
     statistics := statistics s; deliveryUnits := deliveryUnits s;
     rng := rng s; trace := trace s |}.

Definition set_reportTable (t : ASCIITablePrinter.t) (s : ServiceInstance)
  : ServiceInstance :=
  {| logisticsClient := logisticsClient s; worldOperator := worldOperator s;
     maxMoveWaitNumber := maxMoveWaitNumber s; reportTable := t;
     statistics := statistics s; deliveryUnits := deliveryUnits s;
     rng := rng s; trace := trace s |}.

Definition set_Operation (ops : list Operation.t) (s : ServiceInstance)
  : ServiceInstance :=
  {| logisticsClient := logisticsClient s; worldOperator := worldOperator s;
     maxMoveWaitNumber := maxMoveWaitNumber s; reportTable := reportTable s;
     statistics := {| Statistics.ExecTime := Statistics.ExecTime (statistics s);
                      Statistics.Operation := ops |};
     deliveryUnits := deliveryUnits s; rng := rng s; trace := trace s |}.

Definition set_deliveryUnits (us : list GraphNode.t) (s : ServiceInstance)
  : ServiceInstance :=
  {| logisticsClient := logisticsClient s; worldOperator := worldOperator s;
     maxMoveWaitNumber := maxMoveWaitNumber s; reportTable := reportTable s;
     statistics := statistics s; deliveryUnits := us;
     rng := rng s; trace := trace s |}.

Definition set_rng (g : Rand) (s : ServiceInstance) : ServiceInstance :=
  {| logisticsClient := logisticsClient s; worldOperator := worldOperator s;
     maxMoveWaitNumber := maxMoveWaitNumber s; reportTable := reportTable s;
     statistics := statistics s; deliveryUnits := deliveryUnits s;
     rng := g; trace := trace s |}.

Definition emit (e : Event) (s : ServiceInstance) : ServiceInstance :=
  {| logisticsClient := logisticsClient s; worldOperator := worldOperator s;
     maxMoveWaitNumber := maxMoveWaitNumber s; reportTable := reportTable s;
     statistics := statistics s; deliveryUnits := deliveryUnits s;
     rng := rng s; trace := trace s ++ [e] |}.

(** [s.statistics.Operation] as a list of operations. *)
Definition operations (s : ServiceInstance) : list Operation.t :=
  Statistics.Operation (statistics s).

(** *** The statements of [processDelivery], one by one

    Indexing [s.statistics.Operation] out of range, drawing from an empty
    interval and calling through a [nil] stub panic: the result is [None]. *)

(** [time.Sleep(time.Duration(s.maxMoveWaitNumber) * time.Microsecond)] *)
Definition sleepMoveWait (s : ServiceInstance) : ServiceInstance :=
  emit (EvSleep (moveWait (maxMoveWaitNumber s))) s.

(** [s.maxMoveWaitNumber = rand.Intn(s.maxMoveWaitNumber+1) + 1] *)
Definition drawWait (s : ServiceInstance) : option ServiceInstance :=
  '(d, g') ← drawMoveWaitNumber (rng s) (maxMoveWaitNumber s);
  Some (set_maxMoveWaitNumber d (set_rng g' s)).

(** [if s.maxMoveWaitNumber >= 1 { s.maxMoveWaitNumber = s.maxMoveWaitNumber >> 1 }] *)
Definition halveWait (s : ServiceInstance) : ServiceInstance :=
  set_maxMoveWaitNumber (halveMoveWaitNumber (maxMoveWaitNumber s)) s.

(** [s.worldOperator.MoveDeliveryUnitToNearestWarehouse(unit.ID)] *)
Definition moveToNearest (unitID : Z) (s : ServiceInstance)
  : ServiceInstance * Coordinate.t :=
  let '(w, c) := MoveDeliveryUnitToNearestWarehouse (worldOperator s) unitID in
  (emit (EvMoveToNearest unitID) (set_worldOperator w s), c).

(** [s.worldOperator.FindEntityByCoordinate(newCoordinate, model.Warehouses)] *)
Definition findWarehouse (c : Coordinate.t) (s : ServiceInstance)
  : ServiceInstance * option GraphNode.t :=
  let '(w, found) := FindEntityByCoordinate (worldOperator s) c Warehouses in
  (emit (EvFindEntity c Warehouses) (set_worldOperator w s), found).

(** [s.statistics.Operation[k].AddA()] and [s.statistics.Operation[k].AddB()] *)
Definition addA (k : nat) (s : ServiceInstance) : option ServiceInstance :=
  o ← operations s !! k;
  Some (set_Operation (<[k := Operation.AddA o]> (operations s)) s).

Definition addB (k : nat) (s : ServiceInstance) : option ServiceInstance :=
  o ← operations s !! k;
  Some (set_Operation (<[k := Operation.AddB o]> (operations s)) s).

(** [fmt.Sprintf("%s moving to - X:%d, Y:%d", unit.Name, newCoordinate.X, newCoordinate.Y)] *)
Definition unitMessage (unit : GraphNode.t) (c : Coordinate.t) : string :=
  GraphNode.Name unit +:+ " moving to - X:" +:+ pretty (Coordinate.X c)
    +:+ ", Y:" +:+ pretty (Coordinate.Y c).

(** [fmt.Sprintf("%s - Reached Objective.", unitMessage)] *)
Definition announcement (unit : GraphNode.t) (c : Coordinate.t) : string :=
  unitMessage unit c +:+ " - Reached Objective.".

Definition location (c : Coordinate.t) : Location.t :=
  {| Location.X := to_uint32 (Coordinate.X c);
     Location.Y := to_uint32 (Coordinate.Y c) |}.

Definition moveUnitRequest (unit : GraphNode.t) (c : Coordinate.t)
  : MoveUnitRequest.t :=
  {| MoveUnitRequest.CargoUnitId := to_int64 (GraphNode.ID unit);
     MoveUnitRequest.Location := location c |}.

Definition unitReachedWarehouseRequest (unit warehouse : GraphNode.t)
    (c : Coordinate.t) : UnitReachedWarehouseRequest.t :=
  {| UnitReachedWarehouseRequest.Location := location c;
     UnitReachedWarehouseRequest.Announcement :=
       {| WarehouseAnnouncement.CargoUnitId := to_int64 (GraphNode.ID unit);
          WarehouseAnnouncement.WarehouseId := to_int64 (GraphNode.ID warehouse);
          WarehouseAnnouncement.Message := announcement unit c |} |}.

(** [s.logisticsClient.MoveUnit(s.ctx, req)], sent by the task of unit [i] *)
Definition sendMoveUnit (i : nat) (req : MoveUnitRequest.t) (s : ServiceInstance)
  : option (ServiceInstance * option error) :=
  '(lc, moveErr) ← client.MoveUnit (logisticsClient s) req;
  Some (emit (EvMoveUnit i req moveErr) (set_logisticsClient lc s), moveErr).

(** [s.logisticsClient.UnitReachedWarehouse(s.ctx, req)], sent by the task of unit [i] *)
Definition sendUnitReachedWarehouse (i : nat)
    (req : UnitReachedWarehouseRequest.t) (s : ServiceInstance)
  : option (ServiceInstance * option error) :=
  '(lc, reachErr) ← client.UnitReachedWarehouse (logisticsClient s) req;
  Some (emit (EvUnitReachedWarehouse i req reachErr) (set_logisticsClient lc s),
        reachErr).

(** [unit.Metadata = true], for the [i]-th unit *)
Definition markReached (i : nat) (s : ServiceInstance) : ServiceInstance :=
  set_deliveryUnits (alter GraphNode.reach i (deliveryUnits s)) s.

(** *** [processDelivery]

    The task of the [i]-th delivery unit, run from its first statement to
    its return without another task in between. *)
Definition processDelivery (i : nat) (s : ServiceInstance)
  : option ServiceInstance :=
  unit ← deliveryUnits s !! i;
  let s := sleepMoveWait s in
  s ← drawWait s;
  let s := halveWait s in
  let oldCoordinate := unitCoordinate (worldOperator s) i in
  let '(s, newCoordinate) := moveToNearest (GraphNode.ID unit) s in
  let s := emit (EvLog (unitMessage unit newCoordinate)) s in
  s ← addA 0 s;
  '(s, moveErr) ← sendMoveUnit i (moveUnitRequest unit newCoordinate) s;
  match moveErr with
  | Some _ =>
      let s := emit (EvLog ("filed to send MoveUnit "
                 +:+ unitMessage unit newCoordinate
                 +:+ ", API error: " +:+ fmt_error moveErr)) s in
      addB 0 s
  | None =>
      if bool_decide (newCoordinate ≠ oldCoordinate) then Some s
      else
        let '(s, warehouse) := findWarehouse newCoordinate s in
        match warehouse with
        | None =>
            Some (emit (EvLog ("Warehouses not found in coordinates X:"
                    +:+ pretty (Coordinate.X newCoordinate)
                    +:+ " Y:" +:+ pretty (Coordinate.Y newCoordinate))) s)
        | Some warehouse =>
            s ← addA 1 s;
            '(s, reachErr) ← sendUnitReachedWarehouse i
                (unitReachedWarehouseRequest unit warehouse newCoordinate) s;
            match reachErr with
            | Some _ =>
                let s := emit (EvLog ("filed to send UnitReachedWarehouse "
                           +:+ unitMessage unit newCoordinate
                           +:+ ", API error: " +:+ fmt_error moveErr)) s in
                addB 1 s
            | None =>
                let s := emit (EvLog (announcement unit newCoordinate)) s in
                Some (markReached i s)
            end
        end
  end.

(** *** [Run]: the round loop *)

(** The count of the first loop of a round: units with [unit.Metadata == true]. *)
Definition unitsReachedObjective (units : list GraphNode.t) : nat :=
  length (filter (λ u, GraphNode.Metadata u = true) units).

Definition allReached (s : ServiceInstance) : bool :=
  bool_decide (unitsReachedObjective (deliveryUnits s) = length (deliveryUnits s)).

(** The second loop of a round over the positions [js] of the slice: a unit
    that reached its warehouse is skipped, every other one gets a task.  The
    tasks are goroutines; here each runs to its end as soon as it is started,
    which is one of the schedules the Go runtime may choose (the statements
    are interleaved freely in [step] further down). *)
Fixpoint fanOut (js : list nat) (s : ServiceInstance) : option ServiceInstance :=
  match js with
  | [] => Some s
  | j :: js =>
      unit ← deliveryUnits s !! j;
      if GraphNode.Metadata unit then fanOut js s
      else s ← processDelivery j s; fanOut js s
  end.

(** One round: fan out over the whole slice, then [wg.Wait()]. *)
Definition round (s : ServiceInstance) : option ServiceInstance :=
  fanOut (seq 0 (length (deliveryUnits s))) s.

(** How a run of the loop ends: it left the loop after [rounds] rounds, it
    panicked, or it is still looping when the fuel is used up. *)
Inductive Outcome :=
| Exited (rounds : nat) (s : ServiceInstance)
| Panicked
| Looping (s : ServiceInstance).

Fixpoint roundLoop (fuel rounds : nat) (s : ServiceInstance) : Outcome :=
  match fuel with
  | O => Looping s
  | S fuel =>
      if allReached s
      then Exited rounds (emit (EvLog "All delivery units reached warehouse...") s)
      else match round s with
           | Some s => roundLoop fuel (S rounds) s
           | None => Panicked
           end
  end.

(** The state at the top of the loop after [n] rounds, if none of them
    panics (whether the loop gets that far is for [roundLoop] to say). *)
Fixpoint afterRounds (n : nat) (s : ServiceInstance) : option ServiceInstance :=
  match n with
  | O => Some s
  | S n => s ← afterRounds n s; round s
  end.

(** [time.Since(t)] read at the instant [now]; a [time.Duration] saturates. *)
Definition time_Since (now t : Z) : Z := Z.max min_int (Z.min max_int (now - t)).

(** One row of the report: [o.Name], [strconv.FormatUint(o.A, 10)],
    [strconv.FormatUint(o.B, 10)]. *)
Definition reportRow (o : Operation.t) : list string :=
  [Operation.Name o; pretty (Operation.A o); pretty (Operation.B o)].

(** What [Run] does after the loop, the clock showing [now]. *)
Definition report (now : Z) (s : ServiceInstance) : ServiceInstance :=
  let s := foldl (λ s o, set_reportTable
                           (ASCIITablePrinter.AddRow (reportRow o) (reportTable s)) s)
                 s (operations s) in
  let s := emit (EvPrintExecTime (time_Since now (Statistics.ExecTime (statistics s)))) s in
  emit (EvPrintTable (reportTable s)) s.

(** [Run], with [fuel] bounding the number of rounds looked at and [now] the
    clock at the end of the loop.  [Exited] stands for [return nil].  The
    goroutine that waits for a signal and ends the process is left out. *)
Definition Run (fuel : nat) (now : Z) (s : ServiceInstance) : Outcome :=
  let s := set_deliveryUnits (GetDeliveryUnit (worldOperator s)) s in
  match roundLoop fuel 0 s with
  | Exited rounds s => Exited rounds (report now s)
  | o => o
  end.

(** *** [NewServiceInstance] *)

(** The composite literal [&ServiceInstance{...}] of the constructor, the
    clock showing [now], followed by [AddHeader]: the service as it is before
    the world is populated. *)
Definition newService (lc : client.APILogisticsClient Stub) (wo : World)
    (g : Rand) (now : Z) (tr : list Event) : ServiceInstance :=
  let service :=
    {| logisticsClient := lc; worldOperator := wo;
       maxMoveWaitNumber := 100;
       reportTable := ASCIITablePrinter.NewASCIITablePrinter;
       statistics :=
         {| Statistics.ExecTime := now;
            Statistics.Operation :=
              [ {| Operation.Name := "MoveUnit"; Operation.A := 0; Operation.B := 0 |};
                {| Operation.Name := "UnitReachedWarehouse";
                   Operation.A := 0; Operation.B := 0 |} ] |};
       deliveryUnits := []; rng := g; trace := tr |} in
  set_reportTable (ASCIITablePrinter.AddHeader ["Operation"; "Count"; "Errors"]
                     (reportTable service)) service.

(** The result is the trace of the construction together with the returned
    error or service. *)
Definition NewServiceInstance (lc : client.APILogisticsClient Stub) (wo : World)
    (g : Rand) (now : Z) : option (list Event * (error + ServiceInstance)) :=
  let tr := [EvLog (appName +:+ ", initializing...");
             EvLog (appName +:+ ", trying to connect to API - " +:+ apiAddress +:+ "...")] in
  match client.Connect lc apiAddress with
  | (_, Some connErr) =>
      Some (tr, inl (appName +:+ ", failed to connect to API (" +:+ apiAddress
                       +:+ "), error: " +:+ connErr))
  | (lc, None) =>
      let service := newService lc wo g now tr in
      '(nw, g) ← rand_Intn (rng service) (maxWarehouses - 10 + 1);
      '(nu, g) ← rand_Intn g (maxCargoUnits - 10 + 1);
      let warehouses := to_uint32 (int_add nw 10) in
      let units := to_uint32 (int_add nu 10) in
      let '(wo, worldPopulationErr) := Populate (worldOperator service) warehouses units in
      let service := emit (EvPopulate warehouses units)
                       (set_worldOperator wo (set_rng g service)) in
      match worldPopulationErr with
      | Some e => Some (trace service, inl e)
      | None => Some (trace service, inr service)
      end
  end.

End Engine.
Arguments ServiceInstance : clear implicits.
Arguments Outcome : clear implicits.

(** ** The tasks of a round, statement by statement

    [Run] starts the tasks of a round as goroutines, so their statements
    interleave.  A task is a program point of [processDelivery] with the
    values of the local variables that are live there; a step executes the
    statement at that point on the shared state. *)
Inductive Task :=
| AtSleep
| AtDraw
| AtHalve
| AtReadCoordinate
| AtMove (oldCoordinate : Coordinate.t)
| AtLogMove (oldCoordinate newCoordinate : Coordinate.t)
| AtCountMove (oldCoordinate newCoordinate : Coordinate.t)
| AtSendMove (oldCoordinate newCoordinate : Coordinate.t)
| AtLogMoveFailed (newCoordinate : Coordinate.t) (moveErr : option error)
| AtCountMoveError
| AtFind (newCoordinate : Coordinate.t)
| AtLogNotFound (newCoordinate : Coordinate.t)
| AtCountReach (newCoordinate : Coordinate.t) (warehouse : GraphNode.t)
| AtSendReach (newCoordinate : Coordinate.t) (warehouse : GraphNode.t)
| AtLogReachFailed (newCoordinate : Coordinate.t)
| AtCountReachError
| AtLogReached (newCoordinate : Coordinate.t)
| AtMark
| Finished.

(** [Run] itself: counting at the top of the loop, going through the slice to
    start tasks, waiting for them, and what follows the loop. *)
Inductive Driver :=
| Counting
| Spawning (js : list nat)
| Waiting
| Leaving
| Returned.

Section Interleaving.
Context {Stub World : Type}.
Context `{!CoopLogisticsEngineAPIClient Stub} `{!WorldOperator World}.

Local Abbreviation State := (ServiceInstance Stub World).

(** The statement of task [i] at point [t].  [None]: the statement panics, or
    the task is [Finished] and has no statement left. *)
Definition taskStep (i : nat) (t : Task) (s : State) : option (Task * State) :=
  match t with
  | AtSleep => Some (AtDraw, sleepMoveWait s)
  | AtDraw => s ← drawWait s; Some (AtHalve, s)
  | AtHalve => Some (AtReadCoordinate, halveWait s)
  | AtReadCoordinate =>
      _ ← deliveryUnits s !! i;
      Some (AtMove (unitCoordinate (worldOperator s) i), s)
  | AtMove old =>
      unit ← deliveryUnits s !! i;
      let '(s, new) := moveToNearest (GraphNode.ID unit) s in
      Some (AtLogMove old new, s)
  | AtLogMove old new =>
      unit ← deliveryUnits s !! i;
      Some (AtCountMove old new, emit (EvLog (unitMessage unit new)) s)
  | AtCountMove old new => s ← addA 0 s; Some (AtSendMove old new, s)
  | AtSendMove old new =>
      unit ← deliveryUnits s !! i;
      '(s, moveErr) ← sendMoveUnit i (moveUnitRequest unit new) s;
      Some (match moveErr with
            | Some _ => AtLogMoveFailed new moveErr
            | None => if bool_decide (new ≠ old) then Finished else AtFind new
            end, s)
  | AtLogMoveFailed new moveErr =>
      unit ← deliveryUnits s !! i;
      Some (AtCountMoveError,
            emit (EvLog ("filed to send MoveUnit " +:+ unitMessage unit new
                           +:+ ", API error: " +:+ fmt_error moveErr)) s)
  | AtCountMoveError => s ← addB 0 s; Some (Finished, s)
  | AtFind new =>
      let '(s, warehouse) := findWarehouse new s in
      Some (match warehouse with
            | None => AtLogNotFound new
            | Some warehouse => AtCountReach new warehouse
            end, s)
  | AtLogNotFound new =>
      Some (Finished,
            emit (EvLog ("Warehouses not found in coordinates X:"
                           +:+ pretty (Coordinate.X new)
                           +:+ " Y:" +:+ pretty (Coordinate.Y new))) s)
  | AtCountReach new warehouse => s ← addA 1 s; Some (AtSendReach new warehouse, s)
  | AtSendReach new warehouse =>
      unit ← deliveryUnits s !! i;
      '(s, reachErr) ← sendUnitReachedWarehouse i
          (unitReachedWarehouseRequest unit warehouse new) s;
      Some (match reachErr with
            | Some _ => AtLogReachFailed new
            | None => AtLogReached new
            end, s)
  | AtLogReachFailed new =>
      unit ← deliveryUnits s !! i;
      Some (AtCountReachError,
            emit (EvLog ("filed to send UnitReachedWarehouse " +:+ unitMessage unit new
                           +:+ ", API error: " +:+ fmt_error None)) s)
  | AtCountReachError => s ← addB 1 s; Some (Finished, s)
  | AtLogReached new =>
      unit ← deliveryUnits s !! i;
      Some (AtMark, emit (EvLog (announcement unit new)) s)
  | AtMark => Some (Finished, markReached i s)
  | Finished => None
  end.

(** A task taking statements on its own, from one program point to another. *)
Inductive taskRun (i : nat) : Task → State → Task → State → Prop :=
| taskRun_here t s : taskRun i t s t s
| taskRun_step t s t1 s1 t2 s2 :
    taskStep i t s = Some (t1, s1) →
    taskRun i t1 s1 t2 s2 →
    taskRun i t s t2 s2.

(** The process: where [Run] is, the tasks of the current round (the unit each
    works on and its program point), and the shared state. *)
Record Config := {
  driver : Driver;
  tasks : list (nat * Task);
  shared : State;
}.

(** One step of the process.  A round begins with no task; while [Run] walks
    through the slice, and while it waits, any started task may take its next
    statement; [wg.Wait()] returns once every task is [Finished].  A panic ends
    the process: there is no step. *)
Inductive step : Config → Config → Prop :=
| step_exit s :
    allReached s = true →
    step {| driver := Counting; tasks := []; shared := s |}
         {| driver := Leaving; tasks := [];
            shared := emit (EvLog "All delivery units reached warehouse...") s |}
| step_enter s :
    allReached s = false →
    step {| driver := Counting; tasks := []; shared := s |}
         {| driver := Spawning (seq 0 (length (deliveryUnits s)));
            tasks := []; shared := s |}
| step_skip j js ts s unit :
    deliveryUnits s !! j = Some unit →
    GraphNode.Metadata unit = true →
    step {| driver := Spawning (j :: js); tasks := ts; shared := s |}
         {| driver := Spawning js; tasks := ts; shared := s |}
| step_go j js ts s unit :
    deliveryUnits s !! j = Some unit →
    GraphNode.Metadata unit = false →
    step {| driver := Spawning (j :: js); tasks := ts; shared := s |}
         {| driver := Spawning js; tasks := ts ++ [(j, AtSleep)]; shared := s |}
| step_wait ts s :
    step {| driver := Spawning []; tasks := ts; shared := s |}
         {| driver := Waiting; tasks := ts; shared := s |}
| step_task d k ts s i t t' s' :
    ts !! k = Some (i, t) →
    taskStep i t s = Some (t', s') →
    step {| driver := d; tasks := ts; shared := s |}
         {| driver := d; tasks := <[k := (i, t')]> ts; shared := s' |}
| step_join ts s :
    Forall (λ it, it.2 = Finished) ts →
    step {| driver := Waiting; tasks := ts; shared := s |}
         {| driver := Counting; tasks := []; shared := s |}
| step_report now s :
    step {| driver := Leaving; tasks := []; shared := s |}
         {| driver := Returned; tasks := []; shared := report now s |}.

(** [Run] from its first statement. *)
Definition start (s : State) : Config :=
  {| driver := Counting; tasks := [];
     shared := set_deliveryUnits (GetDeliveryUnit (worldOperator s)) s |}.

Definition reachable (c0 c : Config) : Prop := rtc step c0 c.

End Interleaving.
Arguments Config : clear implicits.

(** ** Collaborators to run the engine with *)

(** A transport that follows a script: the next call of each kind returns the
    head of its list, and succeeds once the list is used up. *)
Module Scripted.
Record t := mk { moves : list (option error); reaches : list (option error) }.

Definition reliable : t := {| moves := []; reaches := [] |}.

Definition nextMove (st : t) : t * option error :=
  match moves st with
  | [] => (st, None)
  | e :: es => ({| moves := es; reaches := reaches st |}, e)
  end.

Definition nextReach (st : t) : t * option error :=
  match reaches st with
  | [] => (st, None)
  | e :: es => ({| moves := moves st; reaches := es |}, e)
  end.

(** The stub obtained by dialling is the one that follows [script]. *)
Definition stub (script : t) : CoopLogisticsEngineAPIClient t :=
  {| grpc_DialContext := λ _, inr script;
     stub_MoveUnit := λ st _, nextMove st;
     stub_UnitReachedWarehouse := λ st _, nextReach st;
     conn_Close := λ _, None |}.
End Scripted.

(** Modelled from the spec: the world operator is declared outside the
    embedded files.  "Populate must place warehouseCount warehouses and
    unitCount units at grid coordinates"; "AdvanceTowardNearestWarehouse
    mutates the unit's position one step closer to its nearest warehouse (or
    leaves it unchanged if already there) and returns the resulting
    Coordinate"; "FindEntityAt(coordinate, kind=Warehouse) -> Entity | not
    found".  A step changes one of the two components by one, and the nearest
    warehouse is the first one at the least number of steps. *)
Module Grid.
Record t := mk { warehouses : list (GraphNode.t * Coordinate.t);
                 units : list (GraphNode.t * Coordinate.t) }.

Definition steps (a b : Coordinate.t) : Z :=
  Z.abs (Coordinate.X a - Coordinate.X b) + Z.abs (Coordinate.Y a - Coordinate.Y b).

Fixpoint nearest (c : Coordinate.t) (ws : list (GraphNode.t * Coordinate.t))
  : option Coordinate.t :=
  match ws with
  | [] => None
  | (_, p) :: ws =>
      match nearest c ws with
      | Some q => if bool_decide (steps c q < steps c p) then Some q else Some p
      | None => Some p
      end
  end.

Definition toward (c target : Coordinate.t) : Coordinate.t :=
  if bool_decide (Coordinate.X c < Coordinate.X target)
  then {| Coordinate.X := Coordinate.X c + 1; Coordinate.Y := Coordinate.Y c |}
  else if bool_decide (Coordinate.X target < Coordinate.X c)
  then {| Coordinate.X := Coordinate.X c - 1; Coordinate.Y := Coordinate.Y c |}
  else if bool_decide (Coordinate.Y c < Coordinate.Y target)
  then {| Coordinate.X := Coordinate.X c; Coordinate.Y := Coordinate.Y c + 1 |}
  else if bool_decide (Coordinate.Y target < Coordinate.Y c)
  then {| Coordinate.X := Coordinate.X c; Coordinate.Y := Coordinate.Y c - 1 |}
  else c.

Definition advance (ws : list (GraphNode.t * Coordinate.t)) (c : Coordinate.t)
  : Coordinate.t :=
  match nearest c ws with
  | Some target => toward c target
  | None => c
  end.

Definition origin : Coordinate.t := {| Coordinate.X := 0; Coordinate.Y := 0 |}.

Fixpoint moveUnit (ws : list (GraphNode.t * Coordinate.t)) (unitID : Z)
    (us : list (GraphNode.t * Coordinate.t))
  : list (GraphNode.t * Coordinate.t) * Coordinate.t :=
  match us with
  | [] => ([], origin)
  | (u, c) :: us =>
      if bool_decide (GraphNode.ID u = unitID)
      then ((u, advance ws c) :: us, advance ws c)
      else let '(us, r) := moveUnit ws unitID us in ((u, c) :: us, r)
  end.

Definition findAt (c : Coordinate.t) (ws : list (GraphNode.t * Coordinate.t))
  : option GraphNode.t :=
  fst <$> head (filter (λ w, w.2 = c) ws).

Definition place (name : string) (row : Z) (j : nat) : GraphNode.t * Coordinate.t :=
  ({| GraphNode.ID := Z.of_nat j; GraphNode.Name := name +:+ pretty j;
      GraphNode.Metadata := false |},
   {| Coordinate.X := Z.of_nat j; Coordinate.Y := row |}).

(** How many steps the [i]-th unit is away from its nearest warehouse. *)
Definition stepsToWarehouse (w : t) (i : nat) : option Z :=
  '(_, c) ← units w !! i;
  target ← nearest c (warehouses w);
  Some (steps c target).

#[global] Instance operator : WorldOperator t :=
  {| Populate := λ _ warehouseCount unitCount,
       ({| warehouses := place "Warehouse" 0 <$> seq 0 (Z.to_nat warehouseCount);
           units := place "Unit" 1 <$> seq 0 (Z.to_nat unitCount) |}, None);
     GetDeliveryUnit := λ w, fst <$> units w;
     unitCoordinate := λ w i, default origin (snd <$> units w !! i);
     MoveDeliveryUnitToNearestWarehouse := λ w unitID,
       let '(us, c) := moveUnit (warehouses w) unitID (units w) in
       ({| warehouses := warehouses w; units := us |}, c);
     FindEntityByCoordinate := λ w c _, (w, findAt c (warehouses w)) |}.
End Grid.

(** ** The scenario of the three units

    Two warehouses and the units U1, U2 and U3, which are 1, 2 and 3 steps
    away from their nearest warehouse; the service is the one the constructor
    builds, over this world and a connected client. *)
Module Scenario.

Definition node (id : Z) (name : string) : GraphNode.t :=
  {| GraphNode.ID := id; GraphNode.Name := name; GraphNode.Metadata := false |}.

Definition at_ (x y : Z) : Coordinate.t := {| Coordinate.X := x; Coordinate.Y := y |}.

Definition world : Grid.t :=
  {| Grid.warehouses := [ (node 1 "W1", at_ 0 0); (node 2 "W2", at_ 10 0) ];
     Grid.units := [ (node 11 "U1", at_ 1 0); (node 12 "U2", at_ 8 0);
                     (node 13 "U3", at_ 3 0) ] |}.

(** A generator with which every draw from a positive ceiling is that
    ceiling, so that each update halves it. *)
Definition generator : Rand := {| raw := λ _, -2; cursor := 0 |}.

Definition connected (script : Scripted.t) : client.APILogisticsClient Scripted.t :=
  {| client.api := Some script |}.

(** The constructed service over the world [w], and the same service when
    [Run] enters its loop: the units have been fetched. *)
Definition serviceOver (w : Grid.t) (script : Scripted.t)
  : ServiceInstance Scripted.t Grid.t :=
  newService (connected script) w generator 0 [].

Definition enteringOver (w : Grid.t) (script : Scripted.t)
  : ServiceInstance Scripted.t Grid.t :=
  set_deliveryUnits (GetDeliveryUnit w) (serviceOver w script).

Definition service : Scripted.t → ServiceInstance Scripted.t Grid.t :=
  serviceOver world.

Definition entering : Scripted.t → ServiceInstance Scripted.t Grid.t :=
  enteringOver world.

(** Two more worlds: U1 stands where W1 is; U1 stands in a world without
    warehouses.  And two scripts with one failing call. *)
Definition atTheDoor : Grid.t :=
  {| Grid.warehouses := [ (node 1 "W1", at_ 0 0) ];
     Grid.units := [ (node 11 "U1", at_ 0 0) ] |}.

Definition stranded : Grid.t :=
  {| Grid.warehouses := []; Grid.units := [ (node 11 "U1", at_ 5 5) ] |}.

Definition moveFails : Scripted.t :=
  {| Scripted.moves := [Some "unavailable"]; Scripted.reaches := [] |}.

Definition reachFails : Scripted.t :=
  {| Scripted.moves := []; Scripted.reaches := [Some "unavailable"] |}.

(** [Run] over the scenario with the scripted transport, and the state at the
    top of the loop after [n] rounds. *)
Definition run (script : Scripted.t) (fuel : nat) (now : Z)
  : Outcome Scripted.t Grid.t :=
  @Run Scripted.t Grid.t (Scripted.stub script) Grid.operator fuel now (service script).

Definition rounds (script : Scripted.t) (n : nat)
  : option (ServiceInstance Scripted.t Grid.t) :=
  @afterRounds Scripted.t Grid.t (Scripted.stub script) Grid.operator n (entering script).

(** The task of the [i]-th unit, run on its own. *)
Definition task (script : Scripted.t) (i : nat) (s : ServiceInstance Scripted.t Grid.t)
  : option (ServiceInstance Scripted.t Grid.t) :=
  @processDelivery Scripted.t Grid.t (Scripted.stub script) Grid.operator i s.

(** The state of the scenario after [n] rounds and at the return of [Run]
    (ten rounds of fuel are more than it needs). *)
Definition stateAfter (script : Scripted.t) (n : nat)
  : ServiceInstance Scripted.t Grid.t :=
  default (entering script) (rounds script n).

Definition final (script : Scripted.t) : ServiceInstance Scripted.t Grid.t :=
  match run script 10 0 with
  | Exited _ s => s
  | _ => service script
  end.

End Scenario.

(** Simplification leaves the arithmetic and the formatting folded. *)
Arguments Scenario.stateAfter : simpl never.
Arguments Scenario.final : simpl never.
Arguments Scenario.entering : simpl never.
Arguments Scenario.service : simpl never.
Arguments wrap_int : simpl never.
Arguments int_add : simpl never.
Arguments int_mul : simpl never.
Arguments moveWait : simpl never.
Arguments rand_Intn : simpl never.
Arguments drawMoveWaitNumber : simpl never.
Arguments halveMoveWaitNumber : simpl never.
Arguments nextMoveWaitNumber : simpl never.
Arguments fmt_error : simpl never.
Arguments unitMessage : simpl never.
Arguments announcement : simpl never.
Arguments moveUnitRequest : simpl never.
Arguments unitReachedWarehouseRequest : simpl never.
Arguments time_Since : simpl never.
Arguments reportRow : simpl never.
Arguments report {_ _} _ _ : simpl never.

(** ** Notions used by the properties *)

Section Notions.
Context {Stub World : Type}.

Local Abbreviation State := (ServiceInstance Stub World).

(** The status of the [i]-th unit: [Arrived] when its flag is set, [Pending]
    when the unit exists and the flag is not set. *)
Definition arrived (s : State) (i : nat) : Prop :=
  ∃ unit, deliveryUnits s !! i = Some unit ∧ GraphNode.Metadata unit = true.

Definition pending (s : State) (i : nat) : Prop :=
  ∃ unit, deliveryUnits s !! i = Some unit ∧ GraphNode.Metadata unit = false.

(** The counters of the [k]-th operation: [0] is "MoveUnit", [1] is
    "UnitReachedWarehouse". *)
Definition attempts (s : State) (k : nat) : option N :=
  Operation.A <$> operations s !! k.

Definition errors (s : State) (k : nat) : option N :=
  Operation.B <$> operations s !! k.

(** The unit on whose behalf an RPC was sent. *)
Definition rpcOf (e : Event) : option nat :=
  match e with
  | EvMoveUnit i _ _ | EvUnitReachedWarehouse i _ _ => Some i
  | _ => None
  end.

Definition isPopulate (e : Event) : bool :=
  match e with EvPopulate _ _ => true | _ => false end.

Definition isSleep (e : Event) : bool :=
  match e with EvSleep _ => true | _ => false end.

(** A task that has counted an attempt of operation [k] and has not yet got
    past the place where the error of that attempt is counted. *)
Definition attempting (k : nat) (t : Task) : bool :=
  match k, t with
  | 0%nat, (AtSendMove _ _ | AtLogMoveFailed _ _ | AtCountMoveError) => true
  | 1%nat, (AtSendReach _ _ | AtLogReachFailed _ | AtCountReachError) => true
  | _, _ => false
  end.

Definition load (k : nat) (t : Task) : N := if attempting k t then 1 else 0.

(** The number of such tasks among [ts]. *)
Definition inflight (k : nat) (ts : list (nat * Task)) : N :=
  foldr (λ it n, load k it.2 + n)%N 0%N ts.

(** The statements of the pacing update come first in a task. *)
Definition pacing (t : Task) : bool :=
  match t with AtSleep | AtDraw | AtHalve => true | _ => false end.

(** What the tasks of a round and [Run] keep true between them: no unit has
    two tasks, the positions still to be visited have none, there is no task
    outside a round, and the task of a unit that is marked is finished. *)
Record consistent (c : Config Stub World) : Prop := {
  consistent_unique : NoDup (tasks c).*1;
  consistent_spawning js : driver c = Spawning js →
                            NoDup js ∧ ∀ j, j ∈ js → j ∉ (tasks c).*1;
  consistent_idle : driver c ∈ [Counting; Leaving; Returned] → tasks c = [];
  consistent_arrived k i t : tasks c !! k = Some (i, t) →
                              arrived (shared c) i → t = Finished;
}.

(** Every error counted so far, and every one a running task may still
    count, has its attempt counted already. *)
Definition counted (c : Config Stub World) : Prop :=
  ∀ k o, operations (shared c) !! k = Some o →
         (Operation.B o + inflight k (tasks c) ≤ Operation.A o)%N.

End Notions.

(** The sleeps among [evs] last no longer than the wait of some ceiling
    between 0 and [bound]. *)
Definition sleepsWithin (bound : Z) (evs : list Event) : Prop :=
  Forall (λ e, ∀ d, e = EvSleep d → ∃ b, 0 ≤ b ≤ bound ∧ d = moveWait b) evs.

Definition populateInRange (e : Event) : Prop :=
  ∀ w u, e = EvPopulate w u → 10 ≤ w ≤ maxWarehouses ∧ 10 ≤ u ≤ maxCargoUnits.

Arguments inflight : simpl never.
Arguments load : simpl never.

(** ** Notions for the accounting of a run *)

(** The sum of [f] over a list. *)
Definition total {A : Type} (f : A → N) (l : list A) : N :=
  foldr (λ x n, (f x + n)%N) 0%N l.

(** The RPCs of operation [k] among the events ([0] is "MoveUnit", [1] is
    "UnitReachedWarehouse"): all of them, those that returned an error, and
    those that returned none. *)
Definition sentOf (k : nat) (e : Event) : N :=
  match k, e with
  | 0%nat, EvMoveUnit _ _ _ | 1%nat, EvUnitReachedWarehouse _ _ _ => 1
  | _, _ => 0
  end.

Definition failedOf (k : nat) (e : Event) : N :=
  match k, e with
  | 0%nat, EvMoveUnit _ _ (Some _)
  | 1%nat, EvUnitReachedWarehouse _ _ (Some _) => 1
  | _, _ => 0
  end.

Definition succeededOf (k : nat) (e : Event) : N :=
  match k, e with
  | 0%nat, EvMoveUnit _ _ None | 1%nat, EvUnitReachedWarehouse _ _ None => 1
  | _, _ => 0
  end.

Definition sent (k : nat) : list Event → N := total (sentOf k).
Definition failed (k : nat) : list Event → N := total (failedOf k).
Definition succeeded (k : nat) : list Event → N := total (succeededOf k).

(** The arrival report of unit [i] that returned no error, if [e] is one. *)
Definition arrivalOf (i : nat) (e : Event) : Prop :=
  ∃ req, e = EvUnitReachedWarehouse i req None.

(** The time slept, in the nanoseconds of [time.Duration]: the sum of the
    sleeps among the events. *)
Definition sleepOf (e : Event) : Z :=
  match e with EvSleep d => d | _ => 0 end.

Definition slept (evs : list Event) : Z :=
  foldr (λ e n, sleepOf e + n) 0 evs.

(** A lookup of a warehouse. *)
Definition isFind (e : Event) : bool :=
  match e with EvFindEntity _ _ => true | _ => false end.

(** Where a task stands with respect to the counters: it has counted an
    attempt of operation [k] and is about to send the RPC; its RPC of
    operation [k] has failed and the error is still to be counted; its
    arrival report went through and the unit is still to be marked. *)
Definition aboutToSend (k : nat) (t : Task) : N :=
  match k, t with
  | 0%nat, AtSendMove _ _ | 1%nat, AtSendReach _ _ => 1
  | _, _ => 0
  end.

Definition aboutToCount (k : nat) (t : Task) : N :=
  match k, t with
  | 0%nat, (AtLogMoveFailed _ _ | AtCountMoveError)
  | 1%nat, (AtLogReachFailed _ | AtCountReachError) => 1
  | _, _ => 0
  end.

Definition aboutToMark (t : Task) : N :=
  match t with AtLogReached _ | AtMark => 1 | _ => 0 end.

(** The next statement of the task sets the flag of its unit. *)
Definition marking (t : Task) : N :=
  match t with AtMark => 1 | _ => 0 end.

(** The task has drawn its value and has not halved it yet. *)
Definition aboutToHalve (t : Task) : N :=
  match t with AtHalve => 1 | _ => 0 end.

(** The movement report of the task is still ahead of it; an arrival report
    may still be ahead of it. *)
Definition moveAhead (t : Task) : N :=
  match t with
  | AtSleep | AtDraw | AtHalve | AtReadCoordinate | AtMove _ | AtLogMove _ _
  | AtCountMove _ _ | AtSendMove _ _ => 1
  | _ => 0
  end.

Definition reachAhead (t : Task) : N :=
  match t with
  | AtSleep | AtDraw | AtHalve | AtReadCoordinate | AtMove _ | AtLogMove _ _
  | AtCountMove _ _ | AtSendMove _ _ | AtFind _ | AtCountReach _ _
  | AtSendReach _ _ => 1
  | _ => 0
  end.

(** The number of tasks of a round that stand at such a place. *)
Definition among (f : Task → N) (ts : list (nat * Task)) : N :=
  total (λ it, f it.2) ts.

(** The number of units that are not marked. *)
Definition unitsPending (units : list GraphNode.t) : nat :=
  length (filter (λ u, GraphNode.Metadata u = false) units).

Section Readiness.
Context {Stub World : Type}.
Context `{!CoopLogisticsEngineAPIClient Stub} `{!WorldOperator World}.

Local Abbreviation State := (ServiceInstance Stub World).

(** What [Run] needs of the service it is called on: a connected client, the
    two operations its tasks count on, and a pacing ceiling that stays an
    [int] when every unit of the world has added one to it. *)
Definition ready (s : State) : Prop :=
  is_Some (client.api (logisticsClient s)) ∧
  (2 ≤ length (operations s))%nat ∧
  0 ≤ maxMoveWaitNumber s ∧
  maxMoveWaitNumber s + Z.of_nat (length (GetDeliveryUnit (worldOperator s)))
    < max_int.

(** Every position of the slice that [Run] or a task holds is one of a
    unit. *)
Definition indexed (c : Config Stub World) : Prop :=
  Forall (λ it, (it.1 < length (deliveryUnits (shared c)))%nat) (tasks c) ∧
  ∀ js, driver c = Spawning js →
        Forall (λ j, (j < length (deliveryUnits (shared c)))%nat) js.

(** What the process keeps of a ready service: [bound] is the ceiling [Run]
    started with; a task that has drawn and not yet halved may have raised
    the ceiling by one. *)
Record sound (bound : Z) (c : Config Stub World) : Prop := {
  sound_connected : is_Some (client.api (logisticsClient (shared c)));
  sound_operations : (2 ≤ length (operations (shared c)))%nat;
  sound_ceiling :
    0 ≤ maxMoveWaitNumber (shared c)
      ≤ bound + Z.of_N (among aboutToHalve (tasks c));
  sound_room : bound + Z.of_nat (length (deliveryUnits (shared c))) < max_int;
}.

End Readiness.

Arguments total : simpl never.
Arguments among : simpl never.
Arguments slept : simpl never.

(** ** Collaborators that fail, and the constructor at work *)

Module Construction.

(** A server that cannot be reached: the dial fails. *)
Definition unreachable : CoopLogisticsEngineAPIClient Scripted.t :=
  {| grpc_DialContext := λ _, inl "connection refused";
     stub_MoveUnit := λ st _, Scripted.nextMove st;
     stub_UnitReachedWarehouse := λ st _, Scripted.nextReach st;
     conn_Close := λ _, None |}.

(** A server that takes the movement reports and refuses every arrival
    report. *)
Definition refusing : CoopLogisticsEngineAPIClient Scripted.t :=
  {| grpc_DialContext := λ _, inr Scripted.reliable;
     stub_MoveUnit := λ st _, Scripted.nextMove st;
     stub_UnitReachedWarehouse := λ st _, (st, Some "unavailable");
     conn_Close := λ _, None |}.

(** A grid that has no room for what [Populate] asks it to hold. *)
Definition crowded : WorldOperator Grid.t :=
  {| Populate := λ w _ _, (w, Some "no room");
     GetDeliveryUnit := GetDeliveryUnit (WorldOperator := Grid.operator);
     unitCoordinate := unitCoordinate (WorldOperator := Grid.operator);
     MoveDeliveryUnitToNearestWarehouse :=
       MoveDeliveryUnitToNearestWarehouse (WorldOperator := Grid.operator);
     FindEntityByCoordinate :=
       FindEntityByCoordinate (WorldOperator := Grid.operator) |}.

(** A grid with a warehouse and no unit. *)
Definition idle : Grid.t :=
  {| Grid.warehouses := [ (Scenario.node 1 "W1", Scenario.at_ 0 0) ];
     Grid.units := [] |}.

(** The constructor on a fresh client, with a generator that draws the least
    counts, over a transport and a world operator. *)
Definition generator : Rand := {| raw := λ _, 0; cursor := 0 |}.

Definition outcome (transport : CoopLogisticsEngineAPIClient Scripted.t)
    (operator : WorldOperator Grid.t)
  : option (list Event * (error + ServiceInstance Scripted.t Grid.t)) :=
  @NewServiceInstance Scripted.t Grid.t transport operator
    client.NewLogisticsClient Scenario.world generator 0.

(** The service that it returns over the reliable transport and the grid. *)
Definition built : ServiceInstance Scripted.t Grid.t :=
  match outcome (Scripted.stub Scripted.reliable) Grid.operator with
  | Some (_, inr s) => s
  | _ => Scenario.service Scripted.reliable
  end.

(** The scenario of the three units after five rounds with the server that
    refuses the arrival reports. *)
Definition refused : ServiceInstance Scripted.t Grid.t :=
  default (Scenario.entering Scripted.reliable)
    (@afterRounds Scripted.t Grid.t refusing Grid.operator 5
       (Scenario.entering Scripted.reliable)).

End Construction.

Arguments Construction.built : simpl never.
Arguments Construction.refused : simpl never.

(** ** Proof automation *)

(** Unfolds the statements of [processDelivery] so that the answers of the
    collaborators can be rewritten in, one after the other. *)
Ltac setters :=
  unfold emit, set_logisticsClient, set_worldOperator, set_maxMoveWaitNumber,
    set_reportTable, set_Operation, set_deliveryUnits, set_rng, sleepMoveWait,
    halveWait, markReached in *;
  simpl in *.

Ltac task_statements :=
  unfold processDelivery, drawWait, moveToNearest, findWarehouse, addA, addB,
    sendMoveUnit, sendUnitReachedWarehouse, client.MoveUnit,
    client.UnitReachedWarehouse, pending, arrived, operations in *;
  setters.

Ltac task_trace := simpl; rewrite <- ?app_assoc; simpl; try done.

(** Refutes the membership [H] of an event in a list of events of other kinds. *)
Ltac not_among H :=
  repeat (apply elem_of_cons in H as [H|H]; [discriminate H|]);
  by apply elem_of_nil in H.

(** Splits a statement of a task, given as the hypothesis [H], into its cases. *)
Ltac step_cases H :=
  simpl in H;
  unfold drawWait, moveToNearest, findWarehouse, addA, addB, sendMoveUnit,
    sendUnitReachedWarehouse, client.MoveUnit, client.UnitReachedWarehouse,
    operations in H;
  setters;
  repeat (first [ progress simplify_option_eq | case_match ]).

(** Runs the next statement of a task whose state is a record of variables,
    rewriting with the answers of the collaborators found among the
    hypotheses. *)
Ltac next_statement :=
  eapply taskRun_step;
  [ unfold taskStep, drawWait, moveToNearest, findWarehouse, addA, addB,
      sendMoveUnit, sendUnitReachedWarehouse, client.MoveUnit,
      client.UnitReachedWarehouse, operations; setters;
    repeat match goal with
           | H : ?x = Some _ |- context [?x] => rewrite H; simpl
           | H : ?x = (_, _) |- context [?x] => rewrite H; simpl
           end;
    reflexivity
  | ].

(** Unfolds the sums over events and tasks. *)
Ltac tally := unfold sent, failed, succeeded, among, total in *; simpl in *.

(** The cases of a step of the process. *)
Ltac step_kinds H :=
  destruct H as [s Hall|s Hall|j js ts s unit Hj Hflag|j js ts s unit Hj Hflag
                |ts s|d n ts s i t t' s' Hn Hstep|ts s Hfin|now s].

(** * Properties *)

(** ** Machine integers and the random generator *)

Lemma wrap_int_id z : min_int ≤ z ≤ max_int → wrap_int z = z.
Proof.
  unfold min_int, max_int, wrap_int. intros Hz.
  rewrite Z.mod_small by lia. lia.
Qed.

Lemma rand_Intn_Some g n :
  0 < n →
  rand_Intn g n = Some (raw g (cursor g) mod n,
                        {| raw := raw g; cursor := S (cursor g) |}).
Proof. intros Hn. unfold rand_Intn. rewrite bool_decide_eq_false_2 by lia. done. Qed.

Lemma rand_Intn_None g n : n ≤ 0 → rand_Intn g n = None.
Proof. intros Hn. unfold rand_Intn. by rewrite bool_decide_eq_true_2. Qed.

Lemma rand_Intn_range g n r g' :
  rand_Intn g n = Some (r, g') → 0 < n ∧ 0 ≤ r < n.
Proof.
  unfold rand_Intn. case_bool_decide; [done|]. intros [= <- <-].
  split; [lia|]. apply Z.mod_pos_bound. lia.
Qed.

(** Every value of the interval is one the generator can return. *)
Lemma rand_Intn_onto n r :
  0 ≤ r < n → ∃ g g', rand_Intn g n = Some (r, g').
Proof.
  intros Hr. exists {| raw := λ _, r; cursor := 0 |}. eexists.
  rewrite rand_Intn_Some by lia. simpl. by rewrite Z.mod_small.
Qed.

(** ** The pacing ceiling *)

Lemma drawMoveWaitNumber_Some g c :
  0 ≤ c < max_int →
  drawMoveWaitNumber g c
  = Some (raw g (cursor g) mod (c + 1) + 1,
          {| raw := raw g; cursor := S (cursor g) |}).
Proof.
  intros Hc. unfold drawMoveWaitNumber, int_add.
  assert (Hm : max_int = 2 ^ 63 - 1) by done.
  assert (Hn : min_int = - 2 ^ 63) by done.
  rewrite (wrap_int_id (c + 1)) by lia.
  rewrite rand_Intn_Some by lia. simpl.
  pose proof (Z.mod_pos_bound (raw g (cursor g)) (c + 1)).
  rewrite wrap_int_id by lia. done.
Qed.

Lemma halveMoveWaitNumber_div d : 1 ≤ d → halveMoveWaitNumber d = d `div` 2.
Proof.
  intros Hd. unfold halveMoveWaitNumber. rewrite bool_decide_eq_true_2 by done.
  by rewrite Z.shiftr_div_pow2.
Qed.

Lemma nextMoveWaitNumber_Some g c :
  0 ≤ c < max_int →
  nextMoveWaitNumber g c
  = Some ((raw g (cursor g) mod (c + 1) + 1) `div` 2,
          {| raw := raw g; cursor := S (cursor g) |}).
Proof.
  intros Hc. unfold nextMoveWaitNumber. rewrite drawMoveWaitNumber_Some by done.
  simpl. rewrite halveMoveWaitNumber_div; [done|].
  pose proof (Z.mod_pos_bound (raw g (cursor g)) (c + 1)). lia.
Qed.

(** The update panics exactly on the ceilings from which [c + 1] is not a
    positive [int]. *)
Lemma nextMoveWaitNumber_None g c :
  min_int ≤ c ≤ max_int → ¬ (0 ≤ c < max_int) → nextMoveWaitNumber g c = None.
Proof.
  intros Hr Hc. unfold nextMoveWaitNumber, drawMoveWaitNumber, int_add.
  assert (Hm : max_int = 2 ^ 63 - 1) by done.
  assert (Hn : min_int = - 2 ^ 63) by done.
  destruct (decide (c = max_int)) as [->|].
  - rewrite rand_Intn_None; [done|]. by vm_compute.
  - rewrite (wrap_int_id (c + 1)) by lia. rewrite rand_Intn_None; [done|lia].
Qed.

Lemma nextMoveWaitNumber_bounds g c c' g' :
  0 ≤ c < max_int → nextMoveWaitNumber g c = Some (c', g') → 0 ≤ c' ≤ c.
Proof.
  intros Hc. rewrite nextMoveWaitNumber_Some by done. intros [= <- _].
  pose proof (Z.mod_pos_bound (raw g (cursor g)) (c + 1)).
  split.
  - apply Z.div_pos; lia.
  - apply Z.lt_succ_r, Z.div_lt_upper_bound; lia.
Qed.

(** C2, as claimed, fails: from the ceiling 1 the generator may return 1, the
    drawn value is then 2, outside [1, 1], and the new ceiling is 1, which is
    not the half of any value of [1, 1]. *)
Lemma pacing_draw_exceeds_ceiling :
  drawMoveWaitNumber {| raw := λ _, 1; cursor := 0 |} 1
    = Some (2, {| raw := λ _, 1; cursor := 1 |}) ∧
  nextMoveWaitNumber {| raw := λ _, 1; cursor := 0 |} 1
    = Some (1, {| raw := λ _, 1; cursor := 1 |}) ∧
  (∀ d, 1 ≤ d ≤ 1 → d `div` 2 ≠ 1).
Proof.
  split; [done|]. split; [done|].
  intros d Hd. assert (d = 1) as -> by lia. done.
Qed.

(** C2 (amended): for every ceiling [c] the engine can hold, one pacing
    update takes the value [r] that [rand.Intn(c+1)] returns, a value of
    [0, c], draws [d = r + 1], a value of [1, c + 1], and stores the floor of
    [d / 2]; so the new ceiling lies in {floor(d/2) : 1 <= d <= c + 1}, and
    every [d] of that range is drawn for exactly the generator output [d - 1]. *)
Theorem pacing_update_range (c : Z) :
  0 ≤ c < max_int →
  (∀ g, ∃ r d g',
      rand_Intn g (c + 1) = Some (r, g') ∧ 0 ≤ r ≤ c ∧
      d = r + 1 ∧ 1 ≤ d ≤ c + 1 ∧
      drawMoveWaitNumber g c = Some (d, g') ∧
      nextMoveWaitNumber g c = Some (d `div` 2, g')) ∧
  (∀ d, 1 ≤ d ≤ c + 1 →
      ∃ g g', rand_Intn g (c + 1) = Some (d - 1, g') ∧
              drawMoveWaitNumber g c = Some (d, g') ∧
              nextMoveWaitNumber g c = Some (d `div` 2, g')).
Proof.
  intros Hc. split.
  - intros g. pose proof (Z.mod_pos_bound (raw g (cursor g)) (c + 1)).
    eexists _, _, _. rewrite rand_Intn_Some by lia.
    rewrite drawMoveWaitNumber_Some, nextMoveWaitNumber_Some by done.
    repeat split; lia.
  - intros d Hd. exists {| raw := λ _, d - 1; cursor := 0 |}. eexists.
    rewrite rand_Intn_Some by lia.
    rewrite drawMoveWaitNumber_Some, nextMoveWaitNumber_Some by done. simpl.
    rewrite Z.mod_small by lia. replace (d - 1 + 1) with d by lia. done.
Qed.

Lemma pacing_update_range_witness :
  (0 ≤ 100 < max_int) ∧
  ∃ r d g',
    rand_Intn Scenario.generator (100 + 1) = Some (r, g') ∧ 0 ≤ r ≤ 100 ∧
    d = r + 1 ∧ 1 ≤ d ≤ 100 + 1 ∧
    drawMoveWaitNumber Scenario.generator 100 = Some (d, g') ∧
    nextMoveWaitNumber Scenario.generator 100 = Some (d `div` 2, g').
Proof.
  assert (H : 0 ≤ 100 < max_int) by (by vm_compute).
  split; [exact H|]. apply (proj1 (pacing_update_range 100 H)).
Defined.

(** ** The delivery task, path by path *)

Section TaskFacts.
Context {Stub World : Type}.
Context `{!CoopLogisticsEngineAPIClient Stub} `{!WorldOperator World}.
Implicit Types s : ServiceInstance Stub World.

(** The second loop of a round, at one position of the slice. *)
Lemma fanOut_pending j js s :
  pending s j → fanOut (j :: js) s = processDelivery j s ≫= fanOut js.
Proof. intros (unit & Hunit & Hflag). simpl. rewrite Hunit. simpl. by rewrite Hflag. Qed.

Lemma fanOut_arrived j js s : arrived s j → fanOut (j :: js) s = fanOut js s.
Proof. intros (unit & Hunit & Hflag). simpl. rewrite Hunit. simpl. by rewrite Hflag. Qed.

(** A unit that moved stays as it was: the task returns after the movement
    report. *)
Lemma moved_unit_returns i s unit stub o0 o1 w1 new stub1 :
  deliveryUnits s !! i = Some unit →
  client.api (logisticsClient s) = Some stub →
  operations s = [o0; o1] →
  0 ≤ maxMoveWaitNumber s < max_int →
  MoveDeliveryUnitToNearestWarehouse (worldOperator s) (GraphNode.ID unit) = (w1, new) →
  new ≠ unitCoordinate (worldOperator s) i →
  stub_MoveUnit stub (moveUnitRequest unit new) = (stub1, None) →
  ∃ s', processDelivery i s = Some s' ∧
    operations s' = [Operation.AddA o0; o1] ∧
    deliveryUnits s' = deliveryUnits s ∧
    worldOperator s' = w1 ∧
    trace s' = trace s ++
      [EvSleep (moveWait (maxMoveWaitNumber s));
       EvMoveToNearest (GraphNode.ID unit);
       EvLog (unitMessage unit new);
       EvMoveUnit i (moveUnitRequest unit new) None].
Proof.
  intros Hunit Hapi Hops Hc Hmove Hnew Hrpc. task_statements.
  rewrite Hunit. simpl. rewrite drawMoveWaitNumber_Some by done. simpl.
  rewrite Hmove. simpl. rewrite Hops. simpl. rewrite Hapi. simpl. rewrite Hrpc. simpl.
  rewrite bool_decide_eq_true_2 by done.
  eexists. split; [done|]. repeat split; task_trace.
Qed.

(** C4: when the movement report of a Pending unit fails, the task counts the
    attempt and the error of "MoveUnit" and returns; the unit is still
    Pending, the world is as the move left it (nothing is rolled back), and
    the trace of the task has no warehouse lookup and no arrival report. *)
Theorem move_report_failure i s unit stub o0 o1 w1 new stub1 e :
  deliveryUnits s !! i = Some unit →
  GraphNode.Metadata unit = false →
  client.api (logisticsClient s) = Some stub →
  operations s = [o0; o1] →
  0 ≤ maxMoveWaitNumber s < max_int →
  MoveDeliveryUnitToNearestWarehouse (worldOperator s) (GraphNode.ID unit) = (w1, new) →
  stub_MoveUnit stub (moveUnitRequest unit new) = (stub1, Some e) →
  ∃ s', processDelivery i s = Some s' ∧
    operations s' = [Operation.AddB (Operation.AddA o0); o1] ∧
    deliveryUnits s' = deliveryUnits s ∧
    pending s' i ∧
    worldOperator s' = w1 ∧
    trace s' = trace s ++
      [EvSleep (moveWait (maxMoveWaitNumber s));
       EvMoveToNearest (GraphNode.ID unit);
       EvLog (unitMessage unit new);
       EvMoveUnit i (moveUnitRequest unit new) (Some e);
       EvLog ("filed to send MoveUnit " +:+ unitMessage unit new
                +:+ ", API error: " +:+ e)].
Proof.
  intros Hunit Hflag Hapi Hops Hc Hmove Hrpc. task_statements.
  rewrite Hunit. simpl. rewrite drawMoveWaitNumber_Some by done. simpl.
  rewrite Hmove. simpl. rewrite Hops. simpl. rewrite Hapi. simpl. rewrite Hrpc. simpl.
  eexists. split; [done|]. repeat split; task_trace. by exists unit.
Qed.

(** C3: a Pending unit did not move, its movement report went through, and
    the world finds a warehouse where it stands: the task counts an attempt of
    "UnitReachedWarehouse" and sends the arrival report.  If the report
    fails, the error is counted and the unit stays Pending, so the fan-out of
    the next round runs its task again; if it succeeds, the unit is marked
    Arrived. *)
Theorem arrival_report i s unit stub o0 o1 here w1 stub1 w2 warehouse stub2 reachErr :
  deliveryUnits s !! i = Some unit →
  GraphNode.Metadata unit = false →
  client.api (logisticsClient s) = Some stub →
  operations s = [o0; o1] →
  0 ≤ maxMoveWaitNumber s < max_int →
  unitCoordinate (worldOperator s) i = here →
  MoveDeliveryUnitToNearestWarehouse (worldOperator s) (GraphNode.ID unit) = (w1, here) →
  stub_MoveUnit stub (moveUnitRequest unit here) = (stub1, None) →
  FindEntityByCoordinate w1 here Warehouses = (w2, Some warehouse) →
  stub_UnitReachedWarehouse stub1 (unitReachedWarehouseRequest unit warehouse here)
    = (stub2, reachErr) →
  ∃ s' line, processDelivery i s = Some s' ∧
    attempts s' 1 = Some (N.succ (Operation.A o1)) ∧
    trace s' = trace s ++
      [EvSleep (moveWait (maxMoveWaitNumber s));
       EvMoveToNearest (GraphNode.ID unit);
       EvLog (unitMessage unit here);
       EvMoveUnit i (moveUnitRequest unit here) None;
       EvFindEntity here Warehouses;
       EvUnitReachedWarehouse i (unitReachedWarehouseRequest unit warehouse here) reachErr;
       EvLog line] ∧
    match reachErr with
    | Some _ =>
        operations s' = [Operation.AddA o0; Operation.AddB (Operation.AddA o1)] ∧
        deliveryUnits s' = deliveryUnits s ∧ pending s' i ∧
        (∀ js, fanOut (i :: js) s' = processDelivery i s' ≫= fanOut js)
    | None =>
        operations s' = [Operation.AddA o0; Operation.AddA o1] ∧
        deliveryUnits s' = alter GraphNode.reach i (deliveryUnits s) ∧ arrived s' i
    end.
Proof.
  intros Hunit Hflag Hapi Hops Hc <- Hmove Hrpc Hfind Hreach.
  cut (∃ s' line, processDelivery i s = Some s' ∧
         attempts s' 1 = Some (N.succ (Operation.A o1)) ∧
         trace s' = trace s ++
           [EvSleep (moveWait (maxMoveWaitNumber s));
            EvMoveToNearest (GraphNode.ID unit);
            EvLog (unitMessage unit (unitCoordinate (worldOperator s) i));
            EvMoveUnit i (moveUnitRequest unit (unitCoordinate (worldOperator s) i)) None;
            EvFindEntity (unitCoordinate (worldOperator s) i) Warehouses;
            EvUnitReachedWarehouse i
              (unitReachedWarehouseRequest unit warehouse
                 (unitCoordinate (worldOperator s) i)) reachErr;
            EvLog line] ∧
         match reachErr with
         | Some _ =>
             operations s' = [Operation.AddA o0; Operation.AddB (Operation.AddA o1)] ∧
             deliveryUnits s' = deliveryUnits s ∧ pending s' i
         | None =>
             operations s' = [Operation.AddA o0; Operation.AddA o1] ∧
             deliveryUnits s' = alter GraphNode.reach i (deliveryUnits s) ∧ arrived s' i
         end).
  { intros (s' & line & Hrun & Hcount & Htrace & Hcase). exists s', line.
    repeat split; try done. destruct reachErr; [|done].
    destruct Hcase as (? & ? & ?). repeat split; try done.
    intros js. by apply fanOut_pending. }
  task_statements.
  rewrite Hunit. simpl. rewrite drawMoveWaitNumber_Some by done. simpl.
  rewrite Hmove. simpl. rewrite Hops. simpl. rewrite Hapi. simpl. rewrite Hrpc. simpl.
  rewrite bool_decide_eq_false_2 by (intros Hne; by apply Hne).
  rewrite Hfind. simpl. rewrite Hreach. simpl.
  destruct reachErr as [e|]; simpl.
  - eexists _, _. split; [done|]. repeat split; task_trace. by exists unit.
  - eexists _, _. split; [done|]. repeat split; task_trace.
    exists (GraphNode.reach unit). split; [|done].
    rewrite list_lookup_alter_eq, Hunit. done.
Qed.

(** C5: a Pending unit did not move and the world finds no warehouse where
    it stands: whatever the movement report returned, the task returns with
    the counters of "UnitReachedWarehouse" and the status of every unit
    unchanged, the unit still Pending, and without an arrival report; when
    the movement report went through, the lookup is logged and no error is
    counted at all. *)
Theorem no_warehouse_no_report i s unit stub o0 o1 here w1 stub1 moveErr w2 :
  deliveryUnits s !! i = Some unit →
  GraphNode.Metadata unit = false →
  client.api (logisticsClient s) = Some stub →
  operations s = [o0; o1] →
  0 ≤ maxMoveWaitNumber s < max_int →
  unitCoordinate (worldOperator s) i = here →
  MoveDeliveryUnitToNearestWarehouse (worldOperator s) (GraphNode.ID unit) = (w1, here) →
  stub_MoveUnit stub (moveUnitRequest unit here) = (stub1, moveErr) →
  FindEntityByCoordinate w1 here Warehouses = (w2, None) →
  ∃ s' evs, processDelivery i s = Some s' ∧
    operations s' !! 1%nat = Some o1 ∧
    deliveryUnits s' = deliveryUnits s ∧
    pending s' i ∧
    trace s' = trace s ++ evs ∧
    (∀ j req err, EvUnitReachedWarehouse j req err ∉ evs) ∧
    (moveErr = None →
       operations s' = [Operation.AddA o0; o1] ∧
       evs = [EvSleep (moveWait (maxMoveWaitNumber s));
              EvMoveToNearest (GraphNode.ID unit);
              EvLog (unitMessage unit here);
              EvMoveUnit i (moveUnitRequest unit here) None;
              EvFindEntity here Warehouses;
              EvLog ("Warehouses not found in coordinates X:"
                       +:+ pretty (Coordinate.X here)
                       +:+ " Y:" +:+ pretty (Coordinate.Y here))]).
Proof.
  intros Hunit Hflag Hapi Hops Hc <- Hmove Hrpc Hfind. task_statements.
  rewrite Hunit. simpl. rewrite drawMoveWaitNumber_Some by done. simpl.
  rewrite Hmove. simpl. rewrite Hops. simpl. rewrite Hapi. simpl. rewrite Hrpc. simpl.
  destruct moveErr as [e|]; simpl.
  - eexists _, _. split; [done|]. split_and!; task_trace.
    + by exists unit.
    + intros j req err Hin. not_among Hin.
  - rewrite bool_decide_eq_false_2 by (intros Hne; by apply Hne).
    rewrite Hfind. simpl.
    eexists _, _. split; [done|]. split_and!; task_trace.
    + by exists unit.
    + intros j req err Hin. not_among Hin.
Qed.

End TaskFacts.

(** The theorems at work: a failing movement report for U1 of the scenario; a
    failing arrival report for a unit that stands at its warehouse; a unit
    that stands in a world without warehouses. *)
Lemma move_report_failure_witness :
  ∃ s', Scenario.task Scenario.moveFails 0 (Scenario.entering Scenario.moveFails) = Some s' ∧
    attempts s' 0 = Some 1%N ∧ errors s' 0 = Some 1%N ∧
    attempts s' 1 = Some 0%N ∧ pending s' 0 ∧
    unitCoordinate (worldOperator s') 0 = Scenario.at_ 0 0.
Proof.
  edestruct (@move_report_failure Scripted.t Grid.t
               (Scripted.stub Scenario.moveFails) Grid.operator
               0 (Scenario.entering Scenario.moveFails))
    as (s' & Hrun & Hops & Hunits & Hpend & Hworld & Htrace);
    [reflexivity | reflexivity | reflexivity | reflexivity | by vm_compute
    | reflexivity | reflexivity |].
  exists s'. unfold attempts, errors. rewrite Hops, Hworld.
  split; [exact Hrun|]. by repeat split.
Defined.

Lemma arrival_report_witness :
  ∃ s', Scenario.task Scenario.reachFails 0
          (Scenario.enteringOver Scenario.atTheDoor Scenario.reachFails) = Some s' ∧
    attempts s' 1 = Some 1%N ∧ errors s' 1 = Some 1%N ∧ pending s' 0.
Proof.
  edestruct (@arrival_report Scripted.t Grid.t
               (Scripted.stub Scenario.reachFails) Grid.operator
               0 (Scenario.enteringOver Scenario.atTheDoor Scenario.reachFails))
    as (s' & line & Hrun & Hcount & Htrace & Hcase);
    [reflexivity | reflexivity | reflexivity | reflexivity | by vm_compute
    | reflexivity | reflexivity | reflexivity | reflexivity | reflexivity |].
  destruct Hcase as (Hops & Hunits & Hpend & Hfan).
  exists s'. unfold errors. rewrite Hops.
  split; [exact Hrun|]. by repeat split.
Defined.

Lemma no_warehouse_no_report_witness :
  ∃ s', Scenario.task Scripted.reliable 0
          (Scenario.enteringOver Scenario.stranded Scripted.reliable) = Some s' ∧
    attempts s' 0 = Some 1%N ∧ errors s' 0 = Some 0%N ∧
    attempts s' 1 = Some 0%N ∧ errors s' 1 = Some 0%N ∧ pending s' 0.
Proof.
  edestruct (@no_warehouse_no_report Scripted.t Grid.t
               (Scripted.stub Scripted.reliable) Grid.operator
               0 (Scenario.enteringOver Scenario.stranded Scripted.reliable))
    as (s' & evs & Hrun & Hreach & Hunits & Hpend & Htrace & Hnone & Hmoved);
    [reflexivity | reflexivity | reflexivity | reflexivity | by vm_compute
    | reflexivity | reflexivity | reflexivity | reflexivity |].
  destruct (Hmoved eq_refl) as [Hops _].
  exists s'. unfold attempts, errors. rewrite Hops.
  split; [exact Hrun|]. by repeat split.
Defined.

(** ** The statements of a task *)

Section StepFacts.
Context {Stub World : Type}.
Context `{!CoopLogisticsEngineAPIClient Stub} `{!WorldOperator World}.
Implicit Types s : ServiceInstance Stub World.

Lemma taskStep_live i t s t' s' : taskStep i t s = Some (t', s') → t ≠ Finished.
Proof. by destruct t. Qed.

(** Only the last statement touches the units: it marks the task's own. *)
Lemma taskStep_units i t s t' s' :
  taskStep i t s = Some (t', s') →
  deliveryUnits s' = deliveryUnits s ∨
  (t = AtMark ∧ t' = Finished ∧
   deliveryUnits s' = alter GraphNode.reach i (deliveryUnits s)).
Proof. intros Hstep. destruct t; step_cases Hstep; auto. Qed.

(** A statement adds at most one event; it is never a call of [Populate], and
    an RPC it sends is sent for the task's own unit. *)
Lemma taskStep_trace i t s t' s' :
  taskStep i t s = Some (t', s') →
  ∃ evs, trace s' = trace s ++ evs ∧
    Forall (λ e, isPopulate e = false ∧ ∀ j, rpcOf e = Some j → j = i) evs.
Proof.
  intros Hstep.
  destruct t; step_cases Hstep;
    first [ by exists []; rewrite app_nil_r
          | eexists [_]; split; [done|]; repeat constructor; simpl; congruence ].
Qed.

(** The only sleep of a task is its first statement. *)
Lemma taskStep_sleep i t s t' s' :
  taskStep i t s = Some (t', s') →
  ∃ evs, trace s' = trace s ++ evs ∧
    Forall (λ e, isSleep e = true →
                 t = AtSleep ∧ e = EvSleep (moveWait (maxMoveWaitNumber s))) evs.
Proof.
  intros Hstep.
  destruct t; step_cases Hstep;
    first [ by exists []; rewrite app_nil_r
          | eexists [_]; split; [done|]; repeat constructor; simpl; done ].
Qed.

(** Past the pacing update a task leaves the ceiling and the generator alone. *)
Lemma taskStep_pacing i t s t' s' :
  taskStep i t s = Some (t', s') → pacing t = false →
  pacing t' = false ∧
  maxMoveWaitNumber s' = maxMoveWaitNumber s ∧ rng s' = rng s.
Proof. intros Hstep Hpast. destruct t; step_cases Hstep; done. Qed.

Lemma taskRun_pacing i t s t' s' :
  taskRun i t s t' s' → pacing t = false →
  maxMoveWaitNumber s' = maxMoveWaitNumber s ∧ rng s' = rng s.
Proof.
  induction 1 as [|t s t1 s1 t2 s2 Hstep _ IH]; [done|]. intros Hpast.
  destruct (taskStep_pacing _ _ _ _ _ Hstep Hpast) as (Hpast1 & <- & <-). auto.
Qed.

(** What a statement does to the counters of operation [k]: whatever it adds
    to the errors, or to the obligation to count one, it has added to the
    attempts or takes from such an obligation. *)
Lemma taskStep_counters i t s t' s' k o' :
  taskStep i t s = Some (t', s') →
  operations s' !! k = Some o' →
  ∃ o, operations s !! k = Some o ∧
    (Operation.B o' + load k t' + Operation.A o
       ≤ Operation.B o + load k t + Operation.A o')%N.
Proof.
  intros Hstep Hk.
  destruct t; step_cases Hstep; unfold operations in *; simpl in *;
    try (exists o'; split; [done|]; destruct k as [|[|k]]; unfold load; simpl; lia).
  all: destruct k as [|[|k]]; simpl in *;
    repeat match goal with
           | H : <[_:=_]> ?l !! _ = Some _ |- _ =>
               first [ rewrite list_lookup_insert_ne in H by done
                     | rewrite list_lookup_insert_eq in H
                         by (eapply lookup_lt_Some; eassumption) ]
           end;
    simplify_eq; eexists; (split; [eassumption|]); unfold load; simpl; lia.
Qed.

(** The errors of operation [k] move only at a point reached through the
    statement that counts its attempt. *)
Lemma taskStep_errors i t s t' s' k :
  taskStep i t s = Some (t', s') →
  (errors s' k ≠ errors s k → attempting k t = true) ∧
  (attempting k t' = true →
     attempting k t = true ∨ attempts s' k = N.succ <$> attempts s k).
Proof.
  intros Hstep. unfold errors, attempts.
  destruct t; step_cases Hstep; unfold operations; simpl;
    try (split; [done|]; destruct k as [|[|k]]; simpl; auto; done).
  all: destruct k as [|[|k]]; simpl;
    rewrite ?list_lookup_insert_ne by done;
    rewrite ?list_lookup_insert_eq by (eapply lookup_lt_Some; eassumption);
    repeat match goal with H : _ !! _ = Some _ |- _ => rewrite H end;
    simpl; auto.
Qed.

(** [processDelivery] is the run of the task from its first statement to
    its return. *)
Lemma processDelivery_taskRun i s s' :
  processDelivery i s = Some s' → taskRun i AtSleep s Finished s'.
Proof.
  destruct s as [lc w c tbl [et ops] us g tr].
  task_statements.
  destruct (us !! i) as [unit|] eqn:Hunit; simpl; [|done].
  destruct (drawMoveWaitNumber g c) as [[d g1]|] eqn:Hdraw; simpl; [|done].
  destruct (MoveDeliveryUnitToNearestWarehouse w (GraphNode.ID unit))
    as [w1 new] eqn:Hmove. simpl.
  destruct (ops !! 0%nat) as [o0|] eqn:Ho0; simpl; [|done].
  destruct (client.api lc) as [stub|] eqn:Hapi; simpl; [|done].
  destruct (stub_MoveUnit stub (moveUnitRequest unit new)) as [stub1 moveErr] eqn:Hrpc.
  setters. intros Hrest.
  do 7 next_statement.
  destruct moveErr as [e|]; setters.
  - do 3 next_statement. constructor.
  - next_statement. case_bool_decide; setters.
    { simplify_eq. constructor. }
    destruct (FindEntityByCoordinate w1 new Warehouses) as [w2 found] eqn:Hfind.
    next_statement.
    destruct found as [warehouse|]; setters.
    + destruct (_ !! 1%nat) as [o1|] eqn:Ho1 in Hrest; setters; [|done].
      destruct (stub_UnitReachedWarehouse stub1 _) as [stub2 reachErr] eqn:Hreach.
      next_statement.
      destruct reachErr as [e|]; setters.
      * do 3 next_statement. constructor.
      * simplify_eq. do 3 next_statement. constructor.
    + simplify_eq. next_statement. constructor.
Qed.

End StepFacts.

(** ** [Run] and its tasks, step by step *)

Section ProcessFacts.
Context {Stub World : Type}.
Context `{!CoopLogisticsEngineAPIClient Stub} `{!WorldOperator World}.
Implicit Types s : ServiceInstance Stub World.
Implicit Types c : Config Stub World.
Implicit Types ts : list (nat * Task).

(** *** The report *)

Lemma foldl_rows (ops : list Operation.t) s :
  foldl (λ s o, set_reportTable
                  (ASCIITablePrinter.AddRow (reportRow o) (reportTable s)) s) s ops
  = set_reportTable
      {| ASCIITablePrinter.header := ASCIITablePrinter.header (reportTable s);
         ASCIITablePrinter.rows :=
           ASCIITablePrinter.rows (reportTable s) ++ (reportRow <$> ops) |} s.
Proof.
  revert s. induction ops as [|o ops IH]; intros s; simpl.
  - destruct s as [lc w c tbl st us g tr], tbl as [h rs].
    unfold set_reportTable. simpl. by rewrite app_nil_r.
  - rewrite IH. unfold set_reportTable, ASCIITablePrinter.AddRow. simpl.
    by rewrite <- app_assoc.
Qed.

Lemma report_eq now s :
  report now s
  = let table :=
      {| ASCIITablePrinter.header := ASCIITablePrinter.header (reportTable s);
         ASCIITablePrinter.rows :=
           ASCIITablePrinter.rows (reportTable s) ++ (reportRow <$> operations s) |} in
    emit (EvPrintTable table)
      (emit (EvPrintExecTime (time_Since now (Statistics.ExecTime (statistics s))))
         (set_reportTable table s)).
Proof. unfold report. by rewrite foldl_rows. Qed.

(** *** Counting the tasks that owe an error *)

Lemma inflight_app k ts ts' :
  inflight k (ts ++ ts') = (inflight k ts + inflight k ts')%N.
Proof. unfold inflight. induction ts as [|it ts IH]; simpl; lia. Qed.

Lemma inflight_insert k ts n i t t' :
  ts !! n = Some (i, t) →
  (inflight k (<[n:=(i, t')]> ts) + load k t = inflight k ts + load k t')%N.
Proof.
  unfold inflight. revert n. induction ts as [|it ts IH]; intros [|n] Hn;
    simplify_eq/=; [lia|]. specialize (IH _ Hn). lia.
Qed.

Lemma arrived_alter s i j :
  arrived s j →
  arrived (set_deliveryUnits (alter GraphNode.reach i (deliveryUnits s)) s) j.
Proof.
  intros (unit & Hunit & Hflag). unfold arrived. simpl.
  destruct (decide (i = j)) as [->|Hne].
  - exists (GraphNode.reach unit). by rewrite list_lookup_alter_eq, Hunit.
  - exists unit. by rewrite list_lookup_alter_ne.
Qed.

Lemma taskStep_arrived i t s t' s' j :
  taskStep i t s = Some (t', s') → arrived s j → arrived s' j.
Proof.
  intros Hstep Harr. destruct (taskStep_units _ _ _ _ _ Hstep) as [Heq|(_ & _ & Heq)];
    unfold arrived in *; rewrite Heq; [done|].
  by apply (arrived_alter s i j).
Qed.

Lemma step_arrived c c' m :
  step c c' → arrived (shared c) m → arrived (shared c') m.
Proof.
  destruct 1 as [s Hall|s Hall|j js ts s unit Hj Hflag|j js ts s unit Hj Hflag|ts s|d n ts s i t t' s' Hn Hstep|ts s Hfin|now s]; simpl; try done.
  - by eapply taskStep_arrived.
  - rewrite report_eq. done.
Qed.

Lemma step_counted c c' : step c c' → counted c → counted c'.
Proof.
  destruct 1 as [s Hall|s Hall|j js ts s unit Hj Hflag|j js ts s unit Hj Hflag|ts s|d n ts s i t t' s' Hn Hstep|ts s Hfin|now s];
    unfold counted; simpl; intros Hinv k o Hk; try by apply Hinv.
  - rewrite inflight_app. specialize (Hinv k o Hk). unfold inflight at 2, load.
    simpl. destruct k as [|[|k]]; simpl; lia.
  - destruct (taskStep_counters _ _ _ _ _ k o Hstep Hk) as (o0 & Hk0 & Hle).
    specialize (Hinv k o0 Hk0).
    pose proof (inflight_insert k ts _ _ _ t' Hn). lia.
  - specialize (Hinv k o Hk). unfold inflight. simpl. lia.
  - rewrite report_eq in Hk. by apply Hinv.
Qed.


Lemma not_arrived_pending s j unit :
  deliveryUnits s !! j = Some unit → GraphNode.Metadata unit = false → ¬ arrived s j.
Proof. intros Hj Hflag (unit' & Hj' & Hflag'). congruence. Qed.

Lemma tasks_insert_units ts n i t t' :
  ts !! n = Some (i, t) → (<[n:=(i, t')]> ts).*1 = ts.*1.
Proof.
  intros Hn. rewrite list_fmap_insert. simpl. apply list_insert_id.
  by rewrite list_lookup_fmap, Hn.
Qed.

Lemma step_consistent c c' : step c c' → consistent c → consistent c'.
Proof.
  destruct 1 as [s Hall|s Hall|j js ts s unit Hj Hflag|j js ts s unit Hj Hflag
                |ts s|d n ts s i t t' s' Hn Hstep|ts s Hfin|now s];
    intros [Huniq Hspawn Hidle Harr]; simpl in *.
  - split; simpl; [apply NoDup_nil_2|done|done|by intros ? ? ? [=]].
  - split; simpl; [apply NoDup_nil_2| |done|by intros ? ? ? [=]].
    intros js [= <-]. split; [apply NoDup_seq|]. by intros j _ ?%elem_of_nil.
  - destruct (Hspawn _ eq_refl) as [Hnd Hfresh].
    apply NoDup_cons in Hnd as [Hj' Hnd].
    split; simpl; [done| |(intros Hd; not_among Hd)|done].
    intros js' [= <-]. split; [done|]. intros j' Hj''. apply Hfresh. by right.
  - destruct (Hspawn _ eq_refl) as [Hnd Hfresh].
    apply NoDup_cons in Hnd as [Hj' Hnd].
    split; simpl.
    + rewrite fmap_app. simpl. apply NoDup_app. split; [done|]. split; [|apply NoDup_singleton].
      intros x Hx ->%list_elem_of_singleton. apply (Hfresh j); [by left|done].
    + intros js' [= <-]. split; [done|]. intros j' Hj''.
      rewrite fmap_app. simpl. rewrite elem_of_app, list_elem_of_singleton.
      intros [Hin| ->]; [|done]. apply (Hfresh j'); [by right|done].
    + intros Hd. not_among Hd.
    + intros k i t [Hk|[_ Hk]]%lookup_app_Some Ha; [by eapply Harr|].
      destruct (k - length ts)%nat as [|?]; simplify_eq/=.
      by destruct (not_arrived_pending _ _ _ Hj Hflag).
  - split; simpl; [done|done|(intros Hd; not_among Hd)|done].
  - assert (Hfst : (<[n:=(i, t')]> ts).*1 = ts.*1) by by eapply tasks_insert_units.
    split; simpl.
    + by rewrite Hfst.
    + rewrite Hfst. done.
    + intros Hd. rewrite (Hidle Hd) in Hn. done.
    + intros k i2 t2 Hk Ha.
      destruct (decide (k = n)) as [->|Hne].
      * rewrite list_lookup_insert_eq in Hk by by eapply lookup_lt_Some.
        simplify_eq.
        destruct (taskStep_units _ _ _ _ _ Hstep) as [Heq|(_ & -> & _)]; [|done].
        destruct (taskStep_live _ _ _ _ _ Hstep).
        apply (Harr n i2 t Hn). unfold arrived in *. by rewrite <- Heq.
      * rewrite list_lookup_insert_ne in Hk by done.
        apply (Harr k i2 t2 Hk).
        destruct (taskStep_units _ _ _ _ _ Hstep) as [Heq|(_ & _ & Heq)];
          unfold arrived in *; rewrite Heq in Ha; [done|].
        rewrite list_lookup_alter_ne in Ha; [done|].
        intros ->. apply Hne. eapply (NoDup_lookup _ _ _ i2 Huniq);
          by rewrite list_lookup_fmap, ?Hk, ?Hn.
  - split; simpl; [apply NoDup_nil_2|done|done|by intros ? ? ? [=]].
  - split; simpl; [apply NoDup_nil_2|done|done|by intros ? ? ? [=]].
Qed.

(** The events of a step: none is a call of [Populate], and an RPC is sent
    for the unit of a task that has not finished. *)
Lemma step_trace c c' :
  step c c' →
  ∃ evs, trace (shared c') = trace (shared c) ++ evs ∧
    Forall (λ e, isPopulate e = false ∧
                 ∀ j, rpcOf e = Some j →
                      ∃ n t, tasks c !! n = Some (j, t) ∧ t ≠ Finished) evs.
Proof.
  destruct 1 as [s Hall|s Hall|j js ts s unit Hj Hflag|j js ts s unit Hj Hflag
                |ts s|d n ts s i t t' s' Hn Hstep|ts s Hfin|now s];
    rewrite ?report_eq; simpl;
    try (by exists []; rewrite app_nil_r).
  - eexists [_]. split; [done|]. by repeat constructor.
  - destruct (taskStep_trace _ _ _ _ _ Hstep) as (evs & Htr & Hevs).
    exists evs. split; [done|]. eapply Forall_impl; [exact Hevs|].
    intros e [Hpop Hrpc]. split; [done|]. intros j ->%Hrpc.
    exists n, t. split; [done|]. by eapply taskStep_live.
  - eexists [_; _]. rewrite <- app_assoc.
    split; [done|]. by repeat constructor.
Qed.

(** *** Along a run *)

Lemma start_consistent s : consistent (start s).
Proof. split; simpl; [apply NoDup_nil_2|done|done|by intros ? ? ? [=]]. Qed.

Lemma reachable_consistent c c' : reachable c c' → consistent c → consistent c'.
Proof. induction 1; eauto using step_consistent. Qed.

Lemma reachable_counted c c' : reachable c c' → counted c → counted c'.
Proof. induction 1; eauto using step_counted. Qed.

Lemma reachable_arrived c c' m :
  reachable c c' → arrived (shared c) m → arrived (shared c') m.
Proof. induction 1; eauto using step_arrived. Qed.

(** Once a unit is marked, no RPC is sent for it any more, and [Populate] is
    not called again. *)
Lemma reachable_trace c c' m :
  reachable c c' → consistent c → arrived (shared c) m →
  ∃ evs, trace (shared c') = trace (shared c) ++ evs ∧
    Forall (λ e, isPopulate e = false ∧ rpcOf e ≠ Some m) evs.
Proof.
  induction 1 as [c|c c1 c2 Hstep _ IH]; intros Hcons Harr.
  - exists []. by rewrite app_nil_r.
  - destruct (step_trace _ _ Hstep) as (evs1 & Htr1 & Hevs1).
    destruct IH as (evs2 & Htr2 & Hevs2);
      [by eapply step_consistent|by eapply step_arrived|].
    exists (evs1 ++ evs2). rewrite Htr2, Htr1, app_assoc. split; [done|].
    apply Forall_app. split; [|done].
    eapply Forall_impl; [exact Hevs1|]. intros e [Hpop Hrpc]. split; [done|].
    intros (n & t & Hn & Hlive)%Hrpc. apply Hlive.
    by eapply (consistent_arrived c Hcons).
Qed.

Lemma reachable_no_populate c c' :
  reachable c c' →
  ∃ evs, trace (shared c') = trace (shared c) ++ evs ∧
    Forall (λ e, isPopulate e = false) evs.
Proof.
  induction 1 as [c|c c1 c2 Hstep _ (evs2 & Htr2 & Hevs2)].
  - exists []. by rewrite app_nil_r.
  - destruct (step_trace _ _ Hstep) as (evs1 & Htr1 & Hevs1).
    exists (evs1 ++ evs2). rewrite Htr2, Htr1, app_assoc. split; [done|].
    apply Forall_app. split; [|done].
    eapply Forall_impl; [exact Hevs1|]. by intros e [Hpop _].
Qed.

(** *** The sequential schedule is one of the interleavings *)

Lemma taskRun_steps i t s t' s' d ts n :
  taskRun i t s t' s' → ts !! n = Some (i, t) →
  reachable {| driver := d; tasks := ts; shared := s |}
            {| driver := d; tasks := <[n:=(i, t')]> ts; shared := s' |}.
Proof.
  intros Hrun. revert ts.
  induction Hrun as [t s|t s t1 s1 t2 s2 Hstep _ IH]; intros ts Hn.
  - rewrite list_insert_id by done. constructor.
  - eapply rtc_l; [by eapply step_task|].
    rewrite <- (list_insert_insert_eq ts n (i, t2) (i, t1)).
    apply IH. apply list_lookup_insert_eq. by eapply lookup_lt_Some.
Qed.

Lemma fanOut_steps js s s' ts :
  fanOut js s = Some s' → Forall (λ it, it.2 = Finished) ts →
  ∃ ts', reachable {| driver := Spawning js; tasks := ts; shared := s |}
                   {| driver := Spawning []; tasks := ts'; shared := s' |} ∧
         Forall (λ it, it.2 = Finished) ts'.
Proof.
  revert s ts. induction js as [|j js IH]; intros s ts Hfan Hfin; simpl in Hfan.
  - simplify_eq. exists ts. split; [constructor|done].
  - destruct (deliveryUnits s !! j) as [unit|] eqn:Hj; simpl in Hfan; [|done].
    destruct (GraphNode.Metadata unit) eqn:Hflag.
    + destruct (IH _ _ Hfan Hfin) as (ts' & Hreach & Hfin').
      exists ts'. split; [|done]. eapply rtc_l; [exact (step_skip j js ts s unit Hj Hflag)|done].
    + destruct (processDelivery j s) as [s1|] eqn:Hrun; simpl in Hfan; [|done].
      destruct (IH s1 (ts ++ [(j, Finished)]) Hfan) as (ts' & Hreach & Hfin').
      { apply Forall_app. split; [done|]. by repeat constructor. }
      exists ts'. split; [|done].
      eapply rtc_l; [exact (step_go j js ts s unit Hj Hflag)|].
      etrans; [|exact Hreach].
      replace (ts ++ [(j, Finished)])
        with (<[length ts:=(j, Finished)]> (ts ++ [(j, AtSleep)])).
      * apply (taskRun_steps j AtSleep); [by apply processDelivery_taskRun|].
        by rewrite lookup_app_r, Nat.sub_diag.
      * rewrite insert_app_r_alt, Nat.sub_diag by done. done.
Qed.

Lemma round_steps s s' :
  allReached s = false → round s = Some s' →
  reachable {| driver := Counting; tasks := []; shared := s |}
            {| driver := Counting; tasks := []; shared := s' |}.
Proof.
  intros Hall Hround.
  destruct (fanOut_steps _ _ _ [] Hround) as (ts' & Hreach & Hfin); [done|].
  eapply rtc_l; [by apply step_enter|].
  etrans; [exact Hreach|].
  eapply rtc_l; [apply step_wait|].
  eapply rtc_l; [by apply step_join|]. constructor.
Qed.

(** *** The loop *)

Lemma unitsReachedObjective_all (us : list GraphNode.t) :
  unitsReachedObjective us = length us ↔
  Forall (λ u, GraphNode.Metadata u = true) us.
Proof.
  unfold unitsReachedObjective. induction us as [|u us IH]; simpl.
  - split; [constructor|done].
  - rewrite filter_cons. pose proof (length_filter (λ u, GraphNode.Metadata u = true) us).
    case_decide; simpl.
    + rewrite Forall_cons. split.
      * intros [= Hlen]. split; [done|by apply IH].
      * intros [_ Hall]. f_equal. by apply IH.
    + split; [lia|]. by intros [? _]%Forall_cons.
Qed.

Lemma allReached_arrived s :
  allReached s = true ↔ ∀ j, (j < length (deliveryUnits s))%nat → arrived s j.
Proof.
  unfold allReached. rewrite bool_decide_eq_true, unitsReachedObjective_all.
  rewrite Forall_lookup. unfold arrived. split.
  - intros Hall j Hj. destruct (lookup_lt_is_Some_2 _ _ Hj) as [u Hu]. eauto.
  - intros Hall j u Hu. destruct (Hall j) as (u' & Hu' & Hflag);
      [by eapply lookup_lt_Some|]. congruence.
Qed.

Lemma fanOut_all_arrived js s :
  (∀ j, j ∈ js → arrived s j) → fanOut js s = Some s.
Proof.
  induction js as [|j js IH]; intros Hall; [done|].
  rewrite fanOut_arrived by (apply Hall; by left).
  apply IH. intros j' Hj'. apply Hall. by right.
Qed.

(** When every unit has reached its warehouse a round has nothing to do. *)
Lemma round_allReached s : allReached s = true → round s = Some s.
Proof.
  intros Hall. apply fanOut_all_arrived. intros j Hj%elem_of_seq.
  apply allReached_arrived; [done|lia].
Qed.

Lemma afterRounds_front n s : afterRounds (S n) s = round s ≫= afterRounds n.
Proof.
  induction n as [|n IH].
  - simpl. by destruct (round s).
  - change (afterRounds (S (S n)) s) with (afterRounds (S n) s ≫= round).
    rewrite IH. destruct (round s); simpl; done.
Qed.

Lemma afterRounds_reachable n s sn :
  afterRounds n s = Some sn →
  reachable {| driver := Counting; tasks := []; shared := s |}
            {| driver := Counting; tasks := []; shared := sn |}.
Proof.
  revert sn. induction n as [|n IH]; intros sn Hn; simpl in Hn.
  - simplify_eq. constructor.
  - destruct (afterRounds n s) as [sm|]; simpl in Hn; [|done].
    unfold reachable in *. etrans; [by apply IH|].
    destruct (allReached sm) eqn:Hall.
    + rewrite round_allReached in Hn by done. simplify_eq. constructor.
    + by apply round_steps.
Qed.

(** The loop leaves after [n] rounds exactly when the count at the top of the
    loop equals the number of units for the first time then. *)
Lemma roundLoop_Exited fuel r s n s' :
  roundLoop fuel r s = Exited n s' ↔
  ∃ m sm, n = (r + m)%nat ∧ (m < fuel)%nat ∧
    afterRounds m s = Some sm ∧ allReached sm = true ∧
    (∀ k sk, (k < m)%nat → afterRounds k s = Some sk → allReached sk = false) ∧
    s' = emit (EvLog "All delivery units reached warehouse...") sm.
Proof.
  revert r s. induction fuel as [|fuel IH]; intros r s; simpl.
  { split; [done|]. intros (m & sm & _ & ? & _). lia. }
  destruct (allReached s) eqn:Hall.
  - split.
    + intros [= <- <-]. exists 0%nat, s. split_and!; try done; [lia..|].
      intros k sk ?. lia.
    + intros (m & sm & -> & Hm & Hsm & Hallm & Hfirst & ->).
      destruct m as [|m].
      * simpl in Hsm. simplify_eq. by rewrite Nat.add_0_r.
      * specialize (Hfirst 0%nat s). simpl in Hfirst.
        rewrite Hfirst in Hall; [done|lia|done].
  - destruct (round s) as [s1|] eqn:Hround.
    + rewrite IH. split.
      * intros (m & sm & -> & Hm & Hsm & Hallm & Hfirst & ->).
        exists (S m), sm. rewrite afterRounds_front, Hround. simpl.
        split_and!; try done; [lia..|].
        intros [|k] sk Hk Hsk.
        { simpl in Hsk. by simplify_eq. }
        rewrite afterRounds_front, Hround in Hsk. simpl in Hsk.
        apply (Hfirst k); [lia|done].
      * intros (m & sm & -> & Hm & Hsm & Hallm & Hfirst & ->).
        destruct m as [|m].
        { simpl in Hsm. simplify_eq. congruence. }
        rewrite afterRounds_front, Hround in Hsm. simpl in Hsm.
        exists m, sm. split_and!; try done; [lia..|].
        intros k sk Hk Hsk. apply (Hfirst (S k)); [lia|].
        rewrite afterRounds_front, Hround. done.
    + split; [done|].
      intros (m & sm & -> & Hm & Hsm & Hallm & Hfirst & ->).
      destruct m as [|m].
      * simpl in Hsm. simplify_eq. congruence.
      * rewrite afterRounds_front, Hround in Hsm. done.
Qed.

Lemma roundLoop_steps fuel r s n s' :
  roundLoop fuel r s = Exited n s' →
  reachable {| driver := Counting; tasks := []; shared := s |}
            {| driver := Leaving; tasks := []; shared := s' |}.
Proof.
  intros (m & sm & _ & _ & Hsm & Hall & _ & ->)%roundLoop_Exited.
  unfold reachable. etrans; [by eapply afterRounds_reachable|].
  eapply rtc_l; [by apply step_exit|]. constructor.
Qed.

(** More fuel does not change how the loop ends. *)
Lemma roundLoop_fuel fuel fuel' r s n s' :
  (fuel ≤ fuel')%nat →
  roundLoop fuel r s = Exited n s' → roundLoop fuel' r s = Exited n s'.
Proof.
  rewrite !roundLoop_Exited. intros Hle (m & sm & ? & ? & ?).
  exists m, sm. split; [done|]. split; [lia|done].
Qed.

Lemma Run_Exited fuel now s n s' :
  Run fuel now s = Exited n s' ↔
  ∃ s1, roundLoop fuel 0 (set_deliveryUnits (GetDeliveryUnit (worldOperator s)) s)
          = Exited n s1 ∧ s' = report now s1.
Proof.
  unfold Run. destruct (roundLoop _ _ _) as [n1 s1| |s1]; split;
    try done; try by intros (? & ? & ?).
  - intros [= <- <-]. eauto.
  - intros (s2 & [= <- <-] & ->). done.
Qed.

Lemma Run_steps fuel now s n s' :
  Run fuel now s = Exited n s' →
  reachable (start s) {| driver := Returned; tasks := []; shared := s' |}.
Proof.
  intros (s1 & Hloop & ->)%Run_Exited.
  unfold reachable. etrans; [by eapply roundLoop_steps|].
  eapply rtc_l; [apply step_report|]. constructor.
Qed.

(** *** Pacing and sleeping along the sequential schedule *)

Lemma taskStep_started i t s t' s' : taskStep i t s = Some (t', s') → t' ≠ AtSleep.
Proof. intros Hstep. destruct t; step_cases Hstep; done. Qed.

Lemma taskRun_no_sleep i t s t' s' :
  taskRun i t s t' s' → t ≠ AtSleep →
  ∃ evs, trace s' = trace s ++ evs ∧ Forall (λ e, isSleep e = false) evs.
Proof.
  induction 1 as [t s|t s t1 s1 t2 s2 Hstep _ IH]; intros Hstarted.
  - exists []. by rewrite app_nil_r.
  - destruct (taskStep_sleep _ _ _ _ _ Hstep) as (evs1 & Htr1 & Hevs1).
    destruct IH as (evs2 & Htr2 & Hevs2); [by eapply taskStep_started|].
    exists (evs1 ++ evs2). rewrite Htr2, Htr1, app_assoc. split; [done|].
    apply Forall_app. split; [|done].
    eapply Forall_impl; [exact Hevs1|]. intros e He.
    simpl in He. destruct (isSleep e); [|done]. destruct (He eq_refl) as [Ht _]. by destruct Hstarted.
Qed.

(** A task sleeps once, for the wait of the ceiling it finds, and then makes
    one pacing update. *)
Lemma processDelivery_pacing i s s' :
  processDelivery i s = Some s' →
  nextMoveWaitNumber (rng s) (maxMoveWaitNumber s)
    = Some (maxMoveWaitNumber s', rng s') ∧
  ∃ evs, trace s' = trace s ++ EvSleep (moveWait (maxMoveWaitNumber s)) :: evs ∧
         Forall (λ e, isSleep e = false) evs.
Proof.
  intros Hrun%processDelivery_taskRun.
  inversion Hrun as [|? ? t1 s1 ? ? Hsleep Hrun1]; simplify_eq/=.
  inversion Hrun1 as [|? ? t2 s2 ? ? Hdraw Hrun2]; simplify_eq/=.
  unfold drawWait in Hdraw. simpl in Hdraw.
  destruct (drawMoveWaitNumber _ _) as [[d g]|] eqn:Hd; simplify_eq/=.
  inversion Hrun2 as [|? ? t3 s3 ? ? Hhalve Hrun3]; simplify_eq/=.
  destruct (taskRun_pacing _ _ _ _ _ Hrun3) as [Hc Hg]; [done|].
  destruct (taskRun_no_sleep _ _ _ _ _ Hrun3) as (evs & Htr & Hevs); [done|].
  split.
  - unfold nextMoveWaitNumber. rewrite Hd. simpl. rewrite Hc, Hg. done.
  - exists evs. rewrite Htr. simpl. rewrite <- app_assoc. done.
Qed.

Lemma processDelivery_ceiling i s s' :
  0 ≤ maxMoveWaitNumber s < max_int → processDelivery i s = Some s' →
  0 ≤ maxMoveWaitNumber s' ≤ maxMoveWaitNumber s.
Proof.
  intros Hc [Hnext _]%processDelivery_pacing. by eapply nextMoveWaitNumber_bounds.
Qed.

Lemma sleepsWithin_mono (b b' : Z) evs :
  b ≤ b' → sleepsWithin b evs → sleepsWithin b' evs.
Proof.
  intros Hle Hw. eapply Forall_impl; [exact Hw|]. intros e He d Hd.
  destruct (He d Hd) as (b0 & ? & ?). exists b0. split; [lia|done].
Qed.

Lemma processDelivery_sleeps i s s' :
  0 ≤ maxMoveWaitNumber s < max_int → processDelivery i s = Some s' →
  0 ≤ maxMoveWaitNumber s' ≤ maxMoveWaitNumber s ∧
  ∃ evs, trace s' = trace s ++ evs ∧ sleepsWithin (maxMoveWaitNumber s) evs.
Proof.
  intros Hc Hrun. split; [by eapply processDelivery_ceiling|].
  destruct (processDelivery_pacing _ _ _ Hrun) as (_ & evs & Htr & Hevs).
  eexists. split; [exact Htr|]. constructor.
  - intros d [= <-]. exists (maxMoveWaitNumber s). split; [lia|done].
  - eapply Forall_impl; [exact Hevs|]. by intros e He d ->.
Qed.

Lemma fanOut_sleeps js s s' :
  0 ≤ maxMoveWaitNumber s < max_int → fanOut js s = Some s' →
  0 ≤ maxMoveWaitNumber s' ≤ maxMoveWaitNumber s ∧
  ∃ evs, trace s' = trace s ++ evs ∧ sleepsWithin (maxMoveWaitNumber s) evs.
Proof.
  revert s. induction js as [|j js IH]; intros s Hc Hfan; simpl in Hfan.
  - simplify_eq. split; [lia|]. exists []. rewrite app_nil_r. by split; [|constructor].
  - destruct (deliveryUnits s !! j) as [unit|]; simpl in Hfan; [|done].
    destruct (GraphNode.Metadata unit); [by apply IH|].
    destruct (processDelivery j s) as [s1|] eqn:Hrun; simpl in Hfan; [|done].
    destruct (processDelivery_sleeps _ _ _ Hc Hrun) as (Hc1 & evs1 & Htr1 & Hevs1).
    destruct (IH s1) as (Hc2 & evs2 & Htr2 & Hevs2); [lia|done|].
    split; [lia|]. exists (evs1 ++ evs2). rewrite Htr2, Htr1, app_assoc.
    split; [done|]. apply Forall_app. split; [done|].
    eapply sleepsWithin_mono; [|exact Hevs2]. lia.
Qed.

Lemma afterRounds_sleeps n s sn :
  0 ≤ maxMoveWaitNumber s < max_int → afterRounds n s = Some sn →
  0 ≤ maxMoveWaitNumber sn ≤ maxMoveWaitNumber s ∧
  ∃ evs, trace sn = trace s ++ evs ∧ sleepsWithin (maxMoveWaitNumber s) evs.
Proof.
  intros Hc. revert sn. induction n as [|n IH]; intros sn Hn; simpl in Hn.
  - simplify_eq. split; [lia|]. exists []. rewrite app_nil_r. by split; [|constructor].
  - destruct (afterRounds n s) as [sm|]; simpl in Hn; [|done].
    destruct (IH sm) as (Hc1 & evs1 & Htr1 & Hevs1); [done|].
    assert (Hcm : 0 ≤ maxMoveWaitNumber sm < max_int) by lia.
    destruct (fanOut_sleeps _ _ _ Hcm Hn) as (Hc2 & evs2 & Htr2 & Hevs2).
    split; [lia|]. exists (evs1 ++ evs2). rewrite Htr2, Htr1, app_assoc.
    split; [done|]. apply Forall_app. split; [done|].
    eapply sleepsWithin_mono; [|exact Hevs2]. lia.
Qed.

End ProcessFacts.

(** ** The claims about the constructor, the loop and the counters *)

Section Claims.
Context {Stub World : Type}.
Context `{!CoopLogisticsEngineAPIClient Stub} `{!WorldOperator World}.
Implicit Types s : ServiceInstance Stub World.
Implicit Types c : Config Stub World.

Lemma populateInRange_other e : isPopulate e = false → populateInRange e.
Proof. intros He w u ->. done. Qed.

Lemma population_counts g :
  ∃ nw nu g1 g2,
    rand_Intn g (maxWarehouses - 10 + 1) = Some (nw, g1) ∧
    rand_Intn g1 (maxCargoUnits - 10 + 1) = Some (nu, g2) ∧
    10 ≤ to_uint32 (int_add nw 10) ≤ maxWarehouses ∧
    10 ≤ to_uint32 (int_add nu 10) ≤ maxCargoUnits.
Proof.
  assert (Hw : maxWarehouses = 255) by done.
  assert (Hu : maxCargoUnits = 1024) by done.
  assert (Hm : max_int = 2 ^ 63 - 1) by done.
  assert (Hn : min_int = - 2 ^ 63) by done.
  rewrite Hw, Hu. eexists _, _, _, _.
  rewrite !rand_Intn_Some by lia. split; [done|]. split; [done|]. simpl.
  set (nw := raw g (cursor g) mod (255 - 10 + 1)).
  set (nu := raw g (S (cursor g)) mod (1024 - 10 + 1)).
  assert (0 ≤ nw < 246) by (apply Z.mod_pos_bound; lia).
  assert (0 ≤ nu < 1015) by (apply Z.mod_pos_bound; lia).
  unfold int_add, to_uint32. rewrite !wrap_int_id by lia.
  rewrite !Z.mod_small by lia. lia.
Qed.

(** C10: the constructor calls [Populate] at most once, and when it does,
    which is whenever the connection is made, the warehouse count lies in
    [10, 255] and the unit count in [10, 1024]; nothing that follows in [Run]
    or its tasks calls [Populate] again. *)
Theorem population_counts_in_range (lc : client.APILogisticsClient Stub)
    (wo : World) (g : Rand) (now : Z) :
  maxWarehouses = 255 ∧ maxCargoUnits = 1024 ∧
  ∃ tr res, NewServiceInstance lc wo g now = Some (tr, res) ∧
    Forall populateInRange tr ∧
    (∀ conn, grpc_DialContext apiAddress = inr conn →
       ∃ w u, tr !! 2%nat = Some (EvPopulate w u) ∧ length tr = 3%nat) ∧
    (∀ s c, res = inr s → reachable (start s) c →
       Forall populateInRange (trace (shared c))).
Proof.
  split; [done|]. split; [done|].
  assert (Hlogs : ∀ a b, Forall populateInRange [EvLog a; EvLog b]).
  { intros a b. repeat (apply Forall_cons; split; [by apply populateInRange_other|]).
    apply Forall_nil_2. }
  unfold NewServiceInstance, client.Connect.
  destruct (grpc_DialContext apiAddress) as [dialErr|conn].
  { eexists _, _. split; [done|]. split_and!; [apply Hlogs|done|done]. }
  destruct (population_counts g) as (nw & nu & g1 & g2 & Hnw & Hnu & Hw & Hu).
  change (rng (newService _ wo g now _)) with g. rewrite Hnw.
  unfold mbind, option_bind. cbv beta iota. rewrite Hnu. cbv beta iota.
  unfold newService. setters.
  destruct (Populate wo _ _) as [wo' populationErr].
  assert (Htr : ∀ a b, Forall populateInRange
                  [EvLog a; EvLog b;
                   EvPopulate (to_uint32 (int_add nw 10)) (to_uint32 (int_add nu 10))]).
  { intros a b. repeat (apply Forall_cons; split; [by apply populateInRange_other|]).
    apply Forall_cons. split; [by intros w u [= <- <-]|apply Forall_nil_2]. }
  destruct populationErr as [e|]; simpl.
  - eexists _, _. split; [done|]. split_and!; [apply Htr| |done].
    intros conn' _. by eexists _, _.
  - eexists _, _. split; [done|]. split_and!; [apply Htr| |].
    + intros conn' _. by eexists _, _.
    + intros s c [= <-] Hreach.
      destruct (reachable_no_populate _ _ Hreach) as (evs & -> & Hevs). simpl.
      apply (Forall_app populateInRange [_; _; _] evs). split; [apply Htr|].
      eapply Forall_impl; [exact Hevs|]. apply populateInRange_other.
Qed.

Lemma allReached_count s :
  (allReached s = true ↔
     unitsReachedObjective (deliveryUnits s) = length (deliveryUnits s)) ∧
  (allReached s = false ↔
     unitsReachedObjective (deliveryUnits s) ≠ length (deliveryUnits s)).
Proof.
  unfold allReached. by rewrite bool_decide_eq_true, bool_decide_eq_false.
Qed.

(** C6: [Run] leaves its loop after [n] rounds exactly when the number of
    units that reached their warehouse, counted at the top of the loop, equals
    the number of units for the first time after [n] rounds; it then adds one
    row (name, attempts, errors) per operation to the table, prints the time
    elapsed since [ExecTime] and the table, and returns. *)
Theorem loop_exit_and_report fuel now s n s' :
  (Run fuel now s = Exited n s' ↔
     (n < fuel)%nat ∧
     ∃ sn, afterRounds n (shared (start s)) = Some sn ∧
       unitsReachedObjective (deliveryUnits sn) = length (deliveryUnits sn) ∧
       (∀ k sk, (k < n)%nat → afterRounds k (shared (start s)) = Some sk →
          unitsReachedObjective (deliveryUnits sk) ≠ length (deliveryUnits sk)) ∧
       s' = report now (emit (EvLog "All delivery units reached warehouse...") sn)) ∧
  (∀ s1 : ServiceInstance Stub World,
     let table :=
       {| ASCIITablePrinter.header := ASCIITablePrinter.header (reportTable s1);
          ASCIITablePrinter.rows :=
            ASCIITablePrinter.rows (reportTable s1)
              ++ ((λ o, [Operation.Name o; pretty (Operation.A o);
                         pretty (Operation.B o)]) <$> operations s1) |} in
     reportTable (report now s1) = table ∧
     trace (report now s1)
       = trace s1 ++ [EvPrintExecTime (time_Since now (Statistics.ExecTime (statistics s1)));
                      EvPrintTable table] ∧
     statistics (report now s1) = statistics s1 ∧
     deliveryUnits (report now s1) = deliveryUnits s1).
Proof.
  split.
  - rewrite Run_Exited. split.
    + intros (s1 & Hloop & ->). apply roundLoop_Exited in Hloop
        as (m & sm & -> & Hm & Hsm & Hall & Hfirst & ->).
      split; [done|]. exists sm. split_and!; try done.
      * by apply allReached_count.
      * intros k sk Hk Hsk. apply allReached_count. by eapply Hfirst.
    + intros (Hn & sn & Hsn & Hall & Hfirst & ->). eexists. split; [|done].
      apply roundLoop_Exited. exists n, sn. split_and!; try done.
      * by apply allReached_count.
      * intros k sk Hk Hsk. apply allReached_count. by eapply Hfirst.
  - intros s1. rewrite report_eq. simpl. rewrite <- app_assoc. done.
Qed.

(** C7: once a unit is marked Arrived in a reachable state of [Run] and its
    tasks, it stays Arrived in every later state, it has no task that is not
    finished (so none is started for it, and the fan-out passes it over),
    and no movement or arrival RPC is sent for it. *)
Theorem arrived_unit_is_left_alone s0 c c' m :
  reachable (start s0) c → reachable c c' → arrived (shared c) m →
  arrived (shared c') m ∧ ¬ pending (shared c') m ∧
  (∀ n t, tasks c' !! n = Some (m, t) → t = Finished) ∧
  (∀ js, fanOut (m :: js) (shared c') = fanOut js (shared c')) ∧
  ∃ evs, trace (shared c') = trace (shared c) ++ evs ∧
         Forall (λ e, rpcOf e ≠ Some m) evs.
Proof.
  intros Hc Hc' Harr.
  assert (Hcons : consistent c) by (eapply reachable_consistent; [done|apply start_consistent]).
  assert (Hcons' : consistent c') by by eapply reachable_consistent.
  assert (Harr' : arrived (shared c') m) by by eapply reachable_arrived.
  split_and!; [done| | | |].
  - intros (unit & Hunit & Hflag). destruct Harr' as (unit' & Hunit' & Hflag'). congruence.
  - intros n t Hn. by eapply (consistent_arrived c' Hcons').
  - intros js. by apply fanOut_arrived.
  - destruct (reachable_trace _ _ m Hc' Hcons Harr) as (evs & Htr & Hevs).
    exists evs. split; [done|]. eapply Forall_impl; [exact Hevs|]. by intros e [_ ?].
Qed.

Lemma taskStep_names i t s t' s' :
  taskStep i t s = Some (t', s') →
  Operation.Name <$> operations s' = Operation.Name <$> operations s.
Proof.
  intros Hstep. destruct t; step_cases Hstep; unfold operations; simpl; try done.
  all: rewrite list_fmap_insert; apply list_insert_id;
    rewrite list_lookup_fmap;
    match goal with H : _ !! _ = Some _ |- _ => by rewrite H end.
Qed.

Lemma reachable_names c c' :
  reachable c c' →
  Operation.Name <$> operations (shared c') = Operation.Name <$> operations (shared c).
Proof.
  induction 1 as [c|c c1 c2 Hstep _ IH]; [done|]. rewrite IH. clear IH.
  destruct Hstep; rewrite ?report_eq; simpl; try done. by eapply taskStep_names.
Qed.

(** C8: from a start in which no operation has more errors than attempts, in
    every state that [Run] and its tasks can reach, statement by statement
    and in any interleaving, every operation has at least as many attempts as
    errors, even when the errors that running tasks are about to count are
    added; the operations keep their names and order; and a statement changes
    the errors of an operation only at a program point that the task reached
    through the statement that counts an attempt of that operation. *)
Theorem errors_never_exceed_attempts s0 c :
  Forall (λ o, (Operation.B o ≤ Operation.A o)%N) (operations s0) →
  reachable (start s0) c →
  Forall (λ o, (Operation.B o ≤ Operation.A o)%N) (operations (shared c)) ∧
  counted c ∧
  Operation.Name <$> operations (shared c) = Operation.Name <$> operations s0 ∧
  (∀ i t (s : ServiceInstance Stub World) t' s' k,
     taskStep i t s = Some (t', s') →
     (errors s' k ≠ errors s k → attempting k t = true) ∧
     (attempting k t' = true →
        attempting k t = true ∨ attempts s' k = N.succ <$> attempts s k)).
Proof.
  intros Hstart Hc.
  assert (Hcounted : counted c).
  { eapply reachable_counted; [done|]. intros k o Hk. simpl in *.
    rewrite Forall_lookup in Hstart. specialize (Hstart k o Hk).
    unfold inflight. simpl. lia. }
  split_and!; [|done| |].
  - apply Forall_lookup. intros k o Hk. specialize (Hcounted k o Hk). lia.
  - by rewrite (reachable_names _ _ Hc).
  - intros. by eapply taskStep_errors.
Qed.

(** C9: run one task after the other, the pacing ceiling never increases and
    stays at 0 once it is there.  One update from a ceiling [b] yields a
    ceiling between 0 and [b]; from 0 it yields 0, for which the wait is 0; a
    task, and any number of rounds, leave the ceiling no higher than they
    found it, and every sleep in them is the wait of a ceiling no higher than
    the one at their start, hence 0 once the ceiling is 0. *)
Theorem ceiling_never_increases :
  (∀ g b, 0 ≤ b < max_int →
     ∃ b' g', nextMoveWaitNumber g b = Some (b', g') ∧ 0 ≤ b' ≤ b) ∧
  (∀ g, ∃ g', nextMoveWaitNumber g 0 = Some (0, g')) ∧
  moveWait 0 = 0 ∧
  (∀ i s s', 0 ≤ maxMoveWaitNumber s < max_int → processDelivery i s = Some s' →
     0 ≤ maxMoveWaitNumber s' ≤ maxMoveWaitNumber s) ∧
  (∀ n s sn, 0 ≤ maxMoveWaitNumber s < max_int → afterRounds n s = Some sn →
     0 ≤ maxMoveWaitNumber sn ≤ maxMoveWaitNumber s ∧
     ∃ evs, trace sn = trace s ++ evs ∧ sleepsWithin (maxMoveWaitNumber s) evs) ∧
  (∀ n s sn, maxMoveWaitNumber s = 0 → afterRounds n s = Some sn →
     maxMoveWaitNumber sn = 0 ∧
     ∃ evs, trace sn = trace s ++ evs ∧ Forall (λ e, ∀ d, e = EvSleep d → d = 0) evs).
Proof.
  assert (Hzero : 0 ≤ 0 < max_int) by done.
  split_and!.
  - intros g b Hb. eexists _, _. split; [by apply nextMoveWaitNumber_Some|].
    eapply nextMoveWaitNumber_bounds; [done|]. by apply nextMoveWaitNumber_Some.
  - intros g. eexists. rewrite nextMoveWaitNumber_Some by done. simpl.
    by rewrite Z.mod_1_r.
  - done.
  - intros i s s'. apply processDelivery_ceiling.
  - intros n s sn. apply afterRounds_sleeps.
  - intros n s sn Hs Hn.
    destruct (afterRounds_sleeps n s sn) as (Hb & evs & Htr & Hevs);
      [by rewrite Hs|done|].
    split; [lia|]. exists evs. split; [done|].
    eapply Forall_impl; [exact Hevs|]. intros e He d Hd.
    destruct (He d Hd) as (b & Hb' & ->). by replace b with 0 by lia.
Qed.

End Claims.

(** ** The scenario of the three units *)

Lemma scenario_rounds n :
  (n ≤ 4)%nat →
  Scenario.rounds Scripted.reliable n = Some (Scenario.stateAfter Scripted.reliable n).
Proof.
  intros Hn. do 5 (destruct n as [|n]; [vm_compute; reflexivity|]). lia.
Qed.

Lemma scenario_run script fuel now n s :
  (10 ≤ fuel)%nat → Scenario.run script 10 0 = Exited n s →
  ∃ s1, Scenario.run script fuel now = Exited n (report now s1) ∧
        report 0 s1 = s.
Proof.
  unfold Scenario.run. intros Hfuel (s1 & Hloop & ->)%Run_Exited.
  exists s1. split; [|done]. apply Run_Exited. exists s1. split; [|done].
  by eapply roundLoop_fuel.
Qed.

Lemma shared_config {Stub World : Type} (d : Driver) (ts : list (nat * Task))
    (s : ServiceInstance Stub World) :
  shared {| driver := d; tasks := ts; shared := s |} = s.
Proof. reflexivity. Qed.

Lemma scenario_start script :
  shared (start (Scenario.service script)) = Scenario.entering script.
Proof. reflexivity. Qed.

Lemma scenario_afterRounds n :
  (n ≤ 4)%nat →
  @afterRounds Scripted.t Grid.t (Scripted.stub Scripted.reliable) Grid.operator n
    (Scenario.entering Scripted.reliable)
  = Some (Scenario.stateAfter Scripted.reliable n).
Proof. apply scenario_rounds. Qed.

Lemma scenario_reachable n :
  (n ≤ 4)%nat →
  @reachable Scripted.t Grid.t (Scripted.stub Scripted.reliable) Grid.operator
    (start (Scenario.service Scripted.reliable))
    {| driver := Counting; tasks := [];
       shared := Scenario.stateAfter Scripted.reliable n |}.
Proof.
  intros Hn.
  apply (afterRounds_reachable n (Scenario.entering Scripted.reliable)).
  apply scenario_afterRounds. lia.
Qed.

(** C1, as claimed, fails: after three rounds U1 and U2 are marked, U3 is not
    (it has reached the coordinate of its warehouse in the third round and
    reports its arrival in the fourth), so [Run] does not leave its loop; it
    leaves it after four rounds. *)
Lemma scenario_not_done_after_three_rounds :
  Scenario.rounds Scripted.reliable 3
    = Some (Scenario.stateAfter Scripted.reliable 3) ∧
  GraphNode.Metadata <$> deliveryUnits (Scenario.stateAfter Scripted.reliable 3)
    = [true; true; false] ∧
  unitCoordinate (worldOperator (Scenario.stateAfter Scripted.reliable 3)) 2
    = Scenario.at_ 0 0 ∧
  allReached (Scenario.stateAfter Scripted.reliable 3) = false ∧
  Scenario.run Scripted.reliable 10 0
    = Exited 4 (Scenario.final Scripted.reliable).
Proof. split_and!; vm_compute; reflexivity. Qed.

(** C1 (amended): in the scenario of two warehouses and the units U1, U2 and
    U3, which are 1, 2 and 3 steps from their nearest warehouse, with a
    transport that never fails, [Run] leaves its loop after exactly 4 rounds,
    whatever the fuel beyond that and the clock: all three units are marked
    Arrived then, "MoveUnit" has 9 attempts and "UnitReachedWarehouse" has 3
    attempts, both without an error.  After 3 rounds U3 is still Pending. *)
Theorem scenario_takes_four_rounds :
  Grid.stepsToWarehouse Scenario.world <$> [0; 1; 2]%nat
    = [Some 1; Some 2; Some 3] ∧
  (∀ fuel now, (10 ≤ fuel)%nat →
     ∃ s, Scenario.run Scripted.reliable fuel now = Exited 4 s ∧
       GraphNode.Metadata <$> deliveryUnits s = [true; true; true] ∧
       operations s
         = [ {| Operation.Name := "MoveUnit"; Operation.A := 9; Operation.B := 0 |};
             {| Operation.Name := "UnitReachedWarehouse";
                Operation.A := 3; Operation.B := 0 |} ]) ∧
  (∃ s3, Scenario.rounds Scripted.reliable 3 = Some s3 ∧
     GraphNode.Metadata <$> deliveryUnits s3 = [true; true; false] ∧ pending s3 2).
Proof.
  split; [vm_compute; reflexivity|]. split.
  - intros fuel now Hfuel.
    destruct (scenario_run Scripted.reliable fuel now 4
                (Scenario.final Scripted.reliable) Hfuel) as (s1 & Hrun & Hs1);
      [vm_compute; reflexivity|].
    eexists. split; [exact Hrun|].
    assert (Hunits : deliveryUnits (report now s1) = deliveryUnits (report 0 s1))
      by by rewrite !report_eq.
    assert (Hops : operations (report now s1) = operations (report 0 s1))
      by by rewrite !report_eq.
    rewrite Hunits, Hops, Hs1. split; vm_compute; reflexivity.
  - exists (Scenario.stateAfter Scripted.reliable 3).
    split; [vm_compute; reflexivity|]. split; [vm_compute; reflexivity|].
    eexists. split; vm_compute; reflexivity.
Qed.

(** ** The theorems at work on the scenario *)

Lemma loop_exit_and_report_witness :
  (4 < 10)%nat ∧
  unitsReachedObjective (deliveryUnits (Scenario.stateAfter Scripted.reliable 4))
    = length (deliveryUnits (Scenario.stateAfter Scripted.reliable 4)) ∧
  unitsReachedObjective (deliveryUnits (Scenario.stateAfter Scripted.reliable 2))
    ≠ length (deliveryUnits (Scenario.stateAfter Scripted.reliable 2)).
Proof.
  destruct (proj1 (proj1 (@loop_exit_and_report Scripted.t Grid.t
              (Scripted.stub Scripted.reliable) Grid.operator 10 0
              (Scenario.service Scripted.reliable) 4 (Scenario.final Scripted.reliable))))
    as (Hfuel & sn & Hsn & Hall & Hfirst & _); [vm_compute; reflexivity|].
  rewrite scenario_start in Hsn, Hfirst.
  rewrite scenario_afterRounds in Hsn by lia.
  assert (sn = Scenario.stateAfter Scripted.reliable 4) as -> by congruence.
  split; [exact Hfuel|]. split; [exact Hall|].
  apply (Hfirst 2%nat); [lia|]. apply scenario_afterRounds. lia.
Defined.

Lemma arrived_unit_is_left_alone_witness :
  arrived (Scenario.stateAfter Scripted.reliable 2) 0 ∧
  arrived (Scenario.stateAfter Scripted.reliable 4) 0 ∧
  ∃ evs, trace (Scenario.stateAfter Scripted.reliable 4)
           = trace (Scenario.stateAfter Scripted.reliable 2) ++ evs ∧
         Forall (λ e, rpcOf e ≠ Some 0%nat) evs.
Proof.
  assert (Harr : arrived (Scenario.stateAfter Scripted.reliable 2) 0).
  { eexists. split; vm_compute; reflexivity. }
  destruct (@arrived_unit_is_left_alone Scripted.t Grid.t
              (Scripted.stub Scripted.reliable) Grid.operator
              (Scenario.service Scripted.reliable)
              {| driver := Counting; tasks := [];
                 shared := Scenario.stateAfter Scripted.reliable 2 |}
              {| driver := Counting; tasks := [];
                 shared := Scenario.stateAfter Scripted.reliable 4 |} 0)
    as (Harr' & _ & _ & _ & Hevs).
  - apply scenario_reachable. lia.
  - apply (afterRounds_reachable 2). vm_compute. reflexivity.
  - rewrite shared_config. exact Harr.
  - rewrite shared_config in Harr'. rewrite !shared_config in Hevs.
    split; [exact Harr|]. split; [exact Harr'|exact Hevs].
Defined.

Lemma errors_never_exceed_attempts_witness :
  Forall (λ o, (Operation.B o ≤ Operation.A o)%N)
    (operations (Scenario.final Scenario.moveFails)) ∧
  errors (Scenario.final Scenario.moveFails) 0 = Some 1%N ∧
  attempts (Scenario.final Scenario.moveFails) 0 = Some 9%N.
Proof.
  destruct (@errors_never_exceed_attempts Scripted.t Grid.t
              (Scripted.stub Scenario.moveFails) Grid.operator
              (Scenario.service Scenario.moveFails)
              {| driver := Returned; tasks := [];
                 shared := Scenario.final Scenario.moveFails |})
    as (Hle & _).
  - vm_compute. repeat (apply Forall_cons_2; [discriminate|]). apply Forall_nil_2.
  - apply (Run_steps 10 0 _ 4). vm_compute. reflexivity.
  - rewrite shared_config in Hle.
    split; [exact Hle|]. split; vm_compute; reflexivity.
Defined.

Lemma ceiling_never_increases_witness :
  0 ≤ maxMoveWaitNumber (Scenario.stateAfter Scripted.reliable 4)
    ≤ maxMoveWaitNumber (Scenario.entering Scripted.reliable).
Proof.
  destruct (@ceiling_never_increases Scripted.t Grid.t
              (Scripted.stub Scripted.reliable) Grid.operator)
    as (_ & _ & _ & _ & Hrounds & _).
  destruct (Hrounds 4%nat (Scenario.entering Scripted.reliable)
              (Scenario.stateAfter Scripted.reliable 4)) as [Hle _];
    [by vm_compute|apply scenario_afterRounds; lia|exact Hle].
Defined.

(** * Further properties

    What the constructor, [Run], its tasks and the client do beyond the
    claims above: the failures of the constructor, the accounting of the
    reports against the counters and the flags, the absence of panics, and
    the pacing ceiling when tasks run side by side. *)

(** ** Sums over events and tasks, and some arithmetic *)

Lemma total_app {A : Type} (f : A → N) (l l' : list A) :
  total f (l ++ l') = (total f l + total f l')%N.
Proof. unfold total. induction l as [|x l IH]; simpl; lia. Qed.

Lemma total_insert {A : Type} (f : A → N) (l : list A) n x y :
  l !! n = Some x → (total f (<[n:=y]> l) + f x = total f l + f y)%N.
Proof.
  unfold total. revert n. induction l as [|z l IH]; intros [|n] Hn;
    simplify_eq/=; [lia|]. specialize (IH _ Hn). lia.
Qed.

Lemma total_le_length {A : Type} (f : A → N) (l : list A) :
  (∀ x, (f x ≤ 1)%N) → (total f l ≤ N.of_nat (length l))%N.
Proof.
  intros Hf. unfold total. induction l as [|x l IH]; simpl; [lia|].
  specialize (Hf x). lia.
Qed.

Lemma total_zero {A : Type} (f : A → N) (l : list A) :
  Forall (λ x, f x = 0%N) l → total f l = 0%N.
Proof. unfold total. induction 1 as [|x l Hx _ IH]; simpl; lia. Qed.

Lemma sent_split k evs : sent k evs = (failed k evs + succeeded k evs)%N.
Proof.
  unfold sent, failed, succeeded, total.
  induction evs as [|e evs IH]; simpl; [done|]. rewrite IH.
  destruct k as [|[|k]], e as [| | | | |? ? [?|]|? ? [?|]| |]; simpl; lia.
Qed.

Lemma among_finished f ts :
  f Finished = 0%N → Forall (λ it, it.2 = Finished) ts → among f ts = 0%N.
Proof.
  intros Hf Hts. apply total_zero. eapply Forall_impl; [exact Hts|].
  intros [i t] Ht. simpl in *. by rewrite Ht.
Qed.

Lemma among_app f ts ts' : among f (ts ++ ts') = (among f ts + among f ts')%N.
Proof. apply total_app. Qed.

Lemma among_insert f ts n i t t' :
  ts !! n = Some (i, t) →
  (among f (<[n:=(i, t')]> ts) + f t = among f ts + f t')%N.
Proof. intros Hn. apply (total_insert (λ it, f it.2) ts n (i, t) (i, t') Hn). Qed.

Lemma among_le_length f ts :
  (∀ t, (f t ≤ 1)%N) → (among f ts ≤ N.of_nat (length ts))%N.
Proof. intros Hf. apply total_le_length. intros [i t]. apply Hf. Qed.

Lemma unitsReachedObjective_alter (us : list GraphNode.t) i unit :
  us !! i = Some unit → GraphNode.Metadata unit = false →
  unitsReachedObjective (alter GraphNode.reach i us) = S (unitsReachedObjective us).
Proof.
  unfold unitsReachedObjective. revert i.
  induction us as [|u us IH]; intros [|i] Hi Hflag; simplify_eq/=.
  - rewrite filter_cons_False; [done|]. by rewrite Hflag.
  - specialize (IH _ Hi Hflag).
    destruct (decide (GraphNode.Metadata u = true)) as [Hu|Hu].
    + rewrite !filter_cons_True by done. simpl. by rewrite IH.
    + by rewrite !filter_cons_False.
Qed.

Lemma unitsPending_reached (us : list GraphNode.t) :
  (unitsReachedObjective us + unitsPending us)%nat = length us.
Proof.
  unfold unitsReachedObjective, unitsPending.
  induction us as [|u us IH]; [done|].
  destruct (GraphNode.Metadata u) eqn:Hu.
  - rewrite filter_cons_True by done. rewrite filter_cons_False by by rewrite Hu.
    simpl. lia.
  - rewrite filter_cons_False by by rewrite Hu. rewrite filter_cons_True by done.
    simpl. lia.
Qed.

Lemma NoDup_below (l : list nat) n :
  NoDup l → Forall (λ j, (j < n)%nat) l → (length l ≤ n)%nat.
Proof.
  intros Hnd Hl. rewrite <- (length_seq n 0). apply submseteq_length.
  apply NoDup_submseteq; [done|]. intros j Hj. apply elem_of_seq.
  rewrite Forall_forall in Hl. specialize (Hl j Hj). lia.
Qed.

Lemma nextMoveWaitNumber_halves g c c' g' :
  0 ≤ c < max_int → nextMoveWaitNumber g c = Some (c', g') → 0 ≤ 2 * c' ≤ c + 1.
Proof.
  intros Hc. rewrite nextMoveWaitNumber_Some by done. intros [= <- _].
  pose proof (Z.mod_pos_bound (raw g (cursor g)) (c + 1)) as Hr.
  set (d := raw g (cursor g) mod (c + 1) + 1) in *.
  pose proof (Z.div_pos d 2).
  pose proof (Z.mul_div_le d 2). lia.
Qed.

(** [c'] is what is left of the ceiling [c] after [m] pacing updates at
    best: each of them halves, rounding up. *)
Lemma decayed_refl (c : Z) : c * 2 ^ 0 ≤ c + 2 ^ 0 - 1.
Proof. change (2 ^ 0) with 1. lia. Qed.

Lemma decayed_trans (c c1 c2 m1 m2 : Z) :
  0 ≤ m1 → 0 ≤ m2 → 0 ≤ c2 →
  c1 * 2 ^ m1 ≤ c + 2 ^ m1 - 1 → c2 * 2 ^ m2 ≤ c1 + 2 ^ m2 - 1 →
  c2 * 2 ^ (m1 + m2) ≤ c + 2 ^ (m1 + m2) - 1.
Proof.
  intros Hm1 Hm2 Hc2 H1 H2. rewrite Z.pow_add_r by done.
  pose proof (Z.pow_pos_nonneg 2 m1). pose proof (Z.pow_pos_nonneg 2 m2).
  set (a := 2 ^ m1) in *. set (b := 2 ^ m2) in *. nia.
Qed.

Lemma slept_app evs evs' : slept (evs ++ evs') = slept evs + slept evs'.
Proof. unfold slept. induction evs as [|e evs IH]; simpl; lia. Qed.

Lemma slept_none evs : Forall (λ e, isSleep e = false) evs → slept evs = 0.
Proof.
  unfold slept. induction 1 as [|e evs He _ IH]; simpl; [done|].
  rewrite IH. by destruct e.
Qed.

Lemma moveWait_small c : 0 ≤ c → c * 1000 ≤ max_int → moveWait c = c * 1000.
Proof.
  intros Hc Hle.
  assert (Hm : max_int = 2 ^ 63 - 1) by done.
  assert (Hi : min_int = - 2 ^ 63) by done.
  unfold moveWait, int_mul, to_int64, Microsecond.
  rewrite (wrap_int_id c) by lia. apply wrap_int_id. lia.
Qed.

Lemma population_count (r n : Z) :
  0 < n → n + 10 ≤ 2 ^ 32 → to_uint32 (int_add (r mod n) 10) = r mod n + 10.
Proof.
  intros Hn Hle. pose proof (Z.mod_pos_bound r n Hn).
  assert (Hm : max_int = 2 ^ 63 - 1) by done.
  assert (Hi : min_int = - 2 ^ 63) by done.
  unfold int_add, to_uint32. rewrite wrap_int_id by lia.
  apply Z.mod_small. lia.
Qed.

(** ** The reports and the counters, statement by statement *)

Section TaskLedger.
Context {Stub World : Type}.
Context `{!CoopLogisticsEngineAPIClient Stub} `{!WorldOperator World}.
Implicit Types s : ServiceInstance Stub World.
Implicit Types c : Config Stub World.
Implicit Types ts : list (nat * Task).

(** What a statement sends, against the place of the task before and after:
    the movement report is sent once, on the way out of the places that have
    it ahead; an arrival report is sent at most once; one that went through
    is followed by the marking of the unit. *)
Lemma taskStep_reports i t s t' s' :
  taskStep i t s = Some (t', s') →
  ∃ evs, trace s' = trace s ++ evs ∧
    (sent 0 evs + moveAhead t' = moveAhead t)%N ∧
    (sent 1 evs + reachAhead t' ≤ reachAhead t)%N ∧
    (succeeded 1 evs + aboutToMark t
       = aboutToMark t' + marking t)%N ∧
    Forall (λ e, ∀ j, arrivalOf j e → j = i ∧ aboutToMark t' = 1%N) evs.
Proof.
  intros Hstep.
  destruct t; step_cases Hstep;
    first [ by exists []; rewrite app_nil_r
          | eexists [_]; split; [done|]; tally;
            split_and!; [lia|lia|lia|]; apply Forall_singleton;
            intros j [req Hreq]; by simplify_eq ].
Qed.

(** What a statement does to the counters of operation [k], against what it
    sends and the place of the task: an attempt is counted on the way to the
    RPC, an error after an RPC that failed. *)
Lemma taskStep_ledger i t s t' s' k o' :
  taskStep i t s = Some (t', s') →
  operations s' !! k = Some o' →
  ∃ o evs, operations s !! k = Some o ∧ trace s' = trace s ++ evs ∧
    (Operation.A o' + aboutToSend k t
       = Operation.A o + aboutToSend k t' + sent k evs)%N ∧
    (Operation.B o' + aboutToCount k t'
       = Operation.B o + aboutToCount k t + failed k evs)%N.
Proof.
  intros Hstep Hk.
  destruct t; step_cases Hstep; unfold operations in *; simpl in *;
    try (exists o';
         first [ eexists [_]; split; [done|]; split; [done|]
               | exists []; rewrite app_nil_r; split; [done|]; split; [done|] ];
         destruct k as [|[|k]]; tally; lia).
  all: destruct k as [|[|k]]; simpl in *;
    repeat match goal with
           | H : <[_:=_]> ?l !! _ = Some _ |- _ =>
               first [ rewrite list_lookup_insert_ne in H by done
                     | rewrite list_lookup_insert_eq in H
                         by (eapply lookup_lt_Some; eassumption) ]
           end;
    simplify_eq; eexists _, []; rewrite app_nil_r;
    (split; [eassumption|]); (split; [done|]); tally; lia.
Qed.

End TaskLedger.

(** ** What the process keeps true *)

Section RunInvariants.
Context {Stub World : Type}.
Context `{!CoopLogisticsEngineAPIClient Stub} `{!WorldOperator World}.
Implicit Types s : ServiceInstance Stub World.
Implicit Types c : Config Stub World.
Implicit Types ts : list (nat * Task).

Lemma taskStep_units_length i t s t' s' :
  taskStep i t s = Some (t', s') →
  length (deliveryUnits s') = length (deliveryUnits s).
Proof.
  intros [->|(_ & _ & ->)]%taskStep_units; [done|]. apply length_alter.
Qed.

Lemma step_units_length c c' :
  step c c' →
  length (deliveryUnits (shared c')) = length (deliveryUnits (shared c)).
Proof.
  intros Hc. step_kinds Hc; rewrite ?report_eq; simpl; try done.
  by eapply taskStep_units_length.
Qed.

Lemma start_indexed s : indexed (start s).
Proof. split; simpl; [constructor|done]. Qed.

Lemma step_indexed c c' : step c c' → indexed c → indexed c'.
Proof.
  intros Hc [Hts Hjs]. pose proof (step_units_length _ _ Hc) as Hlen.
  unfold indexed. rewrite Hlen. clear Hlen.
  step_kinds Hc; simpl in *; try (split; [constructor|done]).
  - split; [constructor|]. intros js [= <-]. apply Forall_forall.
    intros j ?%elem_of_seq. lia.
  - split; [done|]. intros js' [= <-].
    by eapply Forall_cons_1, (Hjs (j :: js)).
  - split.
    + apply Forall_app. split; [done|]. apply Forall_singleton. simpl.
      by eapply lookup_lt_Some.
    + intros js' [= <-]. by eapply Forall_cons_1, (Hjs (j :: js)).
  - split; [done|]. intros js [=].
  - split; [|done]. apply Forall_insert; [done|].
    by apply (Forall_lookup_1 _ _ _ _ Hts Hn).
Qed.

Lemma reachable_indexed c c' : reachable c c' → indexed c → indexed c'.
Proof. induction 1; eauto using step_indexed. Qed.

(** The counters, the flags and the trace along one step of the process. *)
Lemma step_ledger c c' :
  step c c' → consistent c → indexed c →
  ∃ evs, trace (shared c') = trace (shared c) ++ evs ∧
    (∀ k o', operations (shared c') !! k = Some o' →
       ∃ o, operations (shared c) !! k = Some o ∧
         (Operation.A o' + among (aboutToSend k) (tasks c)
            = Operation.A o + among (aboutToSend k) (tasks c') + sent k evs)%N ∧
         (Operation.B o' + among (aboutToCount k) (tasks c')
            = Operation.B o + among (aboutToCount k) (tasks c) + failed k evs)%N) ∧
    (N.of_nat (unitsReachedObjective (deliveryUnits (shared c')))
       + among aboutToMark (tasks c')
     = N.of_nat (unitsReachedObjective (deliveryUnits (shared c)))
       + among aboutToMark (tasks c) + succeeded 1 evs)%N.
Proof.
  intros Hc Hcons [Hts _].
  step_kinds Hc; rewrite ?report_eq; simpl in *.
  - eexists [_]. split; [done|]. split; [|tally; lia].
    intros k o' Hk. exists o'. split; [done|]. destruct k as [|[|k]]; tally; lia.
  - exists []. rewrite app_nil_r. split; [done|]. split; [|tally; lia].
    intros k o' Hk. exists o'. split; [done|]. tally; lia.
  - exists []. rewrite app_nil_r. split; [done|]. split; [|tally; lia].
    intros k o' Hk. exists o'. split; [done|]. tally; lia.
  - exists []. rewrite app_nil_r. split; [done|]. rewrite !among_app.
    split; [|tally; lia].
    intros k o' Hk. exists o'. split; [done|]. rewrite !among_app.
    destruct k as [|[|k]]; tally; lia.
  - exists []. rewrite app_nil_r. split; [done|]. split; [|tally; lia].
    intros k o' Hk. exists o'. split; [done|]. tally; lia.
  - destruct (taskStep_reports _ _ _ _ _ Hstep) as (evs & Htr & _ & _ & Hmark & _).
    exists evs. split; [done|]. split.
    + intros k o' Hk.
      destruct (taskStep_ledger _ _ _ _ _ k o' Hstep Hk)
        as (o & evs' & Ho & Htr' & HA & HB).
      assert (evs' = evs) as -> by (apply (app_inv_head (trace s)); congruence).
      exists o. split; [done|].
      pose proof (among_insert (aboutToSend k) ts n i t t' Hn).
      pose proof (among_insert (aboutToCount k) ts n i t t' Hn). lia.
    + pose proof (among_insert aboutToMark ts n i t t' Hn) as Hins.
      assert (N.of_nat (unitsReachedObjective (deliveryUnits s'))
              = (N.of_nat (unitsReachedObjective (deliveryUnits s)) + marking t)%N)
        as Hunits; [|lia].
      destruct t;
        try (destruct (taskStep_units _ _ _ _ _ Hstep) as [->|(? & _)];
             [simpl; lia|done]).
      assert (Hi : (i < length (deliveryUnits s))%nat)
        by apply (Forall_lookup_1 _ _ _ _ Hts Hn).
      apply lookup_lt_is_Some in Hi as [unit Hunit].
      step_cases Hstep.
      rewrite (unitsReachedObjective_alter _ _ unit Hunit); [lia|].
      destruct (GraphNode.Metadata unit) eqn:Hflag; [|done].
      assert (AtMark = Finished); [|done].
      apply (consistent_arrived _ Hcons n i); [done|]. by exists unit.
  - exists []. rewrite app_nil_r. split; [done|].
    assert (Hzero : ∀ f, f Finished = 0%N → among f ts = 0%N)
      by (intros f Hf; by apply among_finished).
    split.
    + intros k o' Hk. exists o'. split; [done|].
      rewrite !Hzero by by destruct k as [|[|k]]. tally; lia.
    + rewrite Hzero by done. tally; lia.
  - eexists [_; _]. rewrite <- app_assoc. split; [done|]. split; [|tally; lia].
    intros k o' Hk. exists o'. split; [done|]. destruct k as [|[|k]]; tally; lia.
Qed.

(** The counters, the flags and the trace along a run of the process. *)
Lemma reachable_ledger c c' :
  reachable c c' → consistent c → indexed c →
  ∃ evs, trace (shared c') = trace (shared c) ++ evs ∧
    (∀ k o', operations (shared c') !! k = Some o' →
       ∃ o, operations (shared c) !! k = Some o ∧
         (Operation.A o' + among (aboutToSend k) (tasks c)
            = Operation.A o + among (aboutToSend k) (tasks c') + sent k evs)%N ∧
         (Operation.B o' + among (aboutToCount k) (tasks c')
            = Operation.B o + among (aboutToCount k) (tasks c) + failed k evs)%N) ∧
    (N.of_nat (unitsReachedObjective (deliveryUnits (shared c')))
       + among aboutToMark (tasks c')
     = N.of_nat (unitsReachedObjective (deliveryUnits (shared c)))
       + among aboutToMark (tasks c) + succeeded 1 evs)%N.
Proof.
  induction 1 as [c|c c1 c2 Hstep _ IH]; intros Hcons Hidx.
  - exists []. rewrite app_nil_r. split; [done|]. split; [|tally; lia].
    intros k o' Hk. exists o'. split; [done|]. tally; lia.
  - destruct (step_ledger _ _ Hstep Hcons Hidx) as (evs1 & Htr1 & Hops1 & Harr1).
    destruct IH as (evs2 & Htr2 & Hops2 & Harr2);
      [by eapply step_consistent|by eapply step_indexed|].
    exists (evs1 ++ evs2). rewrite Htr2, Htr1, app_assoc. split; [done|].
    unfold sent, failed, succeeded in *. rewrite !total_app. split; [|lia].
    intros k o' Hk.
    destruct (Hops2 k o' Hk) as (o1 & Hk1 & HA2 & HB2).
    destruct (Hops1 k o1 Hk1) as (o & Hk0 & HA1 & HB1).
    exists o. split; [done|]. rewrite !total_app. lia.
Qed.

(** Past its loop [Run] has found every unit marked. *)
Lemma step_left c c' :
  step c c' → consistent c →
  (driver c ∈ [Leaving; Returned] → allReached (shared c) = true) →
  driver c' ∈ [Leaving; Returned] → allReached (shared c') = true.
Proof.
  intros Hc Hcons Hleft Hd.
  step_kinds Hc; rewrite ?report_eq; simpl in *;
    try (by not_among Hd); try done.
  - assert (Hd' : d ∈ [Counting; Leaving; Returned]) by by right.
    pose proof (consistent_idle _ Hcons Hd') as Hts. simpl in Hts.
    by rewrite Hts in Hn.
  - apply Hleft. by left.
Qed.

Lemma taskStep_connected i t s t' s' :
  taskStep i t s = Some (t', s') →
  is_Some (client.api (logisticsClient s)) →
  is_Some (client.api (logisticsClient s')).
Proof. intros Hstep Hapi. destruct t; step_cases Hstep; done. Qed.

Lemma taskStep_operations_length i t s t' s' :
  taskStep i t s = Some (t', s') →
  length (operations s') = length (operations s).
Proof.
  intros Hstep%taskStep_names.
  by rewrite <- (length_fmap Operation.Name), Hstep, length_fmap.
Qed.

(** The pacing update, statement by statement: the draw raises the ceiling
    by one at most, the halving takes at least that much back unless the
    ceiling is 0 by then. *)
Lemma taskStep_ceiling i t s t' s' :
  taskStep i t s = Some (t', s') →
  0 ≤ maxMoveWaitNumber s < max_int →
  0 ≤ maxMoveWaitNumber s' ∧
  (maxMoveWaitNumber s' = 0 ∨
   maxMoveWaitNumber s' + Z.of_N (aboutToHalve t)
     ≤ maxMoveWaitNumber s + Z.of_N (aboutToHalve t')).
Proof.
  intros Hstep Hc.
  destruct t; try (destruct (taskStep_pacing _ _ _ _ _ Hstep eq_refl) as (Hpast & -> & _);
                   split; [lia|right]; destruct t'; try done; simpl; lia).
  - step_cases Hstep. simpl. lia.
  - simpl in Hstep. unfold drawWait in Hstep.
    rewrite drawMoveWaitNumber_Some in Hstep by done. setters. simplify_eq. simpl.
    pose proof (Z.mod_pos_bound (raw (rng s) (cursor (rng s)))
                  (maxMoveWaitNumber s + 1)). lia.
  - step_cases Hstep. unfold halveMoveWaitNumber.
    case_bool_decide; [|lia]. rewrite Z.shiftr_div_pow2 by lia.
    change (2 ^ 1) with 2.
    pose proof (Z.div_pos (maxMoveWaitNumber s) 2).
    assert (maxMoveWaitNumber s `div` 2 < maxMoveWaitNumber s)
      by (apply Z.div_lt; lia).
    lia.
Qed.

(** With a connected client, both operations in place and a ceiling in
    range, no statement of a task panics. *)
Lemma taskStep_progress i t s :
  t ≠ Finished →
  (i < length (deliveryUnits s))%nat →
  is_Some (client.api (logisticsClient s)) →
  (2 ≤ length (operations s))%nat →
  0 ≤ maxMoveWaitNumber s < max_int →
  is_Some (taskStep i t s).
Proof.
  intros Hlive [unit Hunit]%lookup_lt_is_Some [stub Hapi] Hops Hc.
  destruct (lookup_lt_is_Some_2 (operations s) 0) as [o0 Ho0]; [lia|].
  destruct (lookup_lt_is_Some_2 (operations s) 1) as [o1 Ho1]; [lia|].
  destruct t; try done; simpl;
    unfold drawWait, moveToNearest, findWarehouse, addA, addB, sendMoveUnit,
      sendUnitReachedWarehouse, client.MoveUnit, client.UnitReachedWarehouse;
    rewrite ?Hunit, ?Ho0, ?Ho1, ?Hapi, ?drawMoveWaitNumber_Some by done; simpl;
    repeat case_match; done.
Qed.

Lemma start_sound s : ready s → sound (maxMoveWaitNumber s) (start s).
Proof.
  intros (Hapi & Hops & Hc & Hroom). split; simpl; try done.
  unfold among, total. simpl. lia.
Qed.

Lemma tasks_below c :
  consistent c → indexed c →
  (length (tasks c) ≤ length (deliveryUnits (shared c)))%nat.
Proof.
  intros Hcons [Hts _]. rewrite <- (length_fmap fst).
  apply NoDup_below; [apply Hcons|]. by apply Forall_fmap.
Qed.

Lemma sound_in_range bound c :
  consistent c → indexed c → sound bound c →
  0 ≤ maxMoveWaitNumber (shared c) < max_int.
Proof.
  intros Hcons Hidx [_ _ Hc Hroom].
  pose proof (tasks_below c Hcons Hidx).
  assert ((among aboutToHalve (tasks c) ≤ N.of_nat (length (tasks c)))%N)
    by (apply among_le_length; by intros []).
  lia.
Qed.

Lemma step_sound bound c c' :
  0 ≤ bound → step c c' → consistent c → indexed c → sound bound c →
  sound bound c'.
Proof.
  intros Hb Hc Hcons Hidx Hsound.
  pose proof (sound_in_range _ _ Hcons Hidx Hsound) as Hrange.
  destruct Hsound as [Hapi Hops Hceil Hroom].
  pose proof (step_units_length _ _ Hc) as Hlen.
  split; rewrite ?Hlen; [| | |done]; clear Hlen;
    step_kinds Hc; rewrite ?report_eq; simpl in *; try done.
  - by eapply taskStep_connected.
  - by erewrite taskStep_operations_length.
  - rewrite among_app. unfold among at 2, total. simpl. lia.
  - destruct (taskStep_ceiling _ _ _ _ _ Hstep Hrange) as [Hpos Hle].
    pose proof (among_insert aboutToHalve ts n i t t' Hn). lia.
  - unfold among, total. simpl.
    rewrite (among_finished aboutToHalve ts) in Hceil by done. lia.
Qed.

Lemma reachable_sound bound c c' :
  0 ≤ bound → reachable c c' → consistent c → indexed c → sound bound c →
  sound bound c'.
Proof.
  intros Hb. induction 1 as [c|c c1 c2 Hstep _ IH]; [done|].
  intros Hcons Hidx Hsound. apply IH;
    [by eapply step_consistent|by eapply step_indexed|by eapply step_sound].
Qed.

(** The tasks of a round are finished, or one of them is not. *)
Lemma tasks_finished_or_not ts :
  Forall (λ it, it.2 = Finished) ts ∨
  ∃ n i t, ts !! n = Some (i, t) ∧ t ≠ Finished.
Proof.
  induction ts as [|[i t] ts [IH|(n & j & t' & Hn & Hlive)]].
  - left. constructor.
  - destruct t; try (right; by eexists 0%nat, i, _).
    left. by constructor.
  - right. by exists (S n), j, t'.
Qed.

(** A task gets to the marking of its unit only through an arrival report
    that returned no error. *)
Lemma taskStep_marks i t s t' s' :
  taskStep i t s = Some (t', s') → aboutToMark t' = 1%N →
  aboutToMark t = 1%N ∨
  ∃ req, trace s' = trace s ++ [EvUnitReachedWarehouse i req None].
Proof.
  intros Hstep Hmark. destruct t; step_cases Hstep; try done; auto.
  right. by eexists.
Qed.

(** Every unit that is marked was marked when [Run] began or has had its
    arrival report go through since. *)
Lemma reachable_arrivals c0 c :
  reachable c0 c → consistent c0 → tasks c0 = [] →
  ∃ evs, trace (shared c) = trace (shared c0) ++ evs ∧
    (∀ j, arrived (shared c) j →
          arrived (shared c0) j ∨ Exists (arrivalOf j) evs) ∧
    (∀ n j t, tasks c !! n = Some (j, t) → aboutToMark t = 1%N →
              Exists (arrivalOf j) evs).
Proof.
  unfold reachable. intros Hreach Hcons0 Hts0. revert c Hreach.
  apply rtc_ind_r; [|intros c c' Hreach Hc (evs & Htr & Harr & Hmark)].
  { exists []. rewrite app_nil_r. split; [done|]. split; [auto|].
    intros n j t Hn. by rewrite Hts0 in Hn. }
  assert (Hcons : consistent c) by by eapply reachable_consistent.
  assert (Hmore : ∀ evs1 j, Exists (arrivalOf j) evs →
                            Exists (arrivalOf j) (evs ++ evs1))
    by (intros evs1 j Hj; apply Exists_app; by left).
  step_kinds Hc; rewrite ?report_eq; simpl in *.
  - eexists (evs ++ [_]). rewrite Htr, <- app_assoc. split; [done|].
    split; [intros j [Hj|Hj]%Harr; auto|done].
  - exists evs. split; [done|]. split; [done|]. by intros n j t [=].
  - by exists evs.
  - exists evs. split; [done|]. split; [done|].
    intros n j' t [Hn|[_ Hn]]%lookup_app_Some Ht; [by eapply Hmark|].
    destruct (n - length ts)%nat as [|?]; by simplify_eq/=.
  - by exists evs.
  - destruct (taskStep_trace _ _ _ _ _ Hstep) as (evs1 & Htr1 & _).
    exists (evs ++ evs1). rewrite Htr1, Htr, <- app_assoc. split; [done|]. split.
    + intros j Hj.
      destruct (taskStep_units _ _ _ _ _ Hstep) as [Heq|(-> & -> & Heq)].
      { unfold arrived in Hj. rewrite Heq in Hj.
        destruct (Harr j Hj); auto. }
      destruct (decide (j = i)) as [->|Hne].
      * right. apply Hmore. by eapply Hmark.
      * unfold arrived in Hj. rewrite Heq, list_lookup_alter_ne in Hj by done.
        destruct (Harr j Hj); auto.
    + intros m j t2 Hm Ht2. destruct (decide (m = n)) as [->|Hne].
      * rewrite list_lookup_insert_eq in Hm by by eapply lookup_lt_Some.
        simplify_eq.
        destruct (taskStep_marks _ _ _ _ _ Hstep Ht2) as [Ht|[req Hreq]].
        { apply Hmore. by eapply Hmark. }
        assert (evs1 = [EvUnitReachedWarehouse j req None]) as ->
          by (apply (app_inv_head (trace s)); congruence).
        apply Exists_app. right. constructor. by exists req.
      * rewrite list_lookup_insert_ne in Hm by done. apply Hmore. by eapply Hmark.
  - exists evs. split; [done|]. split; [done|]. by intros n j t [=].
  - eexists (evs ++ [_; _]). rewrite Htr, <- !app_assoc. split; [done|].
    split; [intros j [Hj|Hj]%Harr; auto|by intros n j t [=]].
Qed.



End RunInvariants.

(** ** [Run] and its tasks under every interleaving *)

Section RunProperties.
Context {Stub World : Type}.
Context `{!CoopLogisticsEngineAPIClient Stub} `{!WorldOperator World}.
Implicit Types s : ServiceInstance Stub World.
Implicit Types c : Config Stub World.
Implicit Types ts : list (nat * Task).

Lemma reachable_units_length c c' :
  reachable c c' →
  length (deliveryUnits (shared c')) = length (deliveryUnits (shared c)).
Proof.
  induction 1 as [c|c c1 c2 Hstep _ IH]; [done|].
  by rewrite IH, (step_units_length _ _ Hstep).
Qed.

Lemma reachable_left s0 c :
  reachable (start s0) c → driver c ∈ [Leaving; Returned] →
  allReached (shared c) = true.
Proof.
  unfold reachable. intros Hreach. revert c Hreach.
  apply (rtc_ind_r (λ c, driver c ∈ [Leaving; Returned] →
                         allReached (shared c) = true));
    [intros Hd; not_among Hd|].
  intros c c' Hreach Hc IH. eapply step_left; [done| |done].
  eapply reachable_consistent; [done|apply start_consistent].
Qed.

(** X4: [Run] on a ready service neither panics nor blocks.  In every state
    the process can reach, each task that has not returned can take its next
    statement (the stub is there, the operations are, the unit is, and
    [rand.Intn] gets a positive bound), and the process as a whole can take a
    step unless [Run] has returned. *)
Theorem run_neither_panics_nor_blocks s0 c :
  ready s0 → reachable (start s0) c →
  (∀ n i t, tasks c !! n = Some (i, t) → t ≠ Finished →
     is_Some (taskStep i t (shared c))) ∧
  (driver c = Returned ∨ ∃ c', step c c').
Proof.
  intros Hready Hreach.
  assert (Hb : 0 ≤ maxMoveWaitNumber s0) by apply Hready.
  assert (Hcons : consistent c)
    by (eapply reachable_consistent; [done|apply start_consistent]).
  assert (Hidx : indexed c)
    by (eapply reachable_indexed; [done|apply start_indexed]).
  assert (Hsound : sound (maxMoveWaitNumber s0) c).
  { eapply reachable_sound; [done|done|apply start_consistent|apply start_indexed|].
    by apply start_sound. }
  pose proof (sound_in_range _ _ Hcons Hidx Hsound) as Hrange.
  assert (Htask : ∀ n i t, tasks c !! n = Some (i, t) → t ≠ Finished →
                    is_Some (taskStep i t (shared c))).
  { intros n i t Hn Hlive. apply taskStep_progress; try done; try apply Hsound.
    destruct Hidx as [Hts _]. by apply (Forall_lookup_1 _ _ _ _ Hts Hn). }
  split; [done|].
  destruct c as [d ts s]. simpl in *. destruct d as [|js| | |].
  - right. assert (ts = []) as -> by (apply (consistent_idle _ Hcons); by left).
    destruct (allReached s) eqn:Hall; eexists; by constructor.
  - right. destruct js as [|j js]; [eexists; by constructor|].
    destruct Hidx as [_ Hjs]. specialize (Hjs _ eq_refl).
    apply Forall_cons_1 in Hjs as [[unit Hj]%lookup_lt_is_Some _]. simpl in Hj.
    destruct (GraphNode.Metadata unit) eqn:Hflag; eexists.
    + by eapply step_skip.
    + by eapply step_go.
  - right. destruct (tasks_finished_or_not ts) as [Hfin|(n & i & t & Hn & Hlive)].
    + eexists. by constructor.
    + destruct (Htask n i t Hn Hlive) as [[t' s'] Hstep].
      eexists. by eapply step_task.
  - right. assert (ts = []) as ->
      by (apply (consistent_idle _ Hcons); right; by left).
    eexists. by apply (step_report 0).
  - by left.
Qed.


(** X6: the counters of an operation count its RPCs.  In every state the
    process can reach, the attempts counted since [Run] began are the RPCs of
    that operation sent since then plus the tasks that have counted and are
    about to send, and the errors counted are the RPCs that returned an error
    less the tasks that are about to count theirs; with no task under way
    (between rounds, and when [Run] returns) both are exact. *)
Theorem counters_match_the_rpcs s0 c k o0 o :
  reachable (start s0) c →
  operations s0 !! k = Some o0 → operations (shared c) !! k = Some o →
  ∃ evs, trace (shared c) = trace s0 ++ evs ∧
    Operation.A o
      = (Operation.A o0 + sent k evs + among (aboutToSend k) (tasks c))%N ∧
    (Operation.B o + among (aboutToCount k) (tasks c))%N
      = (Operation.B o0 + failed k evs)%N ∧
    (Forall (λ it, it.2 = Finished) (tasks c) →
       Operation.A o = (Operation.A o0 + sent k evs)%N ∧
       Operation.B o = (Operation.B o0 + failed k evs)%N).
Proof.
  intros Hreach Hk0 Hk.
  destruct (reachable_ledger _ _ Hreach (start_consistent s0) (start_indexed s0))
    as (evs & Htr & Hops & _).
  destruct (Hops k o Hk) as (o0' & Hk0' & HA & HB). simpl in *.
  assert (o0' = o0) as -> by (unfold operations in *; simpl in *; congruence).
  exists evs. split; [done|].
  assert (among (aboutToSend k) ([] : list (nat * Task)) = 0%N) as Hs by done.
  assert (among (aboutToCount k) ([] : list (nat * Task)) = 0%N) as Hc by done.
  rewrite Hs in HA. rewrite Hc in HB.
  split; [lia|]. split; [lia|]. intros Hfin.
  rewrite (among_finished (aboutToSend k)) in HA by by destruct k as [|[|k]].
  rewrite (among_finished (aboutToCount k)) in HB by by destruct k as [|[|k]].
  lia.
Qed.

(** X7: the units are marked by the arrival reports that go through, one
    each.  In every state the process can reach, the units marked and the
    tasks about to mark theirs are as many as the units that were marked when
    [Run] began and the arrival reports that returned no error since.  When
    [Run] has left its loop, these reports are as many as the units that were
    not marked when it began, and the attempts of "UnitReachedWarehouse"
    counted since then exceed the errors by that number. *)
Theorem arrivals_match_the_reports s0 c :
  reachable (start s0) c →
  ∃ evs, trace (shared c) = trace s0 ++ evs ∧
    (N.of_nat (unitsReachedObjective (deliveryUnits (shared c)))
       + among aboutToMark (tasks c)
     = N.of_nat (unitsReachedObjective (GetDeliveryUnit (worldOperator s0)))
       + succeeded 1 evs)%N ∧
    (driver c ∈ [Leaving; Returned] →
       succeeded 1 evs = N.of_nat (unitsPending (GetDeliveryUnit (worldOperator s0))) ∧
       ∀ o0 o, operations s0 !! 1%nat = Some o0 →
               operations (shared c) !! 1%nat = Some o →
               (Operation.A o + Operation.B o0
                = Operation.A o0 + Operation.B o
                  + N.of_nat (unitsPending (GetDeliveryUnit (worldOperator s0))))%N).
Proof.
  intros Hreach.
  destruct (reachable_ledger _ _ Hreach (start_consistent s0) (start_indexed s0))
    as (evs & Htr & Hops & Harr).
  simpl in *. exists evs. split; [done|].
  assert (among aboutToMark ([] : list (nat * Task)) = 0%N) as Hm by done.
  rewrite Hm in Harr. split; [lia|]. intros Hd.
  assert (Hcons : consistent c)
    by (eapply reachable_consistent; [done|apply start_consistent]).
  assert (tasks c = []) as Hts by (apply (consistent_idle _ Hcons); by right).
  pose proof (reachable_left _ _ Hreach Hd) as Hall.
  apply allReached_count in Hall.
  pose proof (reachable_units_length _ _ Hreach) as Hlen. simpl in Hlen.
  pose proof (unitsPending_reached (GetDeliveryUnit (worldOperator s0))) as Hsplit.
  rewrite Hts, Hm in Harr.
  assert (Hok : succeeded 1 evs
                = N.of_nat (unitsPending (GetDeliveryUnit (worldOperator s0))))
    by lia.
  split; [done|]. intros o0 o Hk0 Hk.
  destruct (Hops 1%nat o Hk) as (o0' & Hk0' & HA & HB).
  assert (o0' = o0) as -> by (unfold operations in *; simpl in *; congruence).
  rewrite Hts in HA, HB.
  assert (among (aboutToSend 1) ([] : list (nat * Task)) = 0%N) as Hs by done.
  assert (among (aboutToCount 1) ([] : list (nat * Task)) = 0%N) as Hc by done.
  rewrite Hs in HA. rewrite Hc in HB.
  pose proof (sent_split 1 evs). lia.
Qed.

(** X8: a unit is marked only after an arrival report for it that returned
    no error, and [Run] leaves its loop only when every unit has had one:
    there is no limit to the rounds, and no failure makes [Run] give a unit
    up. *)
Theorem marked_only_after_a_report_went_through s0 i :
  (∀ c, reachable (start s0) c →
     ∃ evs, trace (shared c) = trace s0 ++ evs ∧
       (arrived (shared c) i →
          arrived (shared (start s0)) i ∨ Exists (arrivalOf i) evs) ∧
       (driver c ∈ [Leaving; Returned] → pending (shared (start s0)) i →
          Exists (arrivalOf i) evs)) ∧
  (∀ fuel now n s', Run fuel now s0 = Exited n s' →
     pending (shared (start s0)) i →
     ∃ evs, trace s' = trace s0 ++ evs ∧ Exists (arrivalOf i) evs).
Proof.
  assert (Hgen : ∀ c, reachable (start s0) c →
     ∃ evs, trace (shared c) = trace s0 ++ evs ∧
       (arrived (shared c) i →
          arrived (shared (start s0)) i ∨ Exists (arrivalOf i) evs) ∧
       (driver c ∈ [Leaving; Returned] → pending (shared (start s0)) i →
          Exists (arrivalOf i) evs)).
  { intros c Hreach.
    destruct (reachable_arrivals _ _ Hreach (start_consistent s0) eq_refl)
      as (evs & Htr & Harr & _).
    exists evs. split; [done|]. split; [apply Harr|].
    intros Hd (unit & Hunit & Hflag).
    pose proof (reachable_left _ _ Hreach Hd) as Hall.
    rewrite allReached_arrived in Hall.
    destruct (Harr i) as [(unit' & Hunit' & Hflag')|Hev]; [|congruence|done].
    apply Hall. rewrite (reachable_units_length _ _ Hreach).
    by eapply lookup_lt_Some. }
  split; [done|]. intros fuel now n s' Hrun Hpend.
  destruct (Hgen _ (Run_steps _ _ _ _ _ Hrun)) as (evs & Htr & _ & Hleft).
  exists evs. split; [done|]. apply Hleft; [|done]. right. by left.
Qed.

Lemma taskStep_refused i t s t' s' :
  (∀ st req, (stub_UnitReachedWarehouse st req).2 ≠ None) →
  taskStep i t s = Some (t', s') →
  ∃ evs, trace s' = trace s ++ evs ∧ Forall (λ e, ∀ j, ¬ arrivalOf j e) evs.
Proof.
  intros Hrefuse Hstep.
  destruct t; step_cases Hstep;
    first [ by exists []; rewrite app_nil_r
          | eexists [_]; split; [done|]; apply Forall_singleton;
            intros j [req Hreq]; try done ].
  simplify_eq.
  match goal with
  | H : stub_UnitReachedWarehouse ?st ?r = _ |- _ =>
      apply (Hrefuse st r); by rewrite H
  end.
Qed.

Lemma step_refused c c' :
  (∀ st req, (stub_UnitReachedWarehouse st req).2 ≠ None) →
  step c c' →
  ∃ evs, trace (shared c') = trace (shared c) ++ evs ∧
    Forall (λ e, ∀ j, ¬ arrivalOf j e) evs.
Proof.
  intros Hrefuse Hc.
  step_kinds Hc; rewrite ?report_eq; simpl;
    try (by exists []; rewrite app_nil_r).
  - eexists [_]. split; [done|]. apply Forall_singleton. by intros j [req Hreq].
  - by eapply taskStep_refused.
  - eexists [_; _]. rewrite <- app_assoc. split; [done|].
    repeat (apply Forall_cons_2; [by intros j [req Hreq]|]). constructor.
Qed.

Lemma reachable_refused c c' :
  (∀ st req, (stub_UnitReachedWarehouse st req).2 ≠ None) →
  reachable c c' →
  ∃ evs, trace (shared c') = trace (shared c) ++ evs ∧
    Forall (λ e, ∀ j, ¬ arrivalOf j e) evs.
Proof.
  intros Hrefuse. induction 1 as [c|c c1 c2 Hstep _ (evs2 & Htr2 & Hevs2)].
  - exists []. by rewrite app_nil_r.
  - destruct (step_refused _ _ Hrefuse Hstep) as (evs1 & Htr1 & Hevs1).
    exists (evs1 ++ evs2). rewrite Htr2, Htr1, app_assoc. split; [done|].
    by apply Forall_app.
Qed.

(** X15: there is no limit to the retries.  With a server that refuses
    every arrival report, a unit that is not marked when [Run] begins is
    never marked, and [Run] never leaves its loop: it does not return,
    whatever the number of rounds. *)
Theorem run_goes_on_while_arrival_reports_fail s0 i :
  (∀ st req, (stub_UnitReachedWarehouse st req).2 ≠ None) →
  pending (shared (start s0)) i →
  (∀ c, reachable (start s0) c →
     pending (shared c) i ∧ driver c ∉ [Leaving; Returned]) ∧
  (∀ fuel now n s', Run fuel now s0 ≠ Exited n s').
Proof.
  intros Hrefuse Hpend.
  assert (Hgen : ∀ c, reachable (start s0) c →
            pending (shared c) i ∧ driver c ∉ [Leaving; Returned]).
  { intros c Hreach.
    destruct (reachable_refused _ _ Hrefuse Hreach) as (evs & Htr & Hevs).
    destruct (reachable_arrivals _ _ Hreach (start_consistent s0) eq_refl)
      as (evs' & Htr' & Harr & _).
    assert (evs' = evs) as ->
      by (apply (app_inv_head (trace (shared (start s0)))); congruence).
    assert (Hnot : ¬ arrived (shared c) i).
    { intros [Hi|Hi]%Harr.
      - destruct Hpend as (unit & Hunit & Hflag), Hi as (unit' & Hunit' & Hflag').
        congruence.
      - apply Exists_exists in Hi as (e & He & Hi).
        rewrite Forall_forall in Hevs. by apply (Hevs e He i). }
    assert (Hi : (i < length (deliveryUnits (shared c)))%nat).
    { rewrite (reachable_units_length _ _ Hreach).
      destruct Hpend as (unit & Hunit & _). by eapply lookup_lt_Some. }
    split.
    - apply lookup_lt_is_Some in Hi as [unit Hunit]. exists unit. split; [done|].
      destruct (GraphNode.Metadata unit) eqn:Hflag; [|done].
      destruct Hnot. by exists unit.
    - intros Hd. apply Hnot.
      pose proof (reachable_left _ _ Hreach Hd) as Hall.
      rewrite allReached_arrived in Hall. by apply Hall. }
  split; [done|]. intros fuel now n s' Hrun.
  destruct (Hgen _ (Run_steps _ _ _ _ _ Hrun)) as [_ Hd].
  apply Hd. right. by left.
Qed.

(** The table and the clock of the construction are left alone until [Run]
    is past its loop. *)
Lemma taskStep_table i t s t' s' :
  taskStep i t s = Some (t', s') →
  reportTable s' = reportTable s ∧
  Statistics.ExecTime (statistics s') = Statistics.ExecTime (statistics s).
Proof. intros Hstep. destruct t; step_cases Hstep; done. Qed.

Lemma reachable_table c c' :
  reachable c c' → driver c' ≠ Returned →
  reportTable (shared c') = reportTable (shared c) ∧
  Statistics.ExecTime (statistics (shared c'))
    = Statistics.ExecTime (statistics (shared c)).
Proof.
  unfold reachable. intros Hreach. revert c' Hreach.
  apply (rtc_ind_r (λ c', driver c' ≠ Returned →
           reportTable (shared c') = reportTable (shared c) ∧
           Statistics.ExecTime (statistics (shared c'))
             = Statistics.ExecTime (statistics (shared c)))); [done|].
  intros c1 c2 Hreach Hc IH Hd.
  step_kinds Hc; simpl in *; try (by destruct Hd); try (by apply IH).
  destruct (taskStep_table _ _ _ _ _ Hstep) as [-> ->]. by apply IH.
Qed.

(** X16: the table that [Run] prints counts the RPCs.  On a service whose
    two operations have no attempt and no error yet, as the constructor
    leaves them, the rows that [Run] adds and prints when it returns are
    "MoveUnit" and "UnitReachedWarehouse", each with the number of its RPCs
    sent during the run and the number of those that returned an error; the
    time printed is the time since the construction. *)
Theorem printed_table_counts_the_rpcs fuel now s0 n s' :
  operations s0
    = [ {| Operation.Name := "MoveUnit"; Operation.A := 0; Operation.B := 0 |};
        {| Operation.Name := "UnitReachedWarehouse";
           Operation.A := 0; Operation.B := 0 |} ] →
  Run fuel now s0 = Exited n s' →
  ∃ evs,
    trace s' = trace s0 ++ evs ++
      [EvPrintExecTime (time_Since now (Statistics.ExecTime (statistics s0)));
       EvPrintTable (reportTable s')] ∧
    reportTable s'
      = {| ASCIITablePrinter.header := ASCIITablePrinter.header (reportTable s0);
           ASCIITablePrinter.rows :=
             ASCIITablePrinter.rows (reportTable s0) ++
               [ ["MoveUnit"; pretty (sent 0 evs); pretty (failed 0 evs)];
                 ["UnitReachedWarehouse"; pretty (sent 1 evs);
                  pretty (failed 1 evs)] ] |}.
Proof.
  intros Hops0 (s1 & Hloop & ->)%Run_Exited.
  pose proof (roundLoop_steps _ _ _ _ _ Hloop) as Hreach.
  change {| driver := Counting; tasks := [];
            shared := set_deliveryUnits (GetDeliveryUnit (worldOperator s0)) s0 |}
    with (start s0) in Hreach.
  destruct (reachable_table _ _ Hreach) as [Htable Hclock]; [done|].
  destruct (reachable_ledger _ _ Hreach (start_consistent s0) (start_indexed s0))
    as (evs & Htr & Hcount & _).
  pose proof (reachable_names _ _ Hreach) as Hnames.
  simpl in *. unfold operations in *. simpl in *. rewrite Hops0 in Hnames, Hcount.
  destruct (Statistics.Operation (statistics s1)) as [|o0 [|o1 [|o2 ops]]] eqn:Hops1;
    simplify_eq/=.
  destruct (Hcount 0%nat o0 eq_refl) as (o & [= <-] & HA0 & HB0).
  destruct (Hcount 1%nat o1 eq_refl) as (o & [= <-] & HA1 & HB1).
  assert (among (aboutToSend 0) ([] : list (nat * Task)) = 0%N) as Hs0 by done.
  assert (among (aboutToCount 0) ([] : list (nat * Task)) = 0%N) as Hc0 by done.
  assert (among (aboutToSend 1) ([] : list (nat * Task)) = 0%N) as Hs1 by done.
  assert (among (aboutToCount 1) ([] : list (nat * Task)) = 0%N) as Hc1 by done.
  rewrite Hs0 in HA0. rewrite Hc0 in HB0. rewrite Hs1 in HA1. rewrite Hc1 in HB1.
  simpl in *.
  exists evs. rewrite Htr, Htable, Hclock.
  unfold ASCIITablePrinter.AddRow, reportRow. simpl.
  replace (Operation.A o0) with (sent 0 evs) by lia.
  replace (Operation.B o0) with (failed 0 evs) by lia.
  replace (Operation.A o1) with (sent 1 evs) by lia.
  replace (Operation.B o1) with (failed 1 evs) by lia.
  match goal with H : Operation.Name o0 = _ |- _ => rewrite H end.
  match goal with H : Operation.Name o1 = _ |- _ => rewrite H end.
  rewrite <- !app_assoc. simpl.
  done.
Qed.

End RunProperties.

(** ** One task, and one round of tasks *)

Section TaskProperties.
Context {Stub World : Type}.
Context `{!CoopLogisticsEngineAPIClient Stub} `{!WorldOperator World}.
Implicit Types s : ServiceInstance Stub World.

Lemma taskRun_finished i s t' s' : taskRun i Finished s t' s' → t' = Finished ∧ s' = s.
Proof. by inversion 1. Qed.

(** The flags along the run of a task: only its last statement may set
    one, and it is the flag of the task's own unit. *)
Lemma taskRun_units i t s t' s' :
  taskRun i t s t' s' →
  deliveryUnits s' = deliveryUnits s ∨
  deliveryUnits s' = alter GraphNode.reach i (deliveryUnits s).
Proof.
  induction 1 as [|t s t1 s1 t2 s2 Hstep Hrun IH]; [by left|].
  destruct (taskStep_units _ _ _ _ _ Hstep) as [<-|(_ & -> & <-)]; [done|].
  apply taskRun_finished in Hrun as [_ ->]. by right.
Qed.

(** The reports and the counters along the run of a task. *)
Lemma taskRun_ledger i t s t' s' :
  taskRun i t s t' s' →
  ∃ evs, trace s' = trace s ++ evs ∧
    (sent 0 evs + moveAhead t' = moveAhead t)%N ∧
    (sent 1 evs + reachAhead t' ≤ reachAhead t)%N ∧
    Forall (λ e, ∀ j, rpcOf e = Some j → j = i) evs ∧
    ∀ k o', operations s' !! k = Some o' →
      ∃ o, operations s !! k = Some o ∧
        (Operation.A o' + aboutToSend k t
           = Operation.A o + aboutToSend k t' + sent k evs)%N ∧
        (Operation.B o' + aboutToCount k t'
           = Operation.B o + aboutToCount k t + failed k evs)%N.
Proof.
  induction 1 as [t s|t s t1 s1 t2 s2 Hstep _ (evs2 & Htr2 & Hm2 & Hr2 & Hown2 & Hops2)].
  - exists []. rewrite app_nil_r. split; [done|]. split; [tally; lia|].
    split; [tally; lia|]. split; [constructor|].
    intros k o' Hk. exists o'. split; [done|]. tally; lia.
  - destruct (taskStep_reports _ _ _ _ _ Hstep) as (evs1 & Htr1 & Hm1 & Hr1 & _).
    destruct (taskStep_trace _ _ _ _ _ Hstep) as (evs1' & Htr1' & Hown1).
    assert (evs1' = evs1) as -> by (apply (app_inv_head (trace s)); congruence).
    exists (evs1 ++ evs2). rewrite Htr2, Htr1, app_assoc. split; [done|].
    unfold sent, failed in *. rewrite !total_app.
    split; [lia|]. split; [lia|]. split.
    { apply Forall_app. split; [|done]. eapply Forall_impl; [exact Hown1|].
      by intros e [_ He]. }
    intros k o' Hk.
    destruct (Hops2 k o' Hk) as (o1 & Hk1 & HA2 & HB2).
    destruct (taskStep_ledger _ _ _ _ _ k o1 Hstep Hk1)
      as (o & evs1' & Hk0 & Htr1'' & HA1 & HB1).
    assert (evs1' = evs1) as -> by (apply (app_inv_head (trace s)); congruence).
    exists o. split; [done|]. unfold sent, failed in *. rewrite !total_app. lia.
Qed.

Lemma processDelivery_ledger i s s' :
  processDelivery i s = Some s' →
  ∃ evs, trace s' = trace s ++ evs ∧
    sent 0 evs = 1%N ∧ (sent 1 evs ≤ 1)%N ∧
    Forall (λ e, ∀ j, rpcOf e = Some j → j = i) evs ∧
    ∀ k o', operations s' !! k = Some o' →
      ∃ o, operations s !! k = Some o ∧
        Operation.A o' = (Operation.A o + sent k evs)%N ∧
        Operation.B o' = (Operation.B o + failed k evs)%N.
Proof.
  intros Hrun%processDelivery_taskRun.
  destruct (taskRun_ledger _ _ _ _ _ Hrun) as (evs & Htr & Hm & Hr & Hown & Hops).
  exists evs. simpl in *. split; [done|]. split; [lia|]. split; [lia|].
  split; [done|]. intros k o' Hk. destruct (Hops k o' Hk) as (o & Hk0 & HA & HB).
  exists o. split; [done|]. destruct k as [|[|k]]; simpl in *; lia.
Qed.

Lemma processDelivery_units i s s' :
  processDelivery i s = Some s' →
  deliveryUnits s' = deliveryUnits s ∨
  deliveryUnits s' = alter GraphNode.reach i (deliveryUnits s).
Proof. intros Hrun%processDelivery_taskRun. by eapply taskRun_units. Qed.

(** The fan-out over the units [later], which stand behind [earlier] in the
    slice. *)
Lemma fanOut_ledger (earlier later : list GraphNode.t) s s' :
  deliveryUnits s = earlier ++ later →
  fanOut (seq (length earlier) (length later)) s = Some s' →
  ∃ evs, trace s' = trace s ++ evs ∧
    sent 0 evs = N.of_nat (unitsPending later) ∧
    (sent 1 evs ≤ N.of_nat (unitsPending later))%N ∧
    ∀ k o', operations s' !! k = Some o' →
      ∃ o, operations s !! k = Some o ∧
        Operation.A o' = (Operation.A o + sent k evs)%N ∧
        Operation.B o' = (Operation.B o + failed k evs)%N.
Proof.
  revert earlier s. induction later as [|u later IH]; intros earlier s Hunits Hfan.
  { simpl in Hfan. simplify_eq. exists []. rewrite app_nil_r.
    split; [done|]. split; [done|]. split; [done|].
    intros k o' Hk. exists o'. split; [done|]. tally; lia. }
  simpl in Hfan.
  assert (Hu : deliveryUnits s !! length earlier = Some u)
    by (rewrite Hunits; apply list_lookup_middle; done).
  rewrite Hu in Hfan. simpl in Hfan.
  assert (Hnext : ∀ u', S (length earlier) = length (earlier ++ [u']))
    by (intros u'; rewrite length_app; simpl; lia).
  unfold unitsPending in *.
  destruct (GraphNode.Metadata u) eqn:Hflag.
  - rewrite filter_cons_False by by rewrite Hflag.
    rewrite (Hnext u) in Hfan. apply IH in Hfan; [done|].
    by rewrite <- app_assoc.
  - rewrite filter_cons_True by done.
    destruct (processDelivery (length earlier) s) as [s1|] eqn:Hrun;
      simpl in Hfan; [|done].
    destruct (processDelivery_ledger _ _ _ Hrun) as (evs1 & Htr1 & Hm1 & Hr1 & _ & Hops1).
    assert (∃ u', deliveryUnits s1 = (earlier ++ [u']) ++ later) as [u' Hunits1].
    { destruct (processDelivery_units _ _ _ Hrun) as [->| ->].
      - exists u. by rewrite <- app_assoc.
      - exists (GraphNode.reach u). rewrite Hunits, <- app_assoc.
        rewrite alter_app_r_alt by done. by rewrite Nat.sub_diag. }
    rewrite (Hnext u') in Hfan.
    destruct (IH _ _ Hunits1 Hfan) as (evs2 & Htr2 & Hm2 & Hr2 & Hops2).
    exists (evs1 ++ evs2). rewrite Htr2, Htr1, app_assoc. split; [done|].
    unfold sent, failed in *. rewrite !total_app. simpl.
    split; [lia|]. split; [lia|].
    intros k o' Hk.
    destruct (Hops2 k o' Hk) as (o1 & Hk1 & HA2 & HB2).
    destruct (Hops1 k o1 Hk1) as (o & Hk0 & HA1 & HB1).
    exists o. split; [done|]. unfold sent, failed in *. rewrite !total_app. lia.
Qed.

(** X9: every task sends exactly one movement report, whether its unit has
    moved or not, and at most one arrival report, both for its own unit, and
    it counts one attempt for each report it sends and one error for each
    that fails.  A round therefore sends as many movement reports as there
    are units that are not marked when it begins. *)
Theorem one_movement_report_per_task :
  (∀ i s s', processDelivery i s = Some s' →
     ∃ evs, trace s' = trace s ++ evs ∧
       sent 0 evs = 1%N ∧ (sent 1 evs ≤ 1)%N ∧
       Forall (λ e, ∀ j, rpcOf e = Some j → j = i) evs ∧
       ∀ k o', operations s' !! k = Some o' →
         ∃ o, operations s !! k = Some o ∧
           Operation.A o' = (Operation.A o + sent k evs)%N ∧
           Operation.B o' = (Operation.B o + failed k evs)%N) ∧
  (∀ s s', round s = Some s' →
     ∃ evs, trace s' = trace s ++ evs ∧
       sent 0 evs = N.of_nat (unitsPending (deliveryUnits s)) ∧
       (sent 1 evs ≤ N.of_nat (unitsPending (deliveryUnits s)))%N ∧
       ∀ k o', operations s' !! k = Some o' →
         ∃ o, operations s !! k = Some o ∧
           Operation.A o' = (Operation.A o + sent k evs)%N ∧
           Operation.B o' = (Operation.B o + failed k evs)%N).
Proof.
  split; [apply processDelivery_ledger|].
  intros s s' Hround. by apply (fanOut_ledger [] (deliveryUnits s)).
Qed.

Lemma processDelivery_halves i s s' :
  0 ≤ maxMoveWaitNumber s < max_int → processDelivery i s = Some s' →
  0 ≤ 2 * maxMoveWaitNumber s' ≤ maxMoveWaitNumber s + 1.
Proof.
  intros Hc [Hnext _]%processDelivery_pacing. by eapply nextMoveWaitNumber_halves.
Qed.

Lemma fanOut_decay js s s' :
  0 ≤ maxMoveWaitNumber s < max_int → fanOut js s = Some s' →
  ∃ evs, trace s' = trace s ++ evs ∧
    0 ≤ maxMoveWaitNumber s' ≤ maxMoveWaitNumber s ∧
    maxMoveWaitNumber s' * 2 ^ Z.of_N (sent 0 evs)
      ≤ maxMoveWaitNumber s + 2 ^ Z.of_N (sent 0 evs) - 1.
Proof.
  revert s. induction js as [|j js IH]; intros s Hc Hfan; simpl in Hfan.
  - simplify_eq. exists []. rewrite app_nil_r. split; [done|]. split; [lia|].
    apply decayed_refl.
  - destruct (deliveryUnits s !! j) as [unit|]; simpl in Hfan; [|done].
    destruct (GraphNode.Metadata unit); [by apply IH|].
    destruct (processDelivery j s) as [s1|] eqn:Hrun; simpl in Hfan; [|done].
    destruct (processDelivery_ledger _ _ _ Hrun) as (evs1 & Htr1 & Hm1 & _).
    pose proof (processDelivery_halves _ _ _ Hc Hrun) as Hhalf.
    destruct (IH s1) as (evs2 & Htr2 & Hc2 & Hdecay); [lia|done|].
    exists (evs1 ++ evs2). rewrite Htr2, Htr1, app_assoc. split; [done|].
    split; [lia|]. unfold sent in *. rewrite total_app, N2Z.inj_add.
    apply (decayed_trans _ (maxMoveWaitNumber s1)); try lia.
    rewrite Hm1. change (2 ^ Z.of_N 1) with 2. lia.
Qed.

Lemma afterRounds_decay n s sn :
  0 ≤ maxMoveWaitNumber s < max_int → afterRounds n s = Some sn →
  ∃ evs, trace sn = trace s ++ evs ∧
    0 ≤ maxMoveWaitNumber sn ≤ maxMoveWaitNumber s ∧
    maxMoveWaitNumber sn * 2 ^ Z.of_N (sent 0 evs)
      ≤ maxMoveWaitNumber s + 2 ^ Z.of_N (sent 0 evs) - 1.
Proof.
  intros Hc. revert sn. induction n as [|n IH]; intros sn Hn; simpl in Hn.
  - simplify_eq. exists []. rewrite app_nil_r. split; [done|]. split; [lia|].
    apply decayed_refl.
  - destruct (afterRounds n s) as [sm|]; simpl in Hn; [|done].
    destruct (IH sm) as (evs1 & Htr1 & Hc1 & Hd1); [done|].
    destruct (fanOut_decay _ sm sn ltac:(lia) Hn) as (evs2 & Htr2 & Hc2 & Hd2).
    exists (evs1 ++ evs2). rewrite Htr2, Htr1, app_assoc. split; [done|].
    split; [lia|]. unfold sent in *. rewrite total_app, N2Z.inj_add.
    apply (decayed_trans _ (maxMoveWaitNumber sm)); lia.
Qed.

(** X12: run one task after the other, the pacing ceiling at least halves,
    rounding up, with every task: a task leaves a ceiling [c'] with
    [2 * c' <= c + 1], and after the rounds in which [m] movement reports
    were sent (one per task) the ceiling [c'] has [c' * 2^m <= c + 2^m - 1].
    From the 100 of the constructor it is 1 at most once 7 tasks have run. *)
Theorem pacing_halves_with_every_task :
  (∀ i s s', 0 ≤ maxMoveWaitNumber s < max_int → processDelivery i s = Some s' →
     0 ≤ 2 * maxMoveWaitNumber s' ≤ maxMoveWaitNumber s + 1) ∧
  (∀ n s sn, 0 ≤ maxMoveWaitNumber s < max_int → afterRounds n s = Some sn →
     ∃ evs, trace sn = trace s ++ evs ∧
       0 ≤ maxMoveWaitNumber sn ∧
       maxMoveWaitNumber sn * 2 ^ Z.of_N (sent 0 evs)
         ≤ maxMoveWaitNumber s + 2 ^ Z.of_N (sent 0 evs) - 1 ∧
       (maxMoveWaitNumber s ≤ 100 → (7 ≤ sent 0 evs)%N →
          maxMoveWaitNumber sn ≤ 1)).
Proof.
  split; [apply processDelivery_halves|].
  intros n s sn Hc Hn.
  destruct (afterRounds_decay _ _ _ Hc Hn) as (evs & Htr & Hc' & Hd).
  exists evs. split; [done|]. split; [lia|]. split; [done|].
  intros Hs Hm.
  assert (2 ^ 7 ≤ 2 ^ Z.of_N (sent 0 evs)) by (apply Z.pow_le_mono_r; lia).
  change (2 ^ 7) with 128 in *. nia.
Qed.

Lemma processDelivery_cost i s s' :
  0 ≤ maxMoveWaitNumber s → maxMoveWaitNumber s * 1000 ≤ max_int →
  processDelivery i s = Some s' →
  ∃ evs, trace s' = trace s ++ evs ∧ sent 0 evs = 1%N ∧
    0 ≤ maxMoveWaitNumber s' ≤ maxMoveWaitNumber s ∧
    slept evs + 2000 * maxMoveWaitNumber s' ≤ 2000 * maxMoveWaitNumber s + 1000.
Proof.
  intros Hc Hle Hrun.
  assert (Hm : max_int = 2 ^ 63 - 1) by done.
  assert (Hrange : 0 ≤ maxMoveWaitNumber s < max_int) by lia.
  destruct (processDelivery_ledger _ _ _ Hrun) as (evs & Htr & Hone & _).
  destruct (processDelivery_pacing _ _ _ Hrun) as (_ & evs' & Htr' & Hevs').
  pose proof (processDelivery_halves _ _ _ Hrange Hrun) as Hhalf.
  pose proof (processDelivery_ceiling _ _ _ Hrange Hrun) as Hceil.
  assert (evs = EvSleep (moveWait (maxMoveWaitNumber s)) :: evs') as ->
    by (apply (app_inv_head (trace s)); congruence).
  eexists. split; [done|]. split; [done|]. split; [done|].
  change (EvSleep ?d :: evs') with ([EvSleep d] ++ evs').
  rewrite slept_app, (slept_none evs') by done.
  unfold slept. simpl. rewrite moveWait_small by done. lia.
Qed.

Lemma fanOut_cost js s s' :
  0 ≤ maxMoveWaitNumber s → maxMoveWaitNumber s * 1000 ≤ max_int →
  fanOut js s = Some s' →
  ∃ evs, trace s' = trace s ++ evs ∧
    0 ≤ maxMoveWaitNumber s' ≤ maxMoveWaitNumber s ∧
    slept evs + 2000 * maxMoveWaitNumber s'
      ≤ 2000 * maxMoveWaitNumber s + 1000 * Z.of_N (sent 0 evs).
Proof.
  revert s. induction js as [|j js IH]; intros s Hc Hle Hfan; simpl in Hfan.
  - simplify_eq. exists []. rewrite app_nil_r. split; [done|]. split; [lia|].
    unfold slept, sent, total. simpl. lia.
  - destruct (deliveryUnits s !! j) as [unit|]; simpl in Hfan; [|done].
    destruct (GraphNode.Metadata unit); [by apply IH|].
    destruct (processDelivery j s) as [s1|] eqn:Hrun; simpl in Hfan; [|done].
    destruct (processDelivery_cost _ _ _ Hc Hle Hrun) as (evs1 & Htr1 & Hone & Hc1 & Hcost1).
    destruct (IH s1) as (evs2 & Htr2 & Hc2 & Hcost2); [lia|lia|done|].
    exists (evs1 ++ evs2). rewrite Htr2, Htr1, app_assoc. split; [done|].
    split; [lia|]. rewrite slept_app. unfold sent in *. rewrite total_app. lia.
Qed.

(** X17: run one task after the other, the pacing costs little: the time
    slept in any number of rounds is at most twice the wait of the ceiling
    they began with plus one microsecond per task, since what a task sleeps
    it takes at least half of from the ceiling.  From the 100 of the
    constructor that is 200 microseconds and one more for every task. *)
Theorem pacing_costs_little n s sn :
  0 ≤ maxMoveWaitNumber s → maxMoveWaitNumber s * 1000 ≤ max_int →
  afterRounds n s = Some sn →
  ∃ evs, trace sn = trace s ++ evs ∧
    0 ≤ slept evs ∧
    slept evs + 2000 * maxMoveWaitNumber sn
      ≤ 2000 * maxMoveWaitNumber s + 1000 * Z.of_N (sent 0 evs) ∧
    (maxMoveWaitNumber s = 100 →
       slept evs ≤ (200 + Z.of_N (sent 0 evs)) * Microsecond).
Proof.
  intros Hc Hle Hn.
  cut (∃ evs, trace sn = trace s ++ evs ∧
         0 ≤ maxMoveWaitNumber sn ≤ maxMoveWaitNumber s ∧
         0 ≤ slept evs ∧
         slept evs + 2000 * maxMoveWaitNumber sn
           ≤ 2000 * maxMoveWaitNumber s + 1000 * Z.of_N (sent 0 evs)).
  { intros (evs & Htr & Hc' & Hpos & Hcost). exists evs.
    split; [done|]. split; [done|]. split; [done|].
    intros Hs. unfold Microsecond. lia. }
  revert sn Hn. induction n as [|n IH]; intros sn Hn; simpl in Hn.
  - simplify_eq. exists []. rewrite app_nil_r. split; [done|]. split; [lia|].
    unfold slept, sent, total. simpl. lia.
  - destruct (afterRounds n s) as [sm|]; simpl in Hn; [|done].
    destruct (IH sm) as (evs1 & Htr1 & Hc1 & Hpos1 & Hcost1); [done|].
    destruct (fanOut_cost _ sm sn ltac:(lia) ltac:(lia) Hn)
      as (evs2 & Htr2 & Hc2 & Hcost2).
    assert (Hpos2 : 0 ≤ slept evs2).
    { destruct (fanOut_sleeps _ sm sn ltac:(unfold max_int in *; lia) Hn)
        as (_ & evs2' & Htr2' & Hw).
      assert (evs2' = evs2) as ->
        by (apply (app_inv_head (trace sm)); congruence).
      clear -Hw Hle Hc1. unfold slept.
      induction Hw as [|e evs He _ IHw]; simpl; [done|].
      destruct e; simpl; try lia.
      destruct (He _ eq_refl) as (b & Hb & ->).
      rewrite moveWait_small by lia. lia. }
    exists (evs1 ++ evs2). rewrite Htr2, Htr1, app_assoc. split; [done|].
    split; [lia|]. rewrite slept_app. unfold sent in *. rewrite total_app.
    split; lia.
Qed.

(** X10: when the arrival report fails, the line that the task logs ends in
    "API error: <nil>" whatever the error is: the line is made from the error
    of the movement report, which is [nil] on this path, and the error of
    the arrival report is logged nowhere. *)
Theorem failed_arrival_report_logs_no_error
    i s unit stub o0 o1 here w1 stub1 w2 warehouse stub2 e :
  deliveryUnits s !! i = Some unit →
  client.api (logisticsClient s) = Some stub →
  operations s = [o0; o1] →
  0 ≤ maxMoveWaitNumber s < max_int →
  unitCoordinate (worldOperator s) i = here →
  MoveDeliveryUnitToNearestWarehouse (worldOperator s) (GraphNode.ID unit) = (w1, here) →
  stub_MoveUnit stub (moveUnitRequest unit here) = (stub1, None) →
  FindEntityByCoordinate w1 here Warehouses = (w2, Some warehouse) →
  stub_UnitReachedWarehouse stub1 (unitReachedWarehouseRequest unit warehouse here)
    = (stub2, Some e) →
  ∃ s', processDelivery i s = Some s' ∧
    trace s' = trace s ++
      [EvSleep (moveWait (maxMoveWaitNumber s));
       EvMoveToNearest (GraphNode.ID unit);
       EvLog (unitMessage unit here);
       EvMoveUnit i (moveUnitRequest unit here) None;
       EvFindEntity here Warehouses;
       EvUnitReachedWarehouse i (unitReachedWarehouseRequest unit warehouse here)
         (Some e);
       EvLog ("filed to send UnitReachedWarehouse " +:+ unitMessage unit here
                +:+ ", API error: <nil>")].
Proof.
  intros Hunit Hapi Hops Hc <- Hmove Hrpc Hfind Hreach. task_statements.
  rewrite Hunit. simpl. rewrite drawMoveWaitNumber_Some by done. simpl.
  rewrite Hmove. simpl. rewrite Hops. simpl. rewrite Hapi. simpl. rewrite Hrpc. simpl.
  rewrite bool_decide_eq_false_2 by (intros Hne; by apply Hne).
  rewrite Hfind. simpl. rewrite Hreach. simpl.
  eexists. split; [done|]. task_trace.
Qed.

(** X11: with no unit to deliver (the world returns no unit, or only units
    that are marked), [Run] leaves its loop at once: it logs that all units
    have reached their warehouse, adds the rows of the operations to the
    table and prints the time and the table, without a sleep, a move or an
    RPC, and leaves the counters, the world and the ceiling as they were. *)
Theorem run_with_no_unit_pending fuel now s :
  Forall (λ u, GraphNode.Metadata u = true) (GetDeliveryUnit (worldOperator s)) →
  ∃ s', Run (S fuel) now s = Exited 0 s' ∧
    reportTable s'
      = {| ASCIITablePrinter.header := ASCIITablePrinter.header (reportTable s);
           ASCIITablePrinter.rows :=
             ASCIITablePrinter.rows (reportTable s) ++ (reportRow <$> operations s) |} ∧
    trace s' = trace s ++
      [EvLog "All delivery units reached warehouse...";
       EvPrintExecTime (time_Since now (Statistics.ExecTime (statistics s)));
       EvPrintTable (reportTable s')] ∧
    operations s' = operations s ∧
    worldOperator s' = worldOperator s ∧
    logisticsClient s' = logisticsClient s ∧
    maxMoveWaitNumber s' = maxMoveWaitNumber s ∧
    rng s' = rng s ∧
    deliveryUnits s' = GetDeliveryUnit (worldOperator s).
Proof.
  destruct s as [lc w c tbl [et ops] us g tr]. simpl. intros Hall.
  unfold Run. simpl.
  assert (∀ s1 : ServiceInstance Stub World,
            deliveryUnits s1 = GetDeliveryUnit w → allReached s1 = true) as Hexit.
  { intros s1 Hs1. unfold allReached. apply bool_decide_eq_true. rewrite Hs1.
    by apply unitsReachedObjective_all. }
  rewrite Hexit by done. eexists. split; [reflexivity|].
  rewrite report_eq. unfold operations, emit, set_reportTable. simpl.
  by rewrite <- !app_assoc.
Qed.

(** X14: a unit that has moved is not checked for arrival in the task that
    moved it.  When the coordinate that the world returns differs from the
    one the unit had, the task returns after its movement report, whatever
    that report returned: it looks up no warehouse, sends no arrival report
    and marks no unit, even when the unit now stands where a warehouse is.
    The arrival is left to a later round, in which the unit does not move. *)
Theorem moved_unit_is_not_checked_for_arrival i s s' unit :
  deliveryUnits s !! i = Some unit →
  (MoveDeliveryUnitToNearestWarehouse (worldOperator s) (GraphNode.ID unit)).2
    ≠ unitCoordinate (worldOperator s) i →
  processDelivery i s = Some s' →
  deliveryUnits s' = deliveryUnits s ∧
  worldOperator s'
    = (MoveDeliveryUnitToNearestWarehouse (worldOperator s) (GraphNode.ID unit)).1 ∧
  ∃ evs, trace s' = trace s ++ evs ∧
    Forall (λ e, isFind e = false) evs ∧ sent 0 evs = 1%N ∧ sent 1 evs = 0%N.
Proof.
  destruct s as [lc w c tbl [et ops] us g tr]. simpl. intros Hunit Hmoved.
  task_statements. rewrite Hunit. simpl.
  destruct (drawMoveWaitNumber g c) as [[d g1]|]; simpl; [|done].
  destruct (MoveDeliveryUnitToNearestWarehouse w (GraphNode.ID unit)) as [w1 new].
  simpl in *.
  destruct (ops !! 0%nat) as [o0|] eqn:Ho0; simpl; [|done].
  destruct (client.api lc) as [stub|]; simpl; [|done].
  destruct (stub_MoveUnit stub (moveUnitRequest unit new)) as [stub1 [e|]]; simpl.
  - rewrite list_lookup_insert_eq by by eapply lookup_lt_Some. simpl.
    intros [= <-]. simpl. split; [done|]. split; [done|].
    eexists [_; _; _; _; _]. split; [by rewrite <- !app_assoc|].
    split; [by repeat constructor|done].
  - rewrite bool_decide_eq_true_2 by done. intros [= <-]. simpl.
    split; [done|]. split; [done|].
    eexists [_; _; _; _]. split; [by rewrite <- !app_assoc|].
    split; [by repeat constructor|done].
Qed.

End TaskProperties.

(** ** The constructor *)

Section ConstructorProperties.
Context {Stub World : Type}.
Context `{!CoopLogisticsEngineAPIClient Stub} `{!WorldOperator World}.
Implicit Types s : ServiceInstance Stub World.
Implicit Types lc : client.APILogisticsClient Stub.

(** The constructor from the dial on, the connection made. *)
Lemma NewServiceInstance_connected lc wo g now conn :
  grpc_DialContext apiAddress = inr conn →
  NewServiceInstance lc wo g now
  = let w := raw g (cursor g) mod 246 + 10 in
    let u := raw g (S (cursor g)) mod 1015 + 10 in
    let tr := [EvLog "Coop Logistics Engine, initializing...";
               EvLog "Coop Logistics Engine, trying to connect to API - 127.0.0.1:50051...";
               EvPopulate w u] in
    match (Populate wo w u).2 with
    | Some e => Some (tr, inl e)
    | None =>
        Some (tr, inr
          {| logisticsClient := {| client.api := Some conn |};
             worldOperator := (Populate wo w u).1;
             maxMoveWaitNumber := 100;
             reportTable :=
               {| ASCIITablePrinter.header := ["Operation"; "Count"; "Errors"];
                  ASCIITablePrinter.rows := [] |};
             statistics :=
               {| Statistics.ExecTime := now;
                  Statistics.Operation :=
                    [ {| Operation.Name := "MoveUnit";
                         Operation.A := 0; Operation.B := 0 |};
                      {| Operation.Name := "UnitReachedWarehouse";
                         Operation.A := 0; Operation.B := 0 |} ] |};
             deliveryUnits := [];
             rng := {| raw := raw g; cursor := S (S (cursor g)) |};
             trace := tr |})
    end.
Proof.
  intros Hdial. unfold NewServiceInstance, client.Connect. rewrite Hdial.
  change (rng (newService _ wo g now _)) with g.
  change (maxWarehouses - 10 + 1) with 246. change (maxCargoUnits - 10 + 1) with 1015.
  rewrite rand_Intn_Some by done. unfold mbind, option_bind. cbv beta iota.
  rewrite rand_Intn_Some by done. cbv beta iota zeta.
  rewrite !population_count by done.
  change (worldOperator (newService _ wo g now _)) with wo.
  change (raw {| raw := raw g; cursor := S (cursor g) |}) with (raw g).
  change (cursor {| raw := raw g; cursor := S (cursor g) |}) with (S (cursor g)).
  by destruct (Populate wo _ _) as [wo' [e|]].
Qed.

(** X1: when the server cannot be reached, the constructor returns no
    service and the error "Coop Logistics Engine, failed to connect to API
    (127.0.0.1:50051), error: ..." with the error of the dial at its end; it
    has logged its two lines by then and has not touched the world. *)
Theorem constructor_without_connection lc wo g now dialErr :
  grpc_DialContext apiAddress = inl dialErr →
  NewServiceInstance lc wo g now
  = Some ([EvLog "Coop Logistics Engine, initializing...";
           EvLog "Coop Logistics Engine, trying to connect to API - 127.0.0.1:50051..."],
          inl ("Coop Logistics Engine, failed to connect to API (127.0.0.1:50051), error: "
                 +:+ dialErr)).
Proof.
  intros Hdial. unfold NewServiceInstance, client.Connect. by rewrite Hdial.
Qed.

(** X2: when the world cannot be populated, the constructor returns no
    service and the error of [Populate] as it is; [Populate] has been called
    once, with the two counts drawn from the generator. *)
Theorem constructor_when_population_fails lc wo g now conn w u wo' e :
  grpc_DialContext apiAddress = inr conn →
  w = raw g (cursor g) mod 246 + 10 →
  u = raw g (S (cursor g)) mod 1015 + 10 →
  Populate wo w u = (wo', Some e) →
  NewServiceInstance lc wo g now
  = Some ([EvLog "Coop Logistics Engine, initializing...";
           EvLog "Coop Logistics Engine, trying to connect to API - 127.0.0.1:50051...";
           EvPopulate w u],
          inl e).
Proof.
  intros Hdial -> -> Hpop. rewrite (NewServiceInstance_connected _ _ _ _ conn Hdial).
  cbv zeta. by rewrite Hpop.
Qed.

(** X3: the service that the constructor returns is connected through the
    connection of the dial, has the pacing ceiling 100, the operations
    "MoveUnit" and "UnitReachedWarehouse" with no attempt and no error, a
    table with the header and no row, the clock of its construction, and the
    world as [Populate] left it; two values have been drawn from the
    generator.  It is ready for [Run] as long as the world holds fewer than
    [max_int - 100] units. *)
Theorem constructor_makes_a_ready_service lc wo g now tr s :
  NewServiceInstance lc wo g now = Some (tr, inr s) →
  (∃ conn, grpc_DialContext apiAddress = inr conn ∧
           logisticsClient s = {| client.api := Some conn |}) ∧
  (∃ w u, 10 ≤ w ≤ 255 ∧ 10 ≤ u ≤ 1024 ∧
          Populate wo w u = (worldOperator s, None) ∧
          tr = [EvLog "Coop Logistics Engine, initializing...";
                EvLog "Coop Logistics Engine, trying to connect to API - 127.0.0.1:50051...";
                EvPopulate w u]) ∧
  trace s = tr ∧
  maxMoveWaitNumber s = 100 ∧
  operations s
    = [ {| Operation.Name := "MoveUnit"; Operation.A := 0; Operation.B := 0 |};
        {| Operation.Name := "UnitReachedWarehouse";
           Operation.A := 0; Operation.B := 0 |} ] ∧
  reportTable s
    = {| ASCIITablePrinter.header := ["Operation"; "Count"; "Errors"];
         ASCIITablePrinter.rows := [] |} ∧
  Statistics.ExecTime (statistics s) = now ∧
  deliveryUnits s = [] ∧
  rng s = {| raw := raw g; cursor := S (S (cursor g)) |} ∧
  (100 + Z.of_nat (length (GetDeliveryUnit (worldOperator s))) < max_int →
   ready s).
Proof.
  intros Hnew. destruct (grpc_DialContext apiAddress) as [dialErr|conn] eqn:Hdial.
  { unfold NewServiceInstance, client.Connect in Hnew. by rewrite Hdial in Hnew. }
  rewrite (NewServiceInstance_connected _ _ _ _ conn Hdial) in Hnew. cbv zeta in Hnew.
  pose proof (Z.mod_pos_bound (raw g (cursor g)) 246).
  pose proof (Z.mod_pos_bound (raw g (S (cursor g))) 1015).
  destruct (Populate wo _ _) as [wo' [e|]] eqn:Hpop; simpl in Hnew; [done|].
  injection Hnew as <- <-. simpl.
  split; [by exists conn|]. split; [|done].
  eexists _, _. split; [|split; [|split; [exact Hpop|done]]]; lia.
Qed.

End ConstructorProperties.

(** ** The client *)

Section ClientProperties.
Context {Stub : Type} `{!CoopLogisticsEngineAPIClient Stub}.
Implicit Types lc : client.APILogisticsClient Stub.

(** X13: a client is of use once [Connect] has succeeded.  On a fresh client
    [MoveUnit] and [UnitReachedWarehouse] panic (the stub is [nil]).  A
    [Connect] whose dial fails returns the error of the dial and leaves the
    client as it was; one whose dial succeeds returns [nil], and from then on
    each call goes to the stub of the new connection and returns its error
    as it is, and [Disconnect] returns what closing that connection
    returns. *)
Theorem client_calls_need_a_connection :
  (∀ req, client.MoveUnit (client.NewLogisticsClient (Stub := Stub)) req = None) ∧
  (∀ req, client.UnitReachedWarehouse (client.NewLogisticsClient (Stub := Stub)) req
          = None) ∧
  (∀ lc serverAddr,
     match grpc_DialContext serverAddr with
     | inl dialErr => client.Connect lc serverAddr = (lc, Some dialErr)
     | inr conn =>
         ∃ lc', client.Connect lc serverAddr = (lc', None) ∧
           client.api lc' = Some conn ∧
           (∀ req, client.MoveUnit lc' req
                   = Some ({| client.api := Some (stub_MoveUnit conn req).1 |},
                           (stub_MoveUnit conn req).2)) ∧
           (∀ req, client.UnitReachedWarehouse lc' req
                   = Some ({| client.api := Some (stub_UnitReachedWarehouse conn req).1 |},
                           (stub_UnitReachedWarehouse conn req).2)) ∧
           client.Disconnect lc' = Some (conn_Close conn)
     end).
Proof.
  split; [done|]. split; [done|]. intros lc serverAddr. unfold client.Connect.
  destruct (grpc_DialContext serverAddr) as [dialErr|conn]; [done|].
  eexists. split; [done|]. split; [done|].
  unfold client.MoveUnit, client.UnitReachedWarehouse, client.Disconnect. simpl.
  split_and!; [| |done].
  - intros req. by destruct (stub_MoveUnit conn req) as [stub' [e|]].
  - intros req. by destruct (stub_UnitReachedWarehouse conn req) as [stub' [e|]].
Qed.

End ClientProperties.

(** ** The further properties at work *)

Lemma scenario_ready script : ready (Scenario.service script).
Proof.
  unfold ready. split; [by eexists|]. split; [vm_compute; lia|].
  split; [vm_compute; discriminate|]. vm_compute. reflexivity.
Qed.

Lemma constructor_without_connection_witness :
  Construction.outcome Construction.unreachable Grid.operator
  = Some ([EvLog "Coop Logistics Engine, initializing...";
           EvLog "Coop Logistics Engine, trying to connect to API - 127.0.0.1:50051..."],
          inl "Coop Logistics Engine, failed to connect to API (127.0.0.1:50051), error: connection refused").
Proof.
  apply (@constructor_without_connection Scripted.t Grid.t
           Construction.unreachable Grid.operator).
  reflexivity.
Defined.

Lemma constructor_when_population_fails_witness :
  Construction.outcome (Scripted.stub Scripted.reliable) Construction.crowded
  = Some ([EvLog "Coop Logistics Engine, initializing...";
           EvLog "Coop Logistics Engine, trying to connect to API - 127.0.0.1:50051...";
           EvPopulate 10 10],
          inl "no room").
Proof.
  apply (@constructor_when_population_fails Scripted.t Grid.t
           (Scripted.stub Scripted.reliable) Construction.crowded
           client.NewLogisticsClient Scenario.world Construction.generator 0
           Scripted.reliable 10 10 Scenario.world "no room");
    reflexivity.
Defined.

Lemma constructor_makes_a_ready_service_witness :
  maxMoveWaitNumber Construction.built = 100 ∧
  length (GetDeliveryUnit (worldOperator Construction.built)) = 10%nat ∧
  ready Construction.built.
Proof.
  destruct (@constructor_makes_a_ready_service Scripted.t Grid.t
              (Scripted.stub Scripted.reliable) Grid.operator
              client.NewLogisticsClient Scenario.world Construction.generator 0
              (trace Construction.built) Construction.built)
    as (_ & _ & _ & Hc & _ & _ & _ & _ & _ & Hready);
    [vm_compute; reflexivity|].
  assert (Hlen : length (GetDeliveryUnit (worldOperator Construction.built)) = 10%nat)
    by (vm_compute; reflexivity).
  split; [exact Hc|]. split; [exact Hlen|]. apply Hready. rewrite Hlen.
  vm_compute. reflexivity.
Defined.

Lemma run_neither_panics_nor_blocks_witness :
  driver {| driver := Counting; tasks := [];
            shared := Scenario.stateAfter Scripted.reliable 2 |} = Returned ∨
  ∃ c', @step Scripted.t Grid.t (Scripted.stub Scripted.reliable) Grid.operator
          {| driver := Counting; tasks := [];
             shared := Scenario.stateAfter Scripted.reliable 2 |} c'.
Proof.
  apply (@run_neither_panics_nor_blocks Scripted.t Grid.t
           (Scripted.stub Scripted.reliable) Grid.operator
           (Scenario.service Scripted.reliable)).
  - apply scenario_ready.
  - apply scenario_reachable. lia.
Defined.


Lemma counters_match_the_rpcs_witness :
  ∃ evs, trace (Scenario.final Scenario.moveFails)
           = trace (Scenario.service Scenario.moveFails) ++ evs ∧
    sent 0 evs = 9%N ∧ failed 0 evs = 1%N.
Proof.
  destruct (@counters_match_the_rpcs Scripted.t Grid.t
              (Scripted.stub Scenario.moveFails) Grid.operator
              (Scenario.service Scenario.moveFails)
              {| driver := Returned; tasks := [];
                 shared := Scenario.final Scenario.moveFails |} 0%nat
              {| Operation.Name := "MoveUnit"; Operation.A := 0; Operation.B := 0 |}
              {| Operation.Name := "MoveUnit"; Operation.A := 9; Operation.B := 1 |})
    as (evs & Htr & _ & _ & Hexact).
  - apply (Run_steps 10 0 _ 4). vm_compute. reflexivity.
  - vm_compute. reflexivity.
  - vm_compute. reflexivity.
  - rewrite shared_config in Htr. exists evs. split; [exact Htr|].
    destruct Hexact as [HA HB]; [constructor|]. simpl in HA, HB. lia.
Defined.

Lemma arrivals_match_the_reports_witness :
  ∃ evs, trace (Scenario.final Scenario.reachFails)
           = trace (Scenario.service Scenario.reachFails) ++ evs ∧
    succeeded 1 evs = 3%N.
Proof.
  destruct (@arrivals_match_the_reports Scripted.t Grid.t
              (Scripted.stub Scenario.reachFails) Grid.operator
              (Scenario.service Scenario.reachFails)
              {| driver := Returned; tasks := [];
                 shared := Scenario.final Scenario.reachFails |})
    as (evs & Htr & _ & Hleft).
  - apply (Run_steps 10 0 _ 4). vm_compute. reflexivity.
  - rewrite shared_config in Htr. exists evs. split; [exact Htr|].
    destruct Hleft as [Hok _]; [right; left|]. rewrite Hok. vm_compute. reflexivity.
Defined.

Lemma failed_arrival_report_logs_no_error_witness :
  ∃ s', Scenario.task Scenario.reachFails 0
          (Scenario.enteringOver Scenario.atTheDoor Scenario.reachFails) = Some s' ∧
    last (trace s')
      = Some (EvLog "filed to send UnitReachedWarehouse U1 moving to - X:0, Y:0, API error: <nil>").
Proof.
  destruct (@failed_arrival_report_logs_no_error Scripted.t Grid.t
              (Scripted.stub Scenario.reachFails) Grid.operator 0
              (Scenario.enteringOver Scenario.atTheDoor Scenario.reachFails)
              (Scenario.node 11 "U1") Scenario.reachFails
              {| Operation.Name := "MoveUnit"; Operation.A := 0; Operation.B := 0 |}
              {| Operation.Name := "UnitReachedWarehouse";
                 Operation.A := 0; Operation.B := 0 |}
              (Scenario.at_ 0 0) Scenario.atTheDoor Scenario.reachFails
              Scenario.atTheDoor (Scenario.node 1 "W1") Scripted.reliable
              "unavailable")
    as (s' & Hrun & Htr); try (vm_compute; reflexivity).
  - vm_compute. split; [discriminate|reflexivity].
  - exists s'. split; [exact Hrun|]. rewrite Htr. vm_compute. reflexivity.
Defined.

Lemma run_with_no_unit_pending_witness :
  ∃ s', @Run Scripted.t Grid.t (Scripted.stub Scripted.reliable) Grid.operator 1 0
          (Scenario.serviceOver Construction.idle Scripted.reliable) = Exited 0 s' ∧
    operations s' = operations (Scenario.serviceOver Construction.idle Scripted.reliable).
Proof.
  destruct (@run_with_no_unit_pending Scripted.t Grid.t
              (Scripted.stub Scripted.reliable) Grid.operator 0 0
              (Scenario.serviceOver Construction.idle Scripted.reliable))
    as (s' & Hrun & _ & _ & Hops & _); [constructor|].
  exists s'. split; [exact Hrun|exact Hops].
Defined.

Lemma run_goes_on_while_arrival_reports_fail_witness :
  pending Construction.refused 0.
Proof.
  destruct (@run_goes_on_while_arrival_reports_fail Scripted.t Grid.t
              Construction.refusing Grid.operator
              (Scenario.service Scripted.reliable) 0) as [Hgen _].
  - intros st req. discriminate.
  - eexists. split; vm_compute; reflexivity.
  - destruct (Hgen {| driver := Counting; tasks := [];
                      shared := Construction.refused |})
      as [Hpend _].
    + apply (afterRounds_reachable 5 (Scenario.entering Scripted.reliable)).
      vm_compute. reflexivity.
    + rewrite shared_config in Hpend. exact Hpend.
Defined.

Lemma printed_table_counts_the_rpcs_witness :
  ∃ evs,
    reportTable (Scenario.final Scenario.moveFails)
    = {| ASCIITablePrinter.header :=
           ASCIITablePrinter.header (reportTable (Scenario.service Scenario.moveFails));
         ASCIITablePrinter.rows :=
           ASCIITablePrinter.rows (reportTable (Scenario.service Scenario.moveFails)) ++
             [ ["MoveUnit"; pretty (sent 0 evs); pretty (failed 0 evs)];
               ["UnitReachedWarehouse"; pretty (sent 1 evs);
                pretty (failed 1 evs)] ] |}.
Proof.
  destruct (@printed_table_counts_the_rpcs Scripted.t Grid.t
              (Scripted.stub Scenario.moveFails) Grid.operator 10 0
              (Scenario.service Scenario.moveFails) 4
              (Scenario.final Scenario.moveFails))
    as (evs & _ & Htable); [vm_compute; reflexivity|vm_compute; reflexivity|].
  exists evs. exact Htable.
Defined.

Lemma pacing_costs_little_witness :
  ∃ evs,
    trace (Scenario.stateAfter Scripted.reliable 4)
      = trace (Scenario.entering Scripted.reliable) ++ evs ∧
    slept evs ≤ (200 + Z.of_N (sent 0 evs)) * Microsecond.
Proof.
  assert (Hc : maxMoveWaitNumber (Scenario.entering Scripted.reliable) = 100)
    by (vm_compute; reflexivity).
  assert (Hm : max_int = 2 ^ 63 - 1) by reflexivity.
  destruct (@pacing_costs_little Scripted.t Grid.t
              (Scripted.stub Scripted.reliable) Grid.operator 4
              (Scenario.entering Scripted.reliable)
              (Scenario.stateAfter Scripted.reliable 4))
    as (evs & Htr & _ & _ & Hcost).
  - rewrite Hc. lia.
  - rewrite Hc, Hm. lia.
  - apply scenario_afterRounds. lia.
  - exists evs. split; [exact Htr|]. apply Hcost. exact Hc.
Defined.

Lemma moved_unit_is_not_checked_for_arrival_witness :
  ∃ s', Scenario.task Scripted.reliable 0 (Scenario.entering Scripted.reliable) = Some s' ∧
    unitCoordinate (worldOperator s') 0 = Scenario.at_ 0 0 ∧
    Grid.findAt (Scenario.at_ 0 0) (Grid.warehouses (worldOperator s'))
      = Some (Scenario.node 1 "W1") ∧
    deliveryUnits s' = deliveryUnits (Scenario.entering Scripted.reliable).
Proof.
  exists (default (Scenario.entering Scripted.reliable)
            (Scenario.task Scripted.reliable 0 (Scenario.entering Scripted.reliable))).
  split; [vm_compute; reflexivity|]. split; [vm_compute; reflexivity|].
  split; [vm_compute; reflexivity|].
  apply (@moved_unit_is_not_checked_for_arrival Scripted.t Grid.t
           (Scripted.stub Scripted.reliable) Grid.operator 0
           (Scenario.entering Scripted.reliable) _ (Scenario.node 11 "U1")).
  - vm_compute. reflexivity.
  - vm_compute. discriminate.
  - vm_compute. reflexivity.
Defined.
